(** * git-local-devops: the action scheduler of [src/actions.ts]

    A shallow embedding of the selection of work items
    ([getProjectsToRunActionIn] and its helpers) and of the tiered,
    dependency-driven executor ([actions], [runActionPromiseWrapper],
    [findActionsToSkipAfterFailure], [runAction]), followed by the
    properties of the specification that concern them. *)

From Stdlib Require Import ZArith String List Bool Lia Permutation Sorted.
From stdpp Require Import base option list.
Import ListNotations.
Local Open Scope string_scope.
Local Open Scope list_scope.

(** ** JavaScript values used by the scheduler *)

(** A plain object used as a dictionary, in [Object.entries] order.
    [get d k] is [d[k]] for every key that [d] holds itself and for
    every key that no object inherits (see [inherited] below); [None]
    stands for [undefined]. *)
Definition Dict (V : Type) : Type := list (string * V).

Fixpoint get {V : Type} (d : Dict V) (k : string) : option V :=
  match d with
  | [] => None
  | (k', v) :: d' => if String.eqb k' k then Some v else get d' k
  end.

(** [xs.includes(x)] on an array of strings. *)
Definition includes (xs : list string) (x : string) : bool :=
  existsb (String.eqb x) xs.

(** The keys every plain object inherits from [Object.prototype].  For
    such a key [k] that [d] does not hold itself, [d[k]] is not
    [undefined] but the inherited member, a function or the prototype
    object: it is truthy, it is not nullish, [k in d] holds, and it has
    none of the properties the scheduler reads ([actions], [groups],
    [needs], [priority], [slice], [join]). *)
Definition inherited (k : string) : bool :=
  includes
    [ "constructor"; "hasOwnProperty"; "isPrototypeOf"; "propertyIsEnumerable";
      "toLocaleString"; "toString"; "valueOf"; "__proto__";
      "__defineGetter__"; "__defineSetter__";
      "__lookupGetter__"; "__lookupSetter__" ]
    k.

(** [xs.filter((y) => y !== x)]. *)
Definition without (x : string) (xs : list string) : list string :=
  List.filter (fun y => negb (String.eqb y x)) xs.

(** Exceptions that abort a call.  [TypeError] is a property access on
    [undefined], [RangeError] the exhaustion of the call stack, and
    [CycleError] is what the graph module raises on a cyclic [needs]. *)
Inductive Thrown : Type := TypeError | RangeError | CycleError.

Definition result (A : Type) : Type := (Thrown + A)%type.

Definition bind {A B : Type} (r : result A) (k : A -> result B) : result B :=
  match r with
  | inl e => inl e
  | inr a => k a
  end.

Notation "'try' x ':=' r 'in' k" := (bind r (fun x => k))
  (at level 10, x name, r at level 100, k at level 200).

Definition defined {A : Type} (o : option A) : result A :=
  match o with
  | Some a => inr a
  | None => inl TypeError
  end.

(** ** Data model ([types/config], [types/utils]) *)

(** Modelled from the spec: the declarations of [types/config] and
    [types/utils] are not among the sources.  The records have the
    fields of the data model of the specification, under the names the
    code reads them by; a field the code treats as optional is an
    [option]. *)

Record GroupKey : Type := mkKey {
  project : string;
  action : string;
  group : string
}.

Record ProjectAction : Type := mkAction {
  groups : Dict (list string);
  priority : option Z;
  needs : option (list string)
}.

Record Project : Type := mkProject {
  p_remote : string;
  p_priority : option Z;
  p_actions : Dict ProjectAction
}.

Record Config : Type := mkConfig {
  cwd : string;
  projects : Dict Project
}.

(** The intersection type [GroupKey & ProjectAction]: one flat object. *)
Record WorkItem : Type := mkItem {
  w_project : string;
  w_action : string;
  w_group : string;
  w_groups : Dict (list string);
  w_priority : option Z;
  w_needs : option (list string)
}.

Definition set_needs (w : WorkItem) (ns : option (list string)) : WorkItem :=
  mkItem (w_project w) (w_action w) (w_group w) (w_groups w) (w_priority w) ns.

Definition set_group (w : WorkItem) (g : string) : WorkItem :=
  mkItem (w_project w) (w_action w) g (w_groups w) (w_priority w) (w_needs w).

(** [action.needs?.length ?? 0]. *)
Definition needs_length (w : WorkItem) : nat :=
  match w_needs w with
  | Some ns => length ns
  | None => 0
  end.

(** [action.priority ?? 0]. *)
Definition priority_or_0 (w : WorkItem) : Z :=
  match w_priority w with
  | Some p => p
  | None => 0%Z
  end.

(** [project.actions[actionToRun]?.groups[groupToRun]], as a truth
    value, for an action name and a group name that are not
    [inherited]. *)
Definition has_group (a : option ProjectAction) (g : string) : bool :=
  match a with
  | Some pa => if get (groups pa) g is Some _ then true else false
  | None => false
  end.

(** ** Selection and dependency closure *)

(** The object literal [{ project, action, group, ...projectAction }]. *)
Definition item_of (name act grp : string) (pa : ProjectAction) : WorkItem :=
  mkItem name act grp (groups pa) (priority pa) (needs pa).

(** The object literal [{ ...action, project: need, ...neededAction }]:
    a key that [neededAction] lacks keeps the value it has in [action],
    and an [undefined] [neededAction] spreads nothing. *)
Definition spread_needed (a : WorkItem) (need : string)
    (neededAction : option ProjectAction) : WorkItem :=
  match neededAction with
  | Some pa =>
      mkItem need (w_action a) (w_group a) (groups pa)
        (match priority pa with Some p => Some p | None => w_priority a end)
        (match needs pa with Some ns => Some ns | None => w_needs a end)
  | None =>
      mkItem need (w_action a) (w_group a) (w_groups a) (w_priority a) (w_needs a)
  end.

(** [resolveProjectDependencies].  [stack] bounds the depth of the
    recursion, as the call stack does.  The sets are sets of object
    references: every object of a recursive result is fresh, so the only
    element [new Set([action, ...rec, ...carry])] can drop is the
    [action] that heads a non-empty [carry]. *)
Fixpoint resolveProjectDependencies (stack : nat) (config : Config)
    (a : WorkItem) : result (list WorkItem) :=
  match stack with
  | O => inl RangeError
  | S stack' =>
      match w_needs a with
      | Some ((_ :: _) as ns) =>
          fold_left
            (fun carry need =>
               try c := carry in
               try p := defined (get (projects config) need) in
               try r := resolveProjectDependencies stack' config
                      (spread_needed a need (get (p_actions p) (w_action a))) in
               inr (a :: r ++ tl c))
            ns (inr [])
      | _ => inr [a]
      end
  end.

(** [_.uniqBy(xs, (action) => action.project)]: the first item of every
    project is kept, in order. *)
Fixpoint uniqBy_project (seen : list string) (xs : list WorkItem) : list WorkItem :=
  match xs with
  | [] => []
  | x :: xs' =>
      if includes seen (w_project x) then uniqBy_project seen xs'
      else x :: uniqBy_project (w_project x :: seen) xs'
  end.

(** [xs.map(f)] for an [f] that may throw. *)
Fixpoint mapM {A B : Type} (f : A -> result B) (xs : list A) : result (list B) :=
  match xs with
  | [] => inr []
  | x :: xs' => try y := f x in try ys := mapM f xs' in inr (y :: ys)
  end.

(** The array built by the [reduce] of [resolveDependenciesForActions]:
    the closures of the direct matches, one after the other. *)
Definition closure_of (stack : nat) (config : Config)
    (actionsToRun : list WorkItem) : result (list WorkItem) :=
  fold_left
    (fun carry a =>
       try c := carry in
       try r := resolveProjectDependencies stack config a in
       inr (c ++ r))
    actionsToRun (inr []).

(** The [.filter(...).map(...)] of [resolveDependenciesForActions]: the
    array handed to [_.uniqBy]. *)
Definition rebound (config : Config) (groupToRun actionToRun : string)
    (closure : list WorkItem) : result (list WorkItem) :=
  mapM
    (fun a =>
       try p := defined (get (projects config) (w_project a)) in
       inr (set_group a
              (if has_group (get (p_actions p) actionToRun) groupToRun
               then groupToRun else "*")))
    (List.filter
       (fun a =>
          match get (w_groups a) groupToRun with
          | Some _ => true
          | None => if get (w_groups a) "*" is Some _ then true else false
          end)
       closure).

Definition resolveDependenciesForActions (stack : nat)
    (actionsToRun : list WorkItem) (config : Config)
    (groupToRun actionToRun : string) : result (list WorkItem) :=
  try c := closure_of stack config actionsToRun in
  try xs := rebound config groupToRun actionToRun c in
  inr (uniqBy_project [] xs).

(** The direct matches: the two [filter]s and the [reduce] that open
    [getProjectsToRunActionIn].  The first filter leaves only projects
    that declare the action, so the [None] branch is never taken. *)
Definition direct_matches (config : Config) (actionToRun groupToRun : string)
    (projectsToRun : list string) : list WorkItem :=
  fold_left
    (fun carry '(projectName, p) =>
       match get (p_actions p) actionToRun with
       | Some pa =>
           carry ++ [item_of projectName actionToRun
                       (if has_group (Some pa) groupToRun then groupToRun else "*")
                       pa]
       | None => carry
       end)
    (List.filter (fun '(projectName, _) => includes projectsToRun projectName)
       (List.filter
          (fun '(_, p) =>
             has_group (get (p_actions p) actionToRun) groupToRun
             || has_group (get (p_actions p) actionToRun) "*")
          (projects config)))
    [].

(** What one [actionNoGroup] of the rewiring loop does to the items:
    [action.needs.includes] throws on an item without [needs]. *)
Definition rewire (config : Config) (actionToRun : string)
    (actionNoGroup : string) (items : list WorkItem) : result (list WorkItem) :=
  mapM
    (fun a =>
       try ns := defined (w_needs a) in
       if includes ns actionNoGroup then
         inr (set_needs a
                (Some (without actionNoGroup ns ++
                         match get (projects config) actionNoGroup with
                         | Some p =>
                             match get (p_actions p) actionToRun with
                             | Some pa =>
                                 match needs pa with Some l => l | None => [] end
                             | None => []
                             end
                         | None => []
                         end)))
       else inr a)
    items.

(** The names of the reversed topological order whose action lacks the
    requested group. *)
Fixpoint lacking_group (config : Config) (actionToRun groupToRun : string)
    (order : list string) : result (list string) :=
  match order with
  | [] => inr []
  | name :: order' =>
      try p := defined (get (projects config) name) in
      try rest := lacking_group config actionToRun groupToRun order' in
      inr (if has_group (get (p_actions p) actionToRun) groupToRun
           then rest else name :: rest)
  end.

Section Selection.

(** [topologicalSortActionGraph] of the graph module: an order of the
    projects that declare the action in which every project comes
    after the projects it needs. *)
Variable topologicalSortActionGraph : Config -> string -> result (list string).

Definition getProjectsToRunActionIn (stack : nat) (config : Config)
    (actionToRun groupToRun : string) (projectsToRun : list string)
    : result (list WorkItem) :=
  try actionsToRun := resolveDependenciesForActions stack
      (direct_matches config actionToRun groupToRun projectsToRun)
      config groupToRun actionToRun in
  try order := topologicalSortActionGraph config actionToRun in
  try noGroup := lacking_group config actionToRun groupToRun (rev order) in
  fold_left
    (fun carry actionNoGroup =>
       try items := carry in rewire config actionToRun actionNoGroup items)
    noGroup (inr actionsToRun).

End Selection.

(** ** Outcome records *)

(** [ActionOutput]: the key, the output of the child process, and the
    optional fields; an absent field is [None] (or [false] for the flag
    [wasSkippedDuplicated]). *)
Record ActionOutput : Type := mkOutput {
  o_project : string;
  o_action : string;
  o_group : string;
  stdout : option string;
  stderr : option string;
  exitCode : option Z;
  signal : option string;
  dir : option string;
  cmd : option (list string);
  wasSkippedBy : option string;
  wasSkippedDuplicated : bool
}.

(** [{ wasSkippedDuplicated: true, ...runActionOpts.keys }]. *)
Definition duplicate_record (k : GroupKey) : ActionOutput :=
  mkOutput (project k) (action k) (group k)
    None None None None None None None true.

(** [{ ...actionToSkip, wasSkippedBy: failedProject }], as an
    [ActionOutput]. *)
Definition skipped_record (w : WorkItem) (failedProject : string) : ActionOutput :=
  mkOutput (w_project w) (w_action w) (w_group w)
    None None None None None None (Some failedProject) false.

(** ** The action invoker, [runAction] *)

(** What [utils.spawn(...).catch((err) => err)] settles to. *)
Record Spawned : Type := mkSpawned {
  s_stdout : option string;
  s_stderr : option string;
  s_exitCode : option Z;
  s_signal : option string
}.

Section Invoker.

(** [getProjectDirFromRemote] of the project module, and the child
    process: command line and working directory to what it settles to. *)
Variable getProjectDirFromRemote : string -> string -> string.
Variable spawn : list string -> string -> Spawned.

(** [runAction].  A group name that the action does not hold but
    inherits is not nullish: [??] keeps the inherited member and
    [group.slice] throws. *)
Definition runAction (config : Config) (k : GroupKey) : result ActionOutput :=
  try p := defined (get (projects config) (project k)) in
  try a := defined (get (p_actions p) (action k)) in
  try g := defined (match get (groups a) (group k) with
                    | Some c => Some c
                    | None => if inherited (group k) then None
                              else get (groups a) "*"
                    end) in
  let d := getProjectDirFromRemote (cwd config) (p_remote p) in
  let res := spawn g d in
  inr (mkOutput (project k) (action k) (group k)
         (Some (match s_stdout res with Some o => o | None => "" end))
         (Some (match s_stderr res with Some o => o | None => "" end))
         (s_exitCode res) (s_signal res) (Some d) (Some g) None false).

End Invoker.

(** ** The deduplication registry of the output printer *)

Definition key_eqb (a b : GroupKey) : bool :=
  String.eqb (project a) (project b)
  && String.eqb (action a) (action b)
  && String.eqb (group a) (group b).

(** Modelled from the spec: [ActionOutputPrinter.beganTask] of the
    module [actions_utils], which is not part of the sources at hand.
    It answers [false] when the key already began, and records the key
    otherwise.  The state is the list of the keys that began. *)
Definition beganTask (begun : list GroupKey) (k : GroupKey) : bool * list GroupKey :=
  if existsb (key_eqb k) begun then (false, begun) else (true, begun ++ [k]).

(** ** The state of a run *)

(** The objects of [projectsToRunActionIn] are shared with
    [blockedActions]: [items] holds the objects, a reference is a
    position in [items], and [blocked] is the array [blockedActions] of
    references, where [None] is a slot emptied by [delete].  [begun] is
    the registry of the printer and [invoked] lists the calls of
    [runActionFn] in the order they are made. *)
Record Pool : Type := mkPool {
  items : list WorkItem;
  blocked : list (option nat);
  begun : list GroupKey;
  invoked : list GroupKey
}.

(** The promise returned by a call of [runActionPromiseWrapper]:
    resolved at once with the duplicate record, waiting for
    [runActionFn], or past the [then] callback and waiting for the
    promises of the actions it freed. *)
#[local] Unset Elimination Schemes.
Inductive Promise : Type :=
| Resolved (out : list ActionOutput)
| Invoking (k : GroupKey)
| Awaiting (res : ActionOutput) (freed : list Promise) (removed : list ActionOutput).
#[local] Set Elimination Schemes.

(** The array a promise resolves to:
    [[res, ...blockedActionsResult, ...removedBlockedActions]]. *)
Fixpoint flatten (p : Promise) : list ActionOutput :=
  match p with
  | Resolved out => out
  | Invoking _ => []
  | Awaiting res freed removed => res :: concat (map flatten freed) ++ removed
  end.

(** The number of calls of [runActionFn] a promise still waits for. *)
Fixpoint pending (p : Promise) : nat :=
  match p with
  | Resolved _ => 0
  | Invoking _ => 1
  | Awaiting _ freed _ => list_sum (map pending freed)
  end.

(** ** Cascading skip *)

(** [delete blockedActions[blockedActions.indexOf(ref)]]; nothing
    happens when the reference is not in the array. *)
Fixpoint delete_ref (ref : nat) (blocked : list (option nat)) : list (option nat) :=
  match blocked with
  | [] => []
  | Some r :: rest =>
      if Nat.eqb r ref then None :: rest else Some r :: delete_ref ref rest
  | None :: rest => None :: delete_ref ref rest
  end.

(** [actionToSkip.needs?.includes(failedProject)]. *)
Definition needs_project (w : WorkItem) (name : string) : bool :=
  match w_needs w with
  | Some ns => includes ns name
  | None => false
  end.

(** [blockedActions.filter((a) => a.needs?.includes(failedProject))]:
    the references of the array, holes left out. *)
Fixpoint actions_needing (its : list WorkItem) (name : string)
    (blocked : list (option nat)) : list nat :=
  match blocked with
  | [] => []
  | Some r :: rest =>
      match its !! r with
      | Some w =>
          if needs_project w name then r :: actions_needing its name rest
          else actions_needing its name rest
      | None => actions_needing its name rest
      end
  | None :: rest => actions_needing its name rest
  end.

(** [findActionsToSkipAfterFailure]: the records pushed and the array
    as the call leaves it.  [depth] bounds the nesting of the calls. *)
Fixpoint findActionsToSkipAfterFailure (depth : nat) (its : list WorkItem)
    (failedProject : string) (blocked : list (option nat))
    : list ActionOutput * list (option nat) :=
  match depth with
  | O => ([], blocked)
  | S depth' =>
      fold_left
        (fun '(skipped, blk) ref =>
           match its !! ref with
           | Some actionToSkip =>
               let '(below, blk') :=
                 findActionsToSkipAfterFailure depth' its
                   (w_project actionToSkip) (delete_ref ref blk) in
               (skipped ++ skipped_record actionToSkip failedProject :: below, blk')
           | None => (skipped, blk)
           end)
        (actions_needing its failedProject blocked)
        ([], blocked)
  end.

(** ** The tiers: priorities and the initial state *)

(** [getUniquePriorities]: a [Set] lists its elements in the order of
    their first insertion. *)
Definition getUniquePriorities (actionsToRun : list WorkItem) : list Z :=
  fold_left
    (fun carry a =>
       if existsb (Z.eqb (priority_or_0 a)) carry then carry
       else carry ++ [priority_or_0 a])
    actionsToRun [].

(** [blockedProjects]: the references of the actions that need
    something, in the order of [projectsToRunActionIn]. *)
Fixpoint blocked_refs (from : nat) (its : list WorkItem) : list (option nat) :=
  match its with
  | [] => []
  | a :: its' =>
      if Nat.ltb 0 (needs_length a)
      then Some from :: blocked_refs (S from) its'
      else blocked_refs (S from) its'
  end.

(** The state [actions] starts the tiers in; the registry of the
    printer is empty. *)
Definition initial_pool (its : list WorkItem) : Pool :=
  mkPool its (blocked_refs 0 its) [] [].

(** ** The fan-out routine *)

(** [runActionPromiseWrapper] up to its [return]: the registration and,
    for a key that had not begun, the call of [runActionFn].  (The
    call [finishedTask] of the callback only concerns the display.) *)
Definition runActionPromiseWrapper (k : GroupKey) (s : Pool) : Promise * Pool :=
  let '(fresh, begun') := beganTask (begun s) k in
  if fresh
  then (Invoking k, mkPool (items s) (blocked s) begun' (invoked s ++ [k]))
  else (Resolved [duplicate_record k], mkPool (items s) (blocked s) begun' (invoked s)).

(** [keys.map((k) => runActionPromiseWrapper(k, ...))]: the wrapper is
    called for one key after the other. *)
Fixpoint launch (ks : list GroupKey) (s : Pool) : list Promise * Pool :=
  match ks with
  | [] => ([], s)
  | k :: ks' =>
      let '(p, s1) := runActionPromiseWrapper k s in
      let '(ps, s2) := launch ks' s1 in
      (p :: ps, s2)
  end.

(** The [reduce] that computes [actionsFreedtoRun]: every action still
    in the array loses the finished project from its [needs], and the
    ones left with no need are deleted from the array and collected. *)
Fixpoint free_actions (finished : string) (its : list WorkItem)
    (blocked : list (option nat))
    : list WorkItem * list (option nat) * list WorkItem :=
  match blocked with
  | [] => (its, [], [])
  | None :: rest =>
      let '(its', rest', freed) := free_actions finished its rest in
      (its', None :: rest', freed)
  | Some r :: rest =>
      match its !! r with
      | Some a =>
          let a' := set_needs a (option_map (without finished) (w_needs a)) in
          let '(its', rest', freed) :=
            free_actions finished (<[r := a']> its) rest in
          match w_needs a' with
          | Some [] => (its', None :: rest', a' :: freed)
          | _ => (its', Some r :: rest', freed)
          end
      | None =>
          let '(its', rest', freed) := free_actions finished its rest in
          (its', Some r :: rest', freed)
      end
  end.

(** The key a freed action is launched under:
    [{ ...runActionOpts.keys, project: action.project }]. *)
Definition freed_key (k : GroupKey) (a : WorkItem) : GroupKey :=
  mkKey (w_project a) (action k) (group k).

(** [res.exitCode === 0]. *)
Definition succeeded (res : ActionOutput) : bool :=
  match exitCode res with
  | Some c => Z.eqb c 0
  | None => false
  end.

(** The [then] callback of [runActionPromiseWrapper], up to its
    [await]: it runs as one step when [runActionFn] has settled with
    [res]. *)
Definition then_callback (k : GroupKey) (res : ActionOutput) (s : Pool)
    : Promise * Pool :=
  let '(removedBlockedActions, blk) :=
    if succeeded res then ([], blocked s)
    else findActionsToSkipAfterFailure (S (length (blocked s))) (items s)
           (o_project res) (blocked s) in
  let '(its', blk', actionsFreedtoRun) := free_actions (project k) (items s) blk in
  let '(ps, s') :=
    launch (map (freed_key k) actionsFreedtoRun)
      (mkPool its' blk' (begun s) (invoked s)) in
  (Awaiting res ps removedBlockedActions, s').

Section Scheduler.

Variable runActionFn : GroupKey -> ActionOutput.

(** One step of the event loop: the [n]-th pending call of
    [runActionFn], counted from the left, settles and its callback
    runs. *)
Section Among.
Variable settle : Promise -> nat -> Pool -> option (Promise * Pool).

Fixpoint settle_among (ps : list Promise) (n : nat) (s : Pool)
    : option (list Promise * Pool) :=
  match ps with
  | [] => None
  | p :: ps' =>
      if Nat.ltb n (pending p)
      then match settle p n s with
           | Some (p', s') => Some (p' :: ps', s')
           | None => None
           end
      else match settle_among ps' (n - pending p) s with
           | Some (ps'', s') => Some (p :: ps'', s')
           | None => None
           end
  end.
End Among.

Fixpoint settle (p : Promise) (n : nat) (s : Pool) : option (Promise * Pool) :=
  match p with
  | Resolved _ => None
  | Invoking k =>
      match n with
      | O => Some (then_callback k (runActionFn k) s)
      | S _ => None
      end
  | Awaiting res freed removed =>
      match settle_among settle freed n s with
      | Some (freed', s') => Some (Awaiting res freed' removed, s')
      | None => None
      end
  end.

(** [await Promise.all(promises)]: the calls of [runActionFn] settle
    one at a time until none is pending.  [sched] says, step by step,
    which of the pending calls settles next; every order in which the
    child processes can end is some [sched]. *)
Fixpoint drain (fuel : nat) (sched : list nat) (ps : list Promise) (s : Pool)
    : list nat * list Promise * Pool :=
  match fuel with
  | O => (sched, ps, s)
  | S fuel' =>
      match list_sum (map pending ps) with
      | O => (sched, ps, s)
      | S m =>
          match settle_among settle ps (Nat.modulo (hd 0 sched) (S m)) s with
          | Some (ps', s') => drain fuel' (tl sched) ps' s'
          | None => (sched, ps, s)
          end
      end
  end.

Definition await_all (sched : list nat) (ps : list Promise) (s : Pool)
    : list nat * list Promise * Pool :=
  drain (list_sum (map pending ps) + length (blocked s)) sched ps s.

(** ** The tiers of [actions] *)

(** The key of a work item:
    [{ project: action.project, action: action.action, group: action.group }]. *)
Definition item_key (a : WorkItem) : GroupKey :=
  mkKey (w_project a) (w_action a) (w_group a).

(** The [filter] of one pass of the loop. *)
Definition in_tier (prio : Z) (a : WorkItem) : bool :=
  Z.eqb (priority_or_0 a) prio && Nat.eqb (needs_length a) 0.

(** One pass of the [for] loop of [actions]: the wrapper is called for
    every action of the tier that needs nothing, and the records of
    the settled promises are pushed on [stdoutBuffer]. *)
Definition run_tier (st : list nat * list ActionOutput * Pool) (prio : Z)
    : list nat * list ActionOutput * Pool :=
  let '(sched, stdoutBuffer, s) := st in
  let '(ps, s1) := launch (map item_key (List.filter (in_tier prio) (items s))) s in
  let '(sched', ps', s2) := await_all sched ps s1 in
  (sched', stdoutBuffer ++ concat (map flatten ps'), s2).

(** The body of [actions] once the work items are selected, over the
    tiers [prios]: the records returned and the state the run ends
    in. *)
Definition run_tiers (prios : list Z) (sched : list nat) (its : list WorkItem)
    : list nat * list ActionOutput * Pool :=
  fold_left run_tier prios (sched, [], initial_pool its).

Definition run (sched : list nat) (its : list WorkItem)
    : list ActionOutput * Pool :=
  let '(_, stdoutBuffer, s) := run_tiers (getUniquePriorities its) sched its in
  (stdoutBuffer, s).

End Scheduler.

Section Actions.

Variable topologicalSortActionGraph : Config -> string -> result (list string).
Variable runActionFn : GroupKey -> ActionOutput.

(** [actions]: selection, then the tiers. *)
Definition actions (stack : nat) (sched : list nat) (config : Config)
    (actionToRun groupToRun : string) (projectsToRun : list string)
    : result (list ActionOutput) :=
  try projectsToRunActionIn :=
    getProjectsToRunActionIn topologicalSortActionGraph stack config
      actionToRun groupToRun projectsToRun in
  inr (fst (run runActionFn sched projectsToRunActionIn)).

End Actions.

(** ** The other scheduler of the sources *)

(** [runActions], in the second source file, walks the priorities from
    the smallest to the largest and lets its own [runAction] decide
    whether a project runs at [currentPrio]. *)
Module Legacy.

(** [action.priority ?? project.priority ?? 0]. *)
Definition effective_priority (p : Project) (a : ProjectAction) : Z :=
  match priority a with
  | Some n => n
  | None => match p_priority p with Some n => n | None => 0%Z end
  end.

(** The guards of [runAction]: [true] when the command is spawned. *)
Definition runs_at (config : Config) (k : GroupKey) (currentPrio : Z) : bool :=
  match get (projects config) (project k) with
  | None => false
  | Some p =>
      match get (p_actions p) (action k) with
      | None => false
      | Some a =>
          match get (groups a) (group k) with
          | None => false
          | Some _ => Z.eqb currentPrio (effective_priority p a)
          end
      end
  end.

(** What [runAction] of that file returns: the key, and the output and
    error text of the child process. *)
Record Output : Type := mkRecord {
  l_project : string;
  l_action : string;
  l_group : string;
  l_stdout : string;
  l_stderr : string
}.

Section Run.

(** [getProjectDirFromRemote] of the project module;
    [to(pcp.spawn(group[0], group.slice(1), ...))], where [None] is a
    child process that ended in an error and the pair holds the output
    and the error text of one that did not; and [getPriorityRange] of
    the priority module, as the pair of [min] and [max]. *)
Variable getProjectDirFromRemote : string -> string -> string.
Variable spawn : list string -> string -> option (option string * option string).
Variable getPriorityRange : list Project -> Z * Z.

(** [runAction], for an action name and a group name that are not
    [inherited] ([in] holds of an inherited key, and the call then
    throws): [None] is the [return] without a value of a guard. *)
Definition runAction (cwd : string) (config : Config) (k : GroupKey)
    (currentPrio : Z) : option Output :=
  match get (projects config) (project k) with
  | None => None
  | Some p =>
      match get (p_actions p) (action k) with
      | None => None
      | Some a =>
          match get (groups a) (group k) with
          | None => None
          | Some g =>
              if negb (Z.eqb currentPrio (effective_priority p a)) then None
              else
                let res := spawn g (getProjectDirFromRemote cwd (p_remote p)) in
                Some (mkRecord (project k) (action k) (group k)
                        (match res with Some (Some o, _) => o | _ => "" end)
                        (match res with Some (_, Some e) => e | _ => "" end))
          end
      end
  end.

(** The values [currentPrio] takes in the [for] loop, from [min] to
    [max]. *)
Definition passes (range : Z * Z) : list Z :=
  map (fun i => (fst range + Z.of_nat i)%Z)
    (seq 0 (Z.to_nat (snd range - fst range + 1))).

(** One pass of the loop: [runActionFn] is called for every project and
    the records that are not [undefined] are pushed, in the order of
    the projects. *)
Definition pass (runActionFn : string -> Config -> GroupKey -> Z -> option Output)
    (config : Config) (cwd actionToRun groupToRun : string) (currentPrio : Z)
    : list Output :=
  flat_map
    (fun name =>
       match runActionFn cwd config (mkKey name actionToRun groupToRun)
               currentPrio with
       | Some o => [o]
       | None => []
       end)
    (map fst (projects config)).

(** [runActions]. *)
Definition runActions
    (runActionFn : string -> Config -> GroupKey -> Z -> option Output)
    (config : Config) (cwd actionToRun groupToRun : string) : list Output :=
  flat_map (pass runActionFn config cwd actionToRun groupToRun)
    (passes (getPriorityRange (map snd (projects config)))).

End Run.

(** The priority [runAction] compares [currentPrio] with, for the
    project of a name; 0 stands for a project that cannot run. *)
Definition priority_of (config : Config) (actionToRun name : string) : Z :=
  match get (projects config) name with
  | Some p =>
      match get (p_actions p) actionToRun with
      | Some a => effective_priority p a
      | None => 0%Z
      end
  | None => 0%Z
  end.

End Legacy.

(** ** Scenarios *)

(** An invoker that always succeeds, and one that fails for one project. *)
Definition succeed (k : GroupKey) : ActionOutput :=
  mkOutput (project k) (action k) (group k)
    (Some "") (Some "") (Some 0%Z) None None None None false.

Definition fail_in (name : string) (k : GroupKey) : ActionOutput :=
  mkOutput (project k) (action k) (group k)
    (Some "") (Some "") (Some (if String.eqb (project k) name then 1%Z else 0%Z))
    None None None None false.

(** The chain of the rewiring example: A needs B, B needs C; A and C
    have the group g, B only the wildcard. *)
Module Chain.

Section Parts.
Variables cmdA cmdB cmdC : list string.
Variables prioA prioB prioC : option Z.

Definition A : Project :=
  mkProject "git@a" None [("build", mkAction [("g", cmdA)] prioA (Some ["B"]))].
Definition B : Project :=
  mkProject "git@b" None [("build", mkAction [("*", cmdB)] prioB (Some ["C"]))].
Definition C : Project :=
  mkProject "git@c" None [("build", mkAction [("g", cmdC)] prioC (Some []))].

Definition config : Config := mkConfig "/work" [("A", A); ("B", B); ("C", C)].
End Parts.

Definition plain : Config :=
  config ["echo"; "a"] ["echo"; "b"] ["echo"; "c"] None None None.

End Chain.

(** Two projects without dependency, the one of priority 5 declared
    first. *)
Module Tiers.

Definition x : Project :=
  mkProject "git@x" None [("build", mkAction [("*", ["echo"; "x"])] (Some 5%Z) (Some []))].
Definition y : Project :=
  mkProject "git@y" None [("build", mkAction [("*", ["echo"; "y"])] (Some 0%Z) (Some []))].

Definition config : Config := mkConfig "/work" [("x", x); ("y", y)].

Definition order (_ : Config) (_ : string) : result (list string) := inr ["x"; "y"].

End Tiers.

(** The scenario of the specification with priorities: api needs web
    and sits in a later tier. *)
Module WebApi.

Definition web : Project :=
  mkProject "git@web" None
    [("build", mkAction [("*", ["echo"; "web"])] (Some 0%Z) (Some []))].
Definition api : Project :=
  mkProject "git@api" None
    [("build", mkAction [("*", ["echo"; "api"])] (Some 1%Z) (Some ["web"]))].

Definition config : Config := mkConfig "/work" [("web", web); ("api", api)].

Definition order (_ : Config) (_ : string) : result (list string) :=
  inr ["web"; "api"].

Definition selected : list WorkItem :=
  [ mkItem "web" "build" "*" [("*", ["echo"; "web"])] (Some 0%Z) (Some []);
    mkItem "api" "build" "*" [("*", ["echo"; "api"])] (Some 1%Z) (Some ["web"]) ].

End WebApi.

(** A project whose action has no priority of its own, in a project
    with a default priority. *)
Module Defaults.

Definition lib : Project :=
  mkProject "git@lib" (Some 7%Z)
    [("build", mkAction [("*", ["make"])] None (Some []))].
Definition app : Project :=
  mkProject "git@app" None
    [("build", mkAction [("*", ["make"; "app"])] (Some 3%Z) (Some []))].

Definition config : Config := mkConfig "/work" [("lib", lib); ("app", app)].

Definition order (_ : Config) (_ : string) : result (list string) :=
  inr ["lib"; "app"].

End Defaults.

(** A project reached through two paths: X and Y both need Z, whose
    action declares no priority. *)
Module Diamond.

Definition X : Project :=
  mkProject "git@x" None [("build", mkAction [("*", ["x"])] (Some 1%Z) (Some ["Z"]))].
Definition Y : Project :=
  mkProject "git@y" None [("build", mkAction [("*", ["y"])] (Some 2%Z) (Some ["Z"]))].
Definition Z : Project :=
  mkProject "git@z" None [("build", mkAction [("*", ["z"])] None (Some []))].

Definition config : Config := mkConfig "/work" [("X", X); ("Y", Y); ("Z", Z)].

Definition order (_ : Config) (_ : string) : result (list string) :=
  inr ["Z"; "X"; "Y"].

End Diamond.

(** Three hops: ui needs api, api needs web. *)
Module Hops.

Definition selected : list WorkItem :=
  [ mkItem "web" "build" "*" [("*", ["echo"; "web"])] None (Some []);
    mkItem "api" "build" "*" [("*", ["echo"; "api"])] None (Some ["web"]);
    mkItem "ui" "build" "*" [("*", ["echo"; "ui"])] None (Some ["api"]) ].

End Hops.

(** B needs A and C, which need nothing, and every call fails. *)
Module TwoNeeds.

Definition selected : list WorkItem :=
  [ mkItem "A" "build" "*" [("*", ["echo"; "a"])] None (Some []);
    mkItem "C" "build" "*" [("*", ["echo"; "c"])] None (Some []);
    mkItem "B" "build" "*" [("*", ["echo"; "b"])] None (Some ["A"; "C"]) ].

Definition fail (k : GroupKey) : ActionOutput := fail_in (project k) k.

End TwoNeeds.

(** ** Notions used by the properties *)

(** Two items that differ at most in their [needs]. *)
Definition same_binding (a b : WorkItem) : Prop :=
  w_project b = w_project a /\ w_action b = w_action a /\
  w_group b = w_group a /\ w_groups b = w_groups a /\
  w_priority b = w_priority a.

(** What selection hands to [_.uniqBy]. *)
Definition discovered (stack : nat) (config : Config)
    (actionToRun groupToRun : string) (projectsToRun : list string)
    : result (list WorkItem) :=
  try c := closure_of stack config
             (direct_matches config actionToRun groupToRun projectsToRun) in
  rebound config groupToRun actionToRun c.

(** Induction on promises, through the promises of the freed actions. *)
Section PromiseInduction.
Variable P : Promise -> Prop.
Hypothesis resolved_case : forall out, P (Resolved out).
Hypothesis invoking_case : forall k, P (Invoking k).
Hypothesis awaiting_case :
  forall res freed removed, Forall P freed -> P (Awaiting res freed removed).

Fixpoint Promise_ind (p : Promise) : P p :=
  match p with
  | Resolved out => resolved_case out
  | Invoking k => invoking_case k
  | Awaiting res freed removed =>
      awaiting_case res freed removed
        ((fix all (ps : list Promise) : Forall P ps :=
            match ps with
            | [] => @List.Forall_nil _ P
            | q :: qs => @List.Forall_cons _ P q qs (Promise_ind q) (all qs)
            end) freed)
  end.
End PromiseInduction.

(** The keys of the calls of [runActionFn] a promise waits for, from
    the left, and the same for an array of promises. *)
Fixpoint inflight (p : Promise) : list GroupKey :=
  match p with
  | Resolved _ => []
  | Invoking k => [k]
  | Awaiting _ freed _ => concat (map inflight freed)
  end.

Definition inflight_all (ps : list Promise) : list GroupKey :=
  concat (map inflight ps).

(** The records an array of promises holds so far. *)
Definition outputs (ps : list Promise) : list ActionOutput :=
  concat (map flatten ps).

(** A reference is waiting when the array [blockedActions] still holds
    it. *)
Definition waiting (blk : list (option nat)) (r : nat) : Prop := In (Some r) blk.

(** The number of references left in [blockedActions]. *)
Fixpoint count_waiting (blk : list (option nat)) : nat :=
  match blk with
  | [] => 0
  | Some _ :: rest => S (count_waiting rest)
  | None :: rest => count_waiting rest
  end.

(** The references of [blockedActions], holes left out. *)
Fixpoint refs (blk : list (option nat)) : list nat :=
  match blk with
  | [] => []
  | Some r :: rest => r :: refs rest
  | None :: rest => refs rest
  end.

(** [blk'] is [blk] with more slots emptied. *)
Definition emptied (blk blk' : list (option nat)) : Prop :=
  Forall2 (fun a b => b = a \/ b = None) blk blk'.

(** What the [reduce] of the callback does to one action. *)
Definition strip (finished : string) (a : WorkItem) : WorkItem :=
  set_needs a (option_map (without finished) (w_needs a)).

(** One step of the event loop, seen from outside the promises: the
    call for [k] leaves the pending ones, its callback takes the state
    from [s] to [s'], the calls it makes join the pending ones in its
    place, and its records join the records. *)
Definition settles (f : GroupKey -> ActionOutput)
    (before after : list GroupKey) (out_before out_after : list ActionOutput)
    (s s' : Pool) : Prop :=
  exists k l1 l2 kids removed,
    before = l1 ++ k :: l2 /\
    then_callback k (f k) s = (Awaiting (f k) kids removed, s') /\
    after = l1 ++ inflight_all kids ++ l2 /\
    Permutation out_after (out_before ++ f k :: outputs kids ++ removed).

(** The ways the state of a run changes: a [map] of wrapper calls over
    actions that need nothing (a tier), and the callback of a call of
    [runActionFn] that settled. *)
Inductive pool_step (f : GroupKey -> ActionOutput) : Pool -> Pool -> Prop :=
| step_launch (s : Pool) (tier : list WorkItem) (ps : list Promise) (s' : Pool) :
    (forall a, In a tier -> In a (items s) /\ needs_length a = 0) ->
    launch (map item_key tier) s = (ps, s') ->
    pool_step f s s'
| step_settle (s : Pool) (k : GroupKey) (kids : list Promise)
    (removed : list ActionOutput) (s' : Pool) :
    then_callback k (f k) s = (Awaiting (f k) kids removed, s') ->
    pool_step f s s'.

Inductive reaches (f : GroupKey -> ActionOutput) : Pool -> Pool -> Prop :=
| reaches_refl (s : Pool) : reaches f s s
| reaches_step (s1 s2 s3 : Pool) :
    reaches f s1 s2 -> pool_step f s2 s3 -> reaches f s1 s3.

(** A call with key [k] is eligible when some work item of the project
    of [k] has no need left. *)
Definition eligible (s : Pool) (k : GroupKey) : Prop :=
  exists r w, items s !! r = Some w /\ w_project w = project k /\
              needs_length w = 0.

(** A work item is parked when it still needs something and is no
    longer in [blockedActions]: a skipped action. *)
Definition parked (s : Pool) (r : nat) (w : WorkItem) : Prop :=
  ~ waiting (blocked s) r /\ items s !! r = Some w /\ 0 < needs_length w.

(** The records that are not the outcome of an invocation. *)
Definition is_duplicate (r : ActionOutput) : Prop :=
  exists k, r = duplicate_record k.

Definition is_skip (r : ActionOutput) : Prop :=
  exists w q, r = skipped_record w q.

(** A launch of [k] by the wrapper: the call of [runActionFn], or the
    duplicate record. *)
Definition launched_as (k : GroupKey) (p : Promise) : Prop :=
  p = Invoking k \/ p = Resolved [duplicate_record k].

(** The claim C3, as the specification states it: while the tiers
    [done] have been passed and the tier of an action is still to
    come, no call of the invoker has been made for that action. *)
Definition tier_barrier (f : GroupKey -> ActionOutput) (sched : list nat)
    (its : list WorkItem) : Prop :=
  forall done todo a k,
    getUniquePriorities its = done ++ todo ->
    In a its -> In (priority_or_0 a) todo ->
    In k (invoked (snd (run_tiers f done sched its))) ->
    project k <> w_project a.


(** The claim C1, as the specification states it: the run returns as
    many records as there are work items. *)
Definition one_record_per_item (f : GroupKey -> ActionOutput) (sched : list nat)
    (its : list WorkItem) : Prop :=
  length (fst (run f sched its)) = length its.

(** One round of the [forEach] of [findActionsToSkipAfterFailure]. *)
Definition skip_step (depth : nat) (its : list WorkItem) (failedProject : string)
    : list ActionOutput * list (option nat) -> nat ->
      list ActionOutput * list (option nat) :=
  fun '(skipped, blk) ref =>
  match its !! ref with
  | Some actionToSkip =>
      let '(below, blk') :=
        findActionsToSkipAfterFailure depth its
          (w_project actionToSkip) (delete_ref ref blk) in
      (skipped ++ skipped_record actionToSkip failedProject :: below, blk')
  | None => (skipped, blk)
  end.

(** Every record of a cascade is the skip of an action that was in
    the array, attributed to a project the action itself needs: the
    failed project, or the project of another action the cascade
    skipped. *)
Definition attributed (its : list WorkItem) (blk : list (option nat))
    (root : string) (rec : ActionOutput) : Prop :=
  exists r w q,
    waiting blk r /\ its !! r = Some w /\ rec = skipped_record w q /\
    needs_project w q = true /\
    (q = root \/ exists r0 w0, waiting blk r0 /\ its !! r0 = Some w0 /\
                               q = w_project w0).

(** With enough depth the cascade is complete: no action left in the
    array needs the failed project or the project of a skipped action,
    and every action taken out of the array has its record. *)
Definition cascaded (its : list WorkItem) (blk blk' : list (option nat))
    (failedProject : string) (recs : list ActionOutput) : Prop :=
  emptied blk blk' /\
  (forall r w, waiting blk r -> ~ waiting blk' r -> its !! r = Some w ->
     (exists q, In (skipped_record w q) recs) /\
     forall r' w', waiting blk' r' -> its !! r' = Some w' ->
       needs_project w' (w_project w) = false) /\
  (forall rec, In rec recs ->
     exists r w q, waiting blk r /\ ~ waiting blk' r /\ its !! r = Some w /\
                   rec = skipped_record w q) /\
  (forall r w, waiting blk r -> its !! r = Some w ->
     needs_project w failedProject = true ->
     In (skipped_record w failedProject) recs /\ ~ waiting blk' r).

(** A project is alive when an outcome is still to come for it: its
    tier has not been passed, or its action is blocked, or its call is
    pending. *)
Definition alive (its : list WorkItem) (todo : list Z) (fl : list GroupKey) (s : Pool) (n : string) : Prop :=
  (exists i a, its !! i = Some a /\ w_project a = n /\
               needs_length a = 0 /\ In (priority_or_0 a) todo)
  \/ (exists r a, waiting (blocked s) r /\ items s !! r = Some a /\ w_project a = n)
  \/ (exists k, In k fl /\ project k = n).

Definition accounted (its : list WorkItem) (todo : list Z) (fl : list GroupKey)
    (recs : list ActionOutput) (s : Pool) (i : nat) (a : WorkItem) : Prop :=
  (needs_length a = 0 /\ In (priority_or_0 a) todo)
  \/ waiting (blocked s) i
  \/ (exists k, In k fl /\ project k = w_project a)
  \/ (exists rec, In rec recs /\ o_project rec = w_project a).

Definition run_inv (f : GroupKey -> ActionOutput) (its : list WorkItem)
    (todo : list Z) (fl : list GroupKey)
    (recs : list ActionOutput) (s : Pool) : Prop :=
  reaches f (initial_pool its) s /\
  List.NoDup todo /\
  (forall i a, its !! i = Some a -> needs_length a = 0 ->
     In (priority_or_0 a) todo ->
     forall k, In k (begun s) -> project k <> w_project a) /\
  (forall r a, waiting (blocked s) r -> items s !! r = Some a ->
     (exists ns, w_needs a = Some ns /\ ns <> [] /\
                 forall n, In n ns -> alive its todo fl s n) /\
     forall k, In k (begun s) -> project k <> w_project a) /\
  (forall i a, its !! i = Some a -> accounted its todo fl recs s i a).


(** [config.projects[name]?.actions[actionToRun]?.needs ?? []]. *)
Definition declared_needs (config : Config) (actionToRun name : string)
    : list string :=
  match get (projects config) name with
  | Some p =>
      match get (p_actions p) actionToRun with
      | Some pa => match needs pa with Some l => l | None => [] end
      | None => []
      end
  | None => []
  end.

(** A declared project whose action has not the requested group. *)
Definition lacks (config : Config) (actionToRun groupToRun name : string) : bool :=
  match get (projects config) name with
  | Some p => negb (has_group (get (p_actions p) actionToRun) groupToRun)
  | None => false
  end.

(** [x] comes before [y] in [l]. *)
Definition precedes (x y : string) (l : list string) : Prop :=
  exists l1 l2 l3, l = l1 ++ x :: l2 ++ y :: l3.

(** The promises of a tier whose actions free nothing: the call is
    pending, or it settled and its array is its record alone. *)
Definition idle_promise (f : GroupKey -> ActionOutput) (k : GroupKey)
    (p : Promise) : Prop :=
  p = Invoking k \/ p = Awaiting (f k) [] [].

(** The place of a name in the topological order. *)
Fixpoint position (n : string) (l : list string) : nat :=
  match l with
  | [] => 0
  | x :: l' => if String.eqb x n then 0 else S (position n l')
  end.

(** A skip record has a cause: the project it names is the failed
    project, or the project of an action that has a skip record among
    [recs]. *)
Definition caused (its : list WorkItem) (blk : list (option nat)) (root : string)
    (recs : list ActionOutput) (rec : ActionOutput) : Prop :=
  exists r w q,
    waiting blk r /\ its !! r = Some w /\ rec = skipped_record w q /\
    needs_project w q = true /\
    (q = root \/
     exists r0 w0 q0, waiting blk r0 /\ its !! r0 = Some w0 /\
       In (skipped_record w0 q0) recs /\ q = w_project w0).

(** * Properties *)

(** ** Arrays of strings *)

Lemma includes_In (xs : list string) (x : string) :
  includes xs x = true <-> In x xs.
Proof.
  unfold includes. rewrite existsb_exists. split.
  - intros [y [Hy Heq]]. apply String.eqb_eq in Heq. now subst.
  - intros H. exists x. split; [assumption | apply String.eqb_refl].
Qed.

Lemma includes_not_In (xs : list string) (x : string) :
  includes xs x = false <-> ~ In x xs.
Proof.
  rewrite <- includes_In. destruct (includes xs x); split; congruence.
Qed.

Lemma without_In (x y : string) (xs : list string) :
  In y (without x xs) <-> In y xs /\ y <> x.
Proof.
  unfold without. rewrite filter_In, negb_true_iff, String.eqb_neq. tauto.
Qed.

Lemma without_absent (x : string) (xs : list string) :
  ~ In x xs -> without x xs = xs.
Proof.
  induction xs as [|y xs IH]; simpl; intros H; [reflexivity|].
  destruct (String.eqb_spec y x) as [->|Hne]; simpl.
  - exfalso. apply H. now left.
  - f_equal. apply IH. intros Hin. apply H. now right.
Qed.

(** ** Error propagation *)

Lemma mapM_Forall2 {A B : Type} (R : A -> B -> Prop) (f : A -> result B) :
  (forall x y, f x = inr y -> R x y) ->
  forall xs ys, mapM f xs = inr ys -> Forall2 R xs ys.
Proof.
  intros Hf. induction xs as [|x xs IH]; simpl; intros ys H.
  - injection H as <-. constructor.
  - destruct (f x) as [e|y] eqn:Hx; simpl in H; [discriminate|].
    destruct (mapM f xs) as [e|ys'] eqn:Hxs; simpl in H; [discriminate|].
    injection H as <-. constructor; auto.
Qed.

Lemma fold_left_thrown {A B : Type} (step : result A -> B -> result A) :
  (forall e b, step (inl e) b = inl e) ->
  forall bs e, fold_left step bs (inl e) = inl e.
Proof.
  intros Hstep. induction bs as [|b bs IH]; simpl; intros e; [reflexivity|].
  rewrite Hstep. apply IH.
Qed.

(** ** [_.uniqBy] *)

Lemma uniqBy_project_fresh (xs : list WorkItem) :
  forall seen w, In w (uniqBy_project seen xs) ->
    In w xs /\ ~ In (w_project w) seen.
Proof.
  induction xs as [|x xs IH]; simpl; intros seen w H; [contradiction|].
  destruct (includes seen (w_project x)) eqn:Hx.
  - apply IH in H. tauto.
  - destruct H as [<-|H].
    + split; [now left|]. now apply includes_not_In.
    + apply IH in H. destruct H as [H1 H2]. split; [now right|].
      intros Hin. apply H2. now right.
Qed.

Lemma uniqBy_project_NoDup (xs : list WorkItem) :
  forall seen, List.NoDup (map w_project (uniqBy_project seen xs)).
Proof.
  induction xs as [|x xs IH]; simpl; intros seen; [constructor|].
  destruct (includes seen (w_project x)); [apply IH|].
  simpl. constructor; [|apply IH].
  rewrite in_map_iff. intros [w [Hw Hin]].
  apply uniqBy_project_fresh in Hin. destruct Hin as [_ Hfresh].
  apply Hfresh. left. congruence.
Qed.

Lemma uniqBy_project_first (xs : list WorkItem) :
  forall seen w, In w (uniqBy_project seen xs) ->
    find (fun x => String.eqb (w_project x) (w_project w)) xs = Some w.
Proof.
  induction xs as [|x xs IH]; simpl; intros seen w H; [contradiction|].
  destruct (includes seen (w_project x)) eqn:Hx.
  - pose proof (uniqBy_project_fresh _ _ _ H) as [_ Hfresh].
    apply includes_In in Hx.
    destruct (String.eqb_spec (w_project x) (w_project w)) as [Heq|_].
    + exfalso. apply Hfresh. now rewrite <- Heq.
    + eapply IH; eassumption.
  - destruct H as [<-|H].
    + now rewrite String.eqb_refl.
    + pose proof (uniqBy_project_fresh _ _ _ H) as [_ Hfresh].
      destruct (String.eqb_spec (w_project x) (w_project w)) as [Heq|_].
      * exfalso. apply Hfresh. left. exact Heq.
      * eapply IH; eassumption.
Qed.

(** ** Rewiring only touches [needs] *)

Lemma same_binding_refl (a : WorkItem) : same_binding a a.
Proof. repeat split. Qed.

Lemma same_binding_trans (a b c : WorkItem) :
  same_binding a b -> same_binding b c -> same_binding a c.
Proof. unfold same_binding. intuition congruence. Qed.

Lemma rewire_same_binding (config : Config) (act name : string)
    (xs ys : list WorkItem) :
  rewire config act name xs = inr ys -> Forall2 same_binding xs ys.
Proof.
  apply mapM_Forall2. intros x y H.
  destruct (w_needs x) as [ns|]; simpl in H; [|discriminate].
  destruct (includes ns name); injection H as <-;
    [repeat split | apply same_binding_refl].
Qed.

Lemma Forall2_same_binding_trans (xs ys zs : list WorkItem) :
  Forall2 same_binding xs ys -> Forall2 same_binding ys zs ->
  Forall2 same_binding xs zs.
Proof.
  intros H. revert zs. induction H as [|x y xs ys Hxy _ IH]; intros zs Hz.
  - inversion Hz. constructor.
  - inversion Hz as [|y' z ys' zs' Hyz Hrest]; subst.
    constructor; [eapply same_binding_trans; eassumption | now apply IH].
Qed.

Lemma Forall2_same_binding_refl (xs : list WorkItem) :
  Forall2 same_binding xs xs.
Proof. induction xs; constructor; [apply same_binding_refl | assumption]. Qed.

Lemma rewire_all_same_binding (config : Config) (act : string)
    (names : list string) :
  forall xs ys,
    fold_left (fun carry name => try its := carry in rewire config act name its)
      names (inr xs) = inr ys ->
    Forall2 same_binding xs ys.
Proof.
  induction names as [|name names IH]; simpl; intros xs ys H.
  - injection H as <-. apply Forall2_same_binding_refl.
  - destruct (rewire config act name xs) as [e|xs'] eqn:Hr.
    + rewrite fold_left_thrown in H by reflexivity. discriminate.
    + eapply Forall2_same_binding_trans;
        [eapply rewire_same_binding; eassumption | now apply IH].
Qed.

Lemma Forall2_same_binding_projects (xs ys : list WorkItem) :
  Forall2 same_binding xs ys -> map w_project ys = map w_project xs.
Proof.
  induction 1 as [|x y xs ys [Hp _] _ IH]; simpl; [reflexivity|].
  now rewrite Hp, IH.
Qed.

Lemma Forall2_In_r {A B : Type} (R : A -> B -> Prop) (xs : list A) (ys : list B) :
  Forall2 R xs ys -> forall y, In y ys -> exists x, In x xs /\ R x y.
Proof.
  induction 1 as [|x y' xs ys Hxy _ IH]; simpl; intros y Hin; [contradiction|].
  destruct Hin as [<-|Hin].
  - exists x. split; [now left | assumption].
  - destruct (IH _ Hin) as [x' [Hx' HR]]. exists x'. split; [now right | assumption].
Qed.

Lemma selection_inversion topo stack config act grp names ws :
  getProjectsToRunActionIn topo stack config act grp names = inr ws ->
  exists xs, discovered stack config act grp names = inr xs /\
             Forall2 same_binding (uniqBy_project [] xs) ws.
Proof.
  unfold getProjectsToRunActionIn, resolveDependenciesForActions, discovered.
  intros H.
  destruct (closure_of stack config (direct_matches config act grp names))
    as [e|c]; simpl in *; [discriminate|].
  destruct (rebound config grp act c) as [e|xs]; simpl in *; [discriminate|].
  exists xs. split; [reflexivity|].
  destruct (topo config act) as [e|order]; simpl in H; [discriminate|].
  destruct (lacking_group config act grp (rev order)) as [e|noGroup];
    simpl in H; [discriminate|].
  eapply rewire_all_same_binding. exact H.
Qed.

(** C9: selection returns at most one work item per project name, and
    the item of a project carries the priority and the group of the
    first item of that project among the discovered ones (the array the
    closure hands to [_.uniqBy]). *)
Theorem C9_one_item_per_project_first_wins
    topo stack config act grp names ws :
  getProjectsToRunActionIn topo stack config act grp names = inr ws ->
  List.NoDup (map w_project ws) /\
  exists xs, discovered stack config act grp names = inr xs /\
    forall w, In w ws ->
      exists first,
        find (fun x => String.eqb (w_project x) (w_project w)) xs = Some first /\
        w_priority w = w_priority first /\ w_group w = w_group first.
Proof.
  intros H. apply selection_inversion in H. destruct H as [xs [Hxs HF]].
  split.
  - rewrite (Forall2_same_binding_projects _ _ HF). apply uniqBy_project_NoDup.
  - exists xs. split; [assumption|]. intros w Hw.
    destruct (Forall2_In_r _ _ _ HF _ Hw) as [x [Hx [Hp [_ [Hg [_ Hprio]]]]]].
    exists x. rewrite Hp. split; [|split; assumption].
    eapply uniqBy_project_first. eassumption.
Qed.

(** Z is reached from X (priority 1) and from Y (priority 2): the item
    kept for Z is the one found under X. *)
Lemma C9_witness :
  getProjectsToRunActionIn Diamond.order 5 Diamond.config "build" "*" ["X"; "Y"]
  = inr [ mkItem "X" "build" "*" [("*", ["x"])] (Some 1%Z) (Some ["Z"]);
          mkItem "Z" "build" "*" [("*", ["z"])] (Some 1%Z) (Some []);
          mkItem "Y" "build" "*" [("*", ["y"])] (Some 2%Z) (Some ["Z"]) ]
  /\ List.NoDup (map w_project
       [ mkItem "X" "build" "*" [("*", ["x"])] (Some 1%Z) (Some ["Z"]);
         mkItem "Z" "build" "*" [("*", ["z"])] (Some 1%Z) (Some []);
         mkItem "Y" "build" "*" [("*", ["y"])] (Some 2%Z) (Some ["Z"]) ]).
Proof.
  split; [reflexivity|].
  exact (proj1 (C9_one_item_per_project_first_wins
                  Diamond.order 5 Diamond.config "build" "*" ["X"; "Y"] _ eq_refl)).
Defined.

(** ** Group fallback *)

Lemma permutation_of_three (l : list string) (a b c : string) :
  Permutation l [a; b; c] ->
  l = [a; b; c] \/ l = [a; c; b] \/ l = [b; a; c] \/
  l = [b; c; a] \/ l = [c; a; b] \/ l = [c; b; a].
Proof.
  intros H. pose proof (Permutation_length H) as Hlen.
  destruct l as [|x [|y [|z [|]]]]; try discriminate.
  assert (Hx : In x [a; b; c]) by (eapply Permutation_in; [exact H | now left]).
  destruct Hx as [<-|[<-|[<-|[]]]].
  - apply Permutation_cons_inv, Permutation_length_2 in H.
    destruct H as [[-> ->] | [-> ->]]; auto.
  - assert (H' : Permutation (b :: [y; z]) (b :: [a; c])).
    { rewrite H. apply perm_swap. }
    apply Permutation_cons_inv, Permutation_length_2 in H'.
    destruct H' as [[-> ->] | [-> ->]]; auto 6.
  - assert (H' : Permutation (c :: [y; z]) (c :: [a; b])).
    { rewrite H. change [a; b; c] with ([a; b] ++ [c]).
      symmetry. apply Permutation_cons_append. }
    apply Permutation_cons_inv, Permutation_length_2 in H'.
    destruct H' as [[-> ->] | [-> ->]]; auto 7.
Qed.

Lemma lacking_group_filter (config : Config) (act grp : string)
    (order : list string) :
  forall noGroup,
    lacking_group config act grp order = inr noGroup ->
    noGroup = List.filter (lacks config act grp) order.
Proof.
  induction order as [|name order IH]; simpl; intros noGroup H.
  - now injection H as <-.
  - unfold lacks at 1.
    destruct (get (projects config) name) as [p|]; simpl in H; [|discriminate].
    destruct (lacking_group config act grp order) as [e|rest]; simpl in H;
      [discriminate|].
    injection H as <-. rewrite (IH rest eq_refl).
    now destruct (has_group (get (p_actions p) act) grp).
Qed.

Lemma rewire_needs (config : Config) (act name : string) (xs ys : list WorkItem) :
  rewire config act name xs = inr ys ->
  forall y ns' n, In y ys -> w_needs y = Some ns' -> In n ns' ->
    (exists x ns, In x xs /\ w_needs x = Some ns /\ In n ns /\ n <> name)
    \/ In n (declared_needs config act name).
Proof.
  intros H y ns' n Hy Hns' Hn.
  assert (HF : Forall2
            (fun x y => forall ns' n, w_needs y = Some ns' -> In n ns' ->
               (exists ns, w_needs x = Some ns /\ In n ns /\ n <> name)
               \/ In n (declared_needs config act name)) xs ys).
  { revert H. apply mapM_Forall2. clear. intros x y H ns' n Hns' Hn.
    destruct (w_needs x) as [ns|] eqn:Hns; simpl in H; [|discriminate].
    destruct (includes ns name) eqn:Hinc; injection H as <-.
    - simpl in Hns'. injection Hns' as <-. apply in_app_or in Hn.
      destruct Hn as [Hn|Hn].
      + apply without_In in Hn. left. exists ns. tauto.
      + right. exact Hn.
    - left. exists ns'. split; [congruence|]. split; [assumption|].
      intros ->. apply includes_not_In in Hinc. congruence. }
  destruct (Forall2_In_r _ _ _ HF _ Hy) as (x & Hx & Hxy).
  destruct (Hxy ns' n Hns' Hn) as [(ns & H1 & H2 & H3)|Hd]; [left | now right].
  exists x, ns. auto.
Qed.

(** One pass suffices: when no project of the list has, among the
    needs its action declares, itself or a project that comes before it
    in the list, the items rewired for the whole list need none of its
    projects. *)
Lemma rewire_all_clears (config : Config) (act : string) (todo : list string) :
  forall passed xs ys,
    (forall l1 name l2, passed ++ todo = l1 ++ name :: l2 ->
       forall q, In q (declared_needs config act name) -> ~ In q (l1 ++ [name])) ->
    (forall x ns n, In x xs -> w_needs x = Some ns -> In n ns -> ~ In n passed) ->
    fold_left (fun carry name => try its := carry in rewire config act name its)
      todo (inr xs) = inr ys ->
    forall y ns n, In y ys -> w_needs y = Some ns -> In n ns ->
      ~ In n (passed ++ todo).
Proof.
  induction todo as [|name todo IH]; simpl; intros passed xs ys Hup Hinv H.
  - injection H as <-. rewrite app_nil_r. exact Hinv.
  - destruct (rewire config act name xs) as [e|xs'] eqn:Hr.
    + rewrite fold_left_thrown in H by reflexivity. discriminate.
    + replace (passed ++ name :: todo) with ((passed ++ [name]) ++ todo)
        by now rewrite <- app_assoc.
      apply (IH (passed ++ [name]) xs' ys); [| |exact H].
      * intros l1 name' l2 Heq. apply (Hup l1 name' l2).
        now rewrite <- app_assoc in Heq.
      * intros x' ns' n Hx' Hns' Hn Hin.
        destruct (rewire_needs _ _ _ _ _ Hr x' ns' n Hx' Hns' Hn)
          as [(x & ns & Hx & Hns & Hn' & Hne)|Hd].
        -- apply in_app_or in Hin. destruct Hin as [Hin|[<-|[]]].
           ++ eapply Hinv; eassumption.
           ++ now apply Hne.
        -- exact (Hup passed name todo eq_refl n Hd Hin).
Qed.

Lemma filter_split {A : Type} (keep : A -> bool) (l : list A) :
  forall l1 x l2,
    List.filter keep l = l1 ++ x :: l2 ->
    exists m1 m2, l = m1 ++ x :: m2 /\ l1 = List.filter keep m1.
Proof.
  induction l as [|a l IH]; simpl; intros l1 x l2 H.
  - destruct l1; discriminate.
  - destruct (keep a) eqn:Hk.
    + destruct l1 as [|b l1]; simpl in H.
      * injection H as -> _. exists [], l. auto.
      * injection H as -> H. destruct (IH _ _ _ H) as (m1 & m2 & -> & ->).
        exists (b :: m1), m2. simpl. now rewrite Hk.
    + destruct (IH _ _ _ H) as (m1 & m2 & -> & ->).
      exists (a :: m1), m2. simpl. now rewrite Hk.
Qed.

Lemma NoDup_split_unique (l1 l2 m1 m2 : list string) (x : string) :
  List.NoDup (l1 ++ x :: l2) -> l1 ++ x :: l2 = m1 ++ x :: m2 -> l1 = m1.
Proof.
  revert m1. induction l1 as [|a l1 IH]; intros m1 Hnd Heq.
  - destruct m1 as [|b m1]; [reflexivity|]. simpl in *.
    injection Heq as Hb Heq. apply List.NoDup_cons_iff in Hnd.
    destruct Hnd as [Hnotin _]. exfalso. apply Hnotin. rewrite Heq.
    apply in_or_app. right. now left.
  - destruct m1 as [|b m1]; simpl in *.
    + injection Heq as Ha Heq. apply List.NoDup_cons_iff in Hnd.
      destruct Hnd as [Hnotin _]. exfalso. apply Hnotin. rewrite Ha.
      apply in_or_app. right. now left.
    + injection Heq as Ha Heq. apply List.NoDup_cons_iff in Hnd.
      destruct Hnd as [_ Hnd]. f_equal; [assumption | now apply IH].
Qed.

(** Rewiring is complete after its single pass: with an order of the
    graph module that has no repetition and lists every project after
    the projects its action needs, no selected work item is left
    needing a project of the order that lacks the requested group. *)
Lemma rewiring_is_complete topo stack config act grp names order ws :
  topo config act = inr order ->
  List.NoDup order ->
  (forall name q, In name order -> In q (declared_needs config act name) ->
     precedes q name order) ->
  getProjectsToRunActionIn topo stack config act grp names = inr ws ->
  forall w ns n, In w ws -> w_needs w = Some ns -> In n ns -> In n order ->
    lacks config act grp n = false.
Proof.
  intros Htopo Hnd Hprec Hsel w ns n Hw Hns Hn Hin.
  unfold getProjectsToRunActionIn in Hsel.
  destruct (resolveDependenciesForActions stack _ config grp act) as [e|xs];
    simpl in Hsel; [discriminate|].
  rewrite Htopo in Hsel. simpl in Hsel.
  destruct (lacking_group config act grp (rev order)) as [e|noGroup] eqn:Hl;
    simpl in Hsel; [discriminate|].
  apply lacking_group_filter in Hl.
  destruct (lacks config act grp n) eqn:Hlacks; [exfalso|reflexivity].
  apply (rewire_all_clears config act noGroup [] xs ws) with (y := w) (ns := ns) (n := n);
    auto.
  - simpl. intros l1 name l2 Heq q Hq Hbad. rewrite Hl in Heq.
    destruct (filter_split _ _ _ _ _ Heq) as (m1 & m2 & Hrev & ->).
    assert (Hname : In name order).
    { apply in_rev. rewrite Hrev. apply in_or_app. right. now left. }
    destruct (Hprec name q Hname Hq) as (o1 & o2 & o3 & Horder).
    assert (Hrev' : rev order = (rev o3 ++ name :: rev o2) ++ q :: rev o1).
    { rewrite Horder. rewrite rev_app_distr. simpl. rewrite rev_app_distr. simpl.
      now rewrite <- !app_assoc. }
    assert (Hndr : List.NoDup (rev order)) by now apply NoDup_rev.
    assert (Hm1 : m1 = rev o3).
    { symmetry. eapply (NoDup_split_unique _ (rev o2 ++ q :: rev o1) _ m2 name).
      - rewrite Hrev' in Hndr. now rewrite <- app_assoc in Hndr.
      - rewrite <- Hrev. rewrite Hrev'. now rewrite <- app_assoc. }
    subst m1. rewrite Hrev' in Hndr.
    apply NoDup_remove_2 in Hndr. apply Hndr.
    apply in_or_app. left. apply in_app_or in Hbad.
    destruct Hbad as [Hbad|[<-|[]]].
    + apply filter_In in Hbad. apply in_or_app. left. tauto.
    + apply in_or_app. right. now left.
  - simpl. rewrite Hl. apply filter_In. split; [|assumption]. now apply -> in_rev.
Qed.

(** C5, as the code has it.  Rewiring completes in its single pass
    over the reversed order of the graph module: when that order has no
    repetition and lists every project after the projects its action
    needs, no selected work item is left needing a project of the order
    that lacks the requested group.  And with A needing B, B needing C,
    B declaring only the wildcard group and A and C the group g,
    selecting g makes A need C directly, in whatever order the graph
    module lists the three projects; B is not excluded: it stays in the
    run, bound to the wildcard group, and still needs C. *)
Theorem C5_rewiring_bypasses_wildcard_project :
  (forall topo stack config act grp names order ws,
     topo config act = inr order ->
     List.NoDup order ->
     (forall name q, In name order -> In q (declared_needs config act name) ->
        precedes q name order) ->
     getProjectsToRunActionIn topo stack config act grp names = inr ws ->
     forall w ns n, In w ws -> w_needs w = Some ns -> In n ns -> In n order ->
       lacks config act grp n = false)
  /\ (forall (cmdA cmdB cmdC : list string) (prioA prioB prioC : option Z)
             (order : list string) (stack : nat),
        Permutation order ["A"; "B"; "C"] ->
        let prioB' := match prioB with Some p => Some p | None => prioA end in
        let prioC' := match prioC with Some p => Some p | None => prioB' end in
        getProjectsToRunActionIn (fun _ _ => inr order) (3 + stack)
          (Chain.config cmdA cmdB cmdC prioA prioB prioC) "build" "g" ["A"]
        = inr [ mkItem "A" "build" "g" [("g", cmdA)] prioA (Some ["C"]);
                mkItem "B" "build" "*" [("*", cmdB)] prioB' (Some ["C"]);
                mkItem "C" "build" "g" [("g", cmdC)] prioC' (Some []) ]).
Proof.
  split; [exact rewiring_is_complete|].
  intros cmdA cmdB cmdC prioA prioB prioC order stack H.
  apply permutation_of_three in H.
  destruct H as [-> | [-> | [-> | [-> | [-> | ->]]]]]; reflexivity.
Qed.

Lemma C5_rewiring_witness :
  Permutation ["C"; "B"; "A"] ["A"; "B"; "C"] /\
  getProjectsToRunActionIn (fun _ _ => inr ["C"; "B"; "A"]) 3 Chain.plain
    "build" "g" ["A"]
  = inr [ mkItem "A" "build" "g" [("g", ["echo"; "a"])] None (Some ["C"]);
          mkItem "B" "build" "*" [("*", ["echo"; "b"])] None (Some ["C"]);
          mkItem "C" "build" "g" [("g", ["echo"; "c"])] None (Some []) ].
Proof.
  assert (HP : Permutation ["C"; "B"; "A"] ["A"; "B"; "C"]).
  { apply Permutation_rev. }
  split; [exact HP|].
  exact (proj2 C5_rewiring_bypasses_wildcard_project
           ["echo"; "a"] ["echo"; "b"] ["echo"; "c"] None None None
           ["C"; "B"; "A"] 0 HP).
Defined.

(** Two hops at once: A needs B1, B1 needs B2, B2 needs C, and neither
    B1 nor B2 has the group g; A ends up needing C. *)
Example rewiring_two_hops :
  getProjectsToRunActionIn (fun _ _ => inr ["C"; "B2"; "B1"; "A"]) 4
    (mkConfig "/work"
       [ ("A", mkProject "git@a" None
                 [("build", mkAction [("g", ["a"])] None (Some ["B1"]))]);
         ("B1", mkProject "git@b1" None
                  [("build", mkAction [("*", ["b1"])] None (Some ["B2"]))]);
         ("B2", mkProject "git@b2" None
                  [("build", mkAction [("h", ["b2"])] None (Some ["C"]))]);
         ("C", mkProject "git@c" None
                 [("build", mkAction [("g", ["c"])] None (Some []))]) ])
    "build" "g" ["A"]
  = inr [ mkItem "A" "build" "g" [("g", ["a"])] None (Some ["C"]);
          mkItem "B1" "build" "*" [("*", ["b1"])] None (Some ["C"]);
          mkItem "C" "build" "g" [("g", ["c"])] None (Some []) ].
Proof. reflexivity. Qed.

(** The claim has B excluded from the run; B is selected. *)
Lemma C5_counterexample :
  exists ws,
    getProjectsToRunActionIn (fun _ _ => inr ["C"; "B"; "A"]) 3 Chain.plain
      "build" "g" ["A"] = inr ws /\
    In "B" (map w_project ws).
Proof.
  eexists. split; [reflexivity|]. simpl. auto.
Qed.

(** ** Priorities *)

Lemma fold_priorities_keeps_head (its : list WorkItem) :
  forall p carry,
    hd_error
      (fold_left
         (fun carry a =>
            if existsb (Z.eqb (priority_or_0 a)) carry then carry
            else carry ++ [priority_or_0 a])
         its (p :: carry))
    = Some p.
Proof.
  induction its as [|a its IH]; intros p carry; [reflexivity|].
  cbn [fold_left].
  destruct (existsb (Z.eqb (priority_or_0 a)) (p :: carry)); apply IH.
Qed.

(** The first tier is the priority of the first work item, whatever the
    priorities of the others. *)
Lemma first_tier_is_first_item (a : WorkItem) (its : list WorkItem) :
  hd_error (getUniquePriorities (a :: its)) = Some (priority_or_0 a).
Proof. apply (fold_priorities_keeps_head its (priority_or_0 a) []). Qed.

(** C2 on the code: x (priority 5) is declared before y (priority 0);
    the tiers are visited in the order 5, 0, and x is invoked before y
    whatever the schedule.  The other scheduler of the sources counts
    the priorities upwards, and the comment above the loop of [actions]
    promises sorted priority groups. *)
Theorem C2_tiers_follow_discovery_order :
  getProjectsToRunActionIn Tiers.order 5 Tiers.config "build" "*" ["x"; "y"]
  = inr [ mkItem "x" "build" "*" [("*", ["echo"; "x"])] (Some 5%Z) (Some []);
          mkItem "y" "build" "*" [("*", ["echo"; "y"])] (Some 0%Z) (Some []) ]
  /\ getUniquePriorities
       [ mkItem "x" "build" "*" [("*", ["echo"; "x"])] (Some 5%Z) (Some []);
         mkItem "y" "build" "*" [("*", ["echo"; "y"])] (Some 0%Z) (Some []) ]
     = [5%Z; 0%Z]
  /\ forall sched,
       invoked (snd (run succeed sched
         [ mkItem "x" "build" "*" [("*", ["echo"; "x"])] (Some 5%Z) (Some []);
           mkItem "y" "build" "*" [("*", ["echo"; "y"])] (Some 0%Z) (Some []) ]))
       = [mkKey "x" "build" "*"; mkKey "y" "build" "*"].
Proof.
  split; [reflexivity|]. split; [reflexivity|]. intros sched. reflexivity.
Qed.

(** C6 on the code: the action of lib declares no priority and lib
    itself the default 7; the work item of lib has no priority, counts
    as priority 0, and lib is invoked in the first tier, before app
    (priority 3).  The other scheduler of the sources falls back on the
    default of the project and runs lib at 7. *)
Theorem C6_project_default_priority_ignored :
  getProjectsToRunActionIn Defaults.order 5 Defaults.config "build" "*" ["lib"; "app"]
  = inr [ mkItem "lib" "build" "*" [("*", ["make"])] None (Some []);
          mkItem "app" "build" "*" [("*", ["make"; "app"])] (Some 3%Z) (Some []) ]
  /\ priority_or_0 (mkItem "lib" "build" "*" [("*", ["make"])] None (Some [])) = 0%Z
  /\ getUniquePriorities
       [ mkItem "lib" "build" "*" [("*", ["make"])] None (Some []);
         mkItem "app" "build" "*" [("*", ["make"; "app"])] (Some 3%Z) (Some []) ]
     = [0%Z; 3%Z]
  /\ Legacy.runs_at Defaults.config (mkKey "lib" "build" "*") 7 = true
  /\ Legacy.runs_at Defaults.config (mkKey "lib" "build" "*") 0 = false.
Proof. repeat split. Qed.

(** ** Errors of selection *)

Lemma has_group_declared (a : option ProjectAction) (g : string) :
  has_group a g = true -> a <> None.
Proof. destruct a; [discriminate | intros H; discriminate H]. Qed.




Lemma closure_of_resolved (stack : nat) (config : Config) (xs : list WorkItem) :
  forall c l,
    fold_left
      (fun carry a =>
         try c := carry in
         try r := resolveProjectDependencies stack config a in
         inr (c ++ r))
      xs (inr c) = inr l ->
    forall a, In a xs -> exists r, resolveProjectDependencies stack config a = inr r.
Proof.
  induction xs as [|x xs IH]; simpl; intros c l H a Ha; [contradiction|].
  destruct (resolveProjectDependencies stack config x) as [e|r] eqn:Hr; simpl in H.
  - rewrite fold_left_thrown in H by reflexivity. discriminate.
  - destruct Ha as [<-|Ha]; [eauto|]. eapply IH; eassumption.
Qed.

Lemma direct_matches_In config act grp names name p pa :
  In (name, p) (projects config) -> In name names ->
  get (p_actions p) act = Some pa ->
  has_group (Some pa) grp || has_group (Some pa) "*" = true ->
  In (item_of name act (if has_group (Some pa) grp then grp else "*") pa)
     (direct_matches config act grp names).
Proof.
  intros Hin Hname Hpa Hg. unfold direct_matches.
  set (step := fun (carry : list WorkItem) '(projectName, p) => _).
  assert (Hsel : In (name, p)
            (List.filter (fun '(projectName, _) => includes names projectName)
               (List.filter
                  (fun '(_, p) =>
                     has_group (get (p_actions p) act) grp
                     || has_group (get (p_actions p) act) "*")
                  (projects config)))).
  { apply filter_In. split; [|now apply includes_In].
    apply filter_In. split; [assumption|]. now rewrite Hpa. }
  revert Hsel. generalize (@nil WorkItem) as acc.
  match goal with |- forall acc, In _ ?sel -> _ => generalize sel end.
  intros l. induction l as [|[n q] l IH]; intros acc Hsel; [contradiction|].
  simpl. destruct Hsel as [Heq|Hsel].
  - injection Heq as -> ->. rewrite Hpa.
    clear IH. set (w := item_of _ _ _ _).
    assert (Hacc : In w (acc ++ [w])) by (apply in_or_app; right; now left).
    revert Hacc. generalize (acc ++ [w]) as acc'. clear.
    induction l as [|[n q] l IH]; simpl; intros acc' H; [assumption|].
    apply IH. destruct (get (p_actions q) act); [|assumption].
    apply in_or_app. now left.
  - now apply IH.
Qed.




(** ** The registry and the wrapper *)

Lemma key_eqb_eq (a b : GroupKey) : key_eqb a b = true <-> a = b.
Proof.
  unfold key_eqb. rewrite !andb_true_iff, !String.eqb_eq.
  destruct a, b; simpl. split.
  - intros [[-> ->] ->]. reflexivity.
  - intros H. injection H as -> -> ->. auto.
Qed.

Lemma began_In (bs : list GroupKey) (k : GroupKey) :
  existsb (key_eqb k) bs = true <-> In k bs.
Proof.
  rewrite existsb_exists. split.
  - intros [x [Hx Heq]]. apply key_eqb_eq in Heq. now subst.
  - intros H. exists k. split; [assumption | now apply key_eqb_eq].
Qed.

Lemma wrapper_fresh (k : GroupKey) (s : Pool) :
  ~ In k (begun s) ->
  runActionPromiseWrapper k s
  = (Invoking k, mkPool (items s) (blocked s) (begun s ++ [k]) (invoked s ++ [k])).
Proof.
  intros H. unfold runActionPromiseWrapper, beganTask.
  destruct (existsb (key_eqb k) (begun s)) eqn:Hb; [|reflexivity].
  apply began_In in Hb. contradiction.
Qed.

Lemma wrapper_begun (k : GroupKey) (s : Pool) :
  In k (begun s) ->
  runActionPromiseWrapper k s = (Resolved [duplicate_record k], s).
Proof.
  intros H. unfold runActionPromiseWrapper, beganTask.
  apply began_In in H. rewrite H. now destruct s.
Qed.

Lemma wrapper_cases (k : GroupKey) (s : Pool) :
  (~ In k (begun s) /\
   runActionPromiseWrapper k s
   = (Invoking k, mkPool (items s) (blocked s) (begun s ++ [k]) (invoked s ++ [k])))
  \/ (In k (begun s) /\
      runActionPromiseWrapper k s = (Resolved [duplicate_record k], s)).
Proof.
  destruct (existsb (key_eqb k) (begun s)) eqn:Hb.
  - right. apply began_In in Hb. split; [assumption | now apply wrapper_begun].
  - left. assert (H : ~ In k (begun s)).
    { intros H. apply began_In in H. congruence. }
    split; [assumption | now apply wrapper_fresh].
Qed.

(** What a [map] of wrapper calls does: the keys that had not begun
    are registered and invoked, in order; the others get the duplicate
    record; the work items and [blockedActions] are left alone. *)
Lemma launch_spec (ks : list GroupKey) :
  forall s ps s',
    launch ks s = (ps, s') ->
    items s' = items s /\ blocked s' = blocked s /\
    exists new,
      begun s' = begun s ++ new /\ invoked s' = invoked s ++ new /\
      inflight_all ps = new /\
      (forall k, In k new -> In k ks /\ ~ In k (begun s)) /\
      (forall k, In k ks -> ~ In k (begun s) -> In k new) /\
      (forall r, In r (outputs ps) -> exists k, In k ks /\ r = duplicate_record k) /\
      (forall k, In k ks -> In k new \/ In (duplicate_record k) (outputs ps)) /\
      length (outputs ps) + length new = length ks /\
      (List.NoDup (begun s) -> List.NoDup (begun s')).
Proof.
  induction ks as [|k ks IH]; simpl; intros s ps s' H.
  - injection H as <- <-. split; [reflexivity|]. split; [reflexivity|].
    exists []. rewrite !app_nil_r. simpl.
    repeat split; auto; try contradiction.
  - destruct (runActionPromiseWrapper k s) as [p s1] eqn:Hw.
    destruct (launch ks s1) as [ps1 s2] eqn:Hl.
    injection H as <- <-.
    destruct (IH _ _ _ Hl) as (Hi & Hb & new & Hbeg & Hinv & Hfl & Hnew & Hfresh
                                & Hout & Hall & Hlen & Hnd).
    destruct (wrapper_cases k s) as [[Hk Hw']|[Hk Hw']];
      rewrite Hw' in Hw; injection Hw as <- <-; simpl in *.
    + split; [assumption|]. split; [assumption|].
      exists (k :: new).
      split; [now rewrite Hbeg, <- app_assoc|].
      split; [now rewrite Hinv, <- app_assoc|].
      unfold inflight_all in *. simpl. rewrite Hfl.
      split; [reflexivity|]. split; [|split; [|split; [|split; [|split]]]].
      * intros k' [<-|Hk']; [auto|].
        destruct (Hnew _ Hk') as [H1 H2]. split; [now right|].
        intros Hin. apply H2. apply in_or_app. now left.
      * intros k' [<-|Hk'] Hnb; [now left|].
        destruct (key_eqb k k') eqn:Heq.
        -- apply key_eqb_eq in Heq. now left.
        -- right. apply Hfresh; [assumption|].
           intros Hin. apply in_app_or in Hin. destruct Hin as [Hin|[<-|[]]].
           ++ contradiction.
           ++ assert (key_eqb k k = true) by now apply key_eqb_eq. congruence.
      * intros r Hr. destruct (Hout _ Hr) as [k' [Hk' ->]]. eauto.
      * intros k' [<-|Hk']; [left; now left|].
        destruct (Hall _ Hk') as [H1|H1]; [left; now right | now right].
      * unfold outputs in *. simpl. rewrite <- Hlen. lia.
      * intros Hnd0. apply Hnd.
        apply List.NoDup_app; [assumption | repeat constructor; intros [] | ].
        intros x Hx [<-|[]]. contradiction.
    + split; [assumption|]. split; [assumption|].
      exists new. split; [assumption|]. split; [assumption|].
      unfold inflight_all in *. simpl.
      split; [assumption|]. split; [|split; [|split; [|split; [|split]]]].
      * intros k' Hk'. destruct (Hnew _ Hk') as [H1 H2]. split; [now right | assumption].
      * intros k' [<-|Hk'] Hnb; [contradiction | now apply Hfresh].
      * unfold outputs in *. simpl. intros r [<-|Hr]; [exists k; auto|].
        destruct (Hout _ Hr) as [k' [Hk' ->]]. eauto.
      * unfold outputs in *. simpl. intros k' [<-|Hk']; [right; now left|].
        destruct (Hall _ Hk') as [H1|H1]; [now left | right; now right].
      * unfold outputs in *. simpl. rewrite <- Hlen. lia.
      * assumption.
Qed.

(** ** The array [blockedActions] *)

Lemma waiting_dec (blk : list (option nat)) (r : nat) :
  {waiting blk r} + {~ waiting blk r}.
Proof. apply in_dec. repeat decide equality. Qed.

Lemma waiting_refs (blk : list (option nat)) (r : nat) :
  waiting blk r <-> In r (refs blk).
Proof.
  unfold waiting. induction blk as [|[r0|] blk IH]; simpl.
  - tauto.
  - rewrite <- IH. split; intros [H|H]; auto; left; congruence.
  - rewrite <- IH. split; [intros [H|H]; [discriminate | assumption] | auto].
Qed.

Lemma count_waiting_refs (blk : list (option nat)) :
  count_waiting blk = length (refs blk).
Proof. induction blk as [|[r|] blk IH]; simpl; auto. Qed.

Lemma count_waiting_le (blk : list (option nat)) :
  count_waiting blk <= length blk.
Proof. induction blk as [|[r|] blk IH]; simpl; lia. Qed.

Lemma emptied_refl (blk : list (option nat)) : emptied blk blk.
Proof. induction blk; constructor; auto. Qed.

Lemma emptied_trans (a b c : list (option nat)) :
  emptied a b -> emptied b c -> emptied a c.
Proof.
  intros H. revert c. induction H as [|x y xs ys Hxy _ IH]; intros c Hc.
  - inversion Hc. constructor.
  - inversion Hc as [|y' z ys' zs Hyz Hrest]; subst.
    constructor; [|now apply IH].
    destruct Hxy as [->| ->], Hyz as [->| ->]; auto.
Qed.

Lemma emptied_waiting (blk blk' : list (option nat)) (r : nat) :
  emptied blk blk' -> waiting blk' r -> waiting blk r.
Proof.
  unfold waiting. induction 1 as [|x y xs ys Hxy _ IH]; simpl; [tauto|].
  intros [->|H]; [|right; now apply IH].
  destruct Hxy as [->|Hy]; [now left | discriminate].
Qed.

Lemma emptied_length (blk blk' : list (option nat)) :
  emptied blk blk' -> length blk' = length blk.
Proof. intros H. symmetry. eapply Forall2_length. exact H. Qed.

Lemma emptied_count (blk blk' : list (option nat)) :
  emptied blk blk' -> count_waiting blk' <= count_waiting blk.
Proof.
  induction 1 as [|x y xs ys Hxy _ IH]; simpl; [lia|].
  destruct Hxy as [->| ->]; destruct x; simpl; lia.
Qed.

Lemma emptied_count_lt (blk blk' : list (option nat)) (r : nat) :
  emptied blk blk' -> waiting blk r -> ~ waiting blk' r ->
  count_waiting blk' < count_waiting blk.
Proof.
  unfold waiting. induction 1 as [|x y xs ys Hxy Hrest IH]; simpl; [tauto|].
  intros [->|Hin] Hout.
  - destruct Hxy as [->| ->]; [exfalso; apply Hout; now left|].
    apply emptied_count in Hrest. lia.
  - assert (count_waiting ys < count_waiting xs) by (apply IH; auto).
    destruct Hxy as [->| ->]; destruct x; simpl; lia.
Qed.

Lemma emptied_NoDup (blk blk' : list (option nat)) :
  emptied blk blk' -> List.NoDup (refs blk) -> List.NoDup (refs blk').
Proof.
  induction 1 as [|x y xs ys Hxy Hrest IH]; simpl; [auto|].
  intros Hnd. destruct Hxy as [->| ->].
  - destruct x as [r|]; [|auto].
    inversion Hnd as [|? ? Hnotin Hnd']; subst. constructor; [|auto].
    intros Hin. apply Hnotin. apply waiting_refs.
    eapply emptied_waiting; [eassumption|]. now apply waiting_refs.
  - apply IH. destruct x; [now inversion Hnd | assumption].
Qed.

Lemma delete_ref_emptied (r : nat) (blk : list (option nat)) :
  emptied blk (delete_ref r blk).
Proof.
  induction blk as [|[r0|] blk IH]; simpl.
  - constructor.
  - destruct (Nat.eqb r0 r); constructor; auto. apply emptied_refl.
  - constructor; auto.
Qed.

Lemma delete_ref_gone (r : nat) (blk : list (option nat)) :
  List.NoDup (refs blk) -> ~ waiting (delete_ref r blk) r.
Proof.
  unfold waiting. induction blk as [|[r0|] blk IH]; simpl; intros Hnd.
  - tauto.
  - inversion Hnd as [|? ? Hnotin Hnd']; subst.
    destruct (Nat.eqb_spec r0 r) as [->|Hne]; simpl.
    + intros [H|H]; [discriminate|]. apply Hnotin. now apply waiting_refs.
    + intros [H|H]; [congruence | now apply IH].
  - intros [H|H]; [discriminate | now apply IH].
Qed.

Lemma delete_ref_other (r r' : nat) (blk : list (option nat)) :
  r' <> r -> waiting blk r' -> waiting (delete_ref r blk) r'.
Proof.
  unfold waiting. intros Hne. induction blk as [|[r0|] blk IH]; simpl; [tauto| |].
  - intros [H|H].
    + injection H as ->. destruct (Nat.eqb_spec r' r); [contradiction | now left].
    + destruct (Nat.eqb r0 r); right; auto.
  - intros [H|H]; [discriminate | right; auto].
Qed.

(** ** The [reduce] of the callback *)

Lemma strip_idem (fin : string) (a : WorkItem) :
  strip fin (strip fin a) = strip fin a.
Proof.
  unfold strip, set_needs. simpl. f_equal.
  destruct (w_needs a) as [ns|]; simpl; [|reflexivity]. f_equal.
  apply without_absent. intros H. apply without_In in H. tauto.
Qed.

Lemma strip_project (fin : string) (a : WorkItem) :
  w_project (strip fin a) = w_project a.
Proof. reflexivity. Qed.

Lemma lookup_strip_insert (fin : string) (its : list WorkItem) (r0 r : nat)
    (w : WorkItem) :
  its !! r0 = Some w ->
  strip fin <$> (<[r0 := strip fin w]> its) !! r = strip fin <$> its !! r.
Proof.
  intros H. destruct (Nat.eq_dec r r0) as [->|Hne].
  - rewrite list_lookup_insert_eq by (eapply lookup_lt_Some; eassumption).
    rewrite H. simpl. now rewrite strip_idem.
  - now rewrite list_lookup_insert_ne by auto.
Qed.

Lemma free_actions_spec (fin : string) (blk : list (option nat)) :
  forall its its' blk' freed,
    free_actions fin its blk = (its', blk', freed) ->
    length its' = length its /\
    (forall r, waiting blk r -> its' !! r = strip fin <$> its !! r) /\
    (forall r, ~ waiting blk r -> its' !! r = its !! r) /\
    emptied blk blk' /\
    (forall r, waiting blk' r <->
       waiting blk r /\
       forall a, strip fin <$> its !! r = Some a -> w_needs a <> Some []) /\
    (forall a, In a freed <->
       exists r, waiting blk r /\ strip fin <$> its !! r = Some a /\
                 w_needs a = Some []) /\
    count_waiting blk' + length freed = count_waiting blk.
Proof.
  unfold waiting.
  induction blk as [|[r0|] blk IH]; simpl; intros its its' blk' freed H.
  - injection H as <- <- <-. repeat split; try tauto; try constructor.
    + intros [].
    + intros [r [[] _]].
  - destruct (its !! r0) as [w|] eqn:Hw.
    + cbv zeta in H.
      change (set_needs w (option_map (without fin) (w_needs w)))
        with (strip fin w) in H.
      destruct (free_actions fin (<[r0 := strip fin w]> its) blk)
        as [[its1 blk1] freed1] eqn:Hrec.
      destruct (IH _ _ _ _ Hrec) as (Hlen & Hin & Hout & Hemp & Hblk & Hfreed & Hcnt).
      rewrite length_insert in Hlen.
      assert (Hr0 : r0 < length its) by (eapply lookup_lt_Some; eassumption).
      assert (Hits : forall r, (Some r0 = Some r \/ In (Some r) blk) ->
                               its1 !! r = strip fin <$> its !! r).
      { intros r Hr. destruct (waiting_dec blk r) as [Hwt|Hwt].
        - rewrite Hin by assumption. now apply lookup_strip_insert.
        - rewrite Hout by assumption. destruct Hr as [Hr|Hr]; [|contradiction].
          injection Hr as <-. rewrite list_lookup_insert_eq by assumption.
          now rewrite Hw. }
      assert (Hits' : forall r, ~ (Some r0 = Some r \/ In (Some r) blk) ->
                                its1 !! r = its !! r).
      { intros r Hr. rewrite Hout by tauto.
        apply list_lookup_insert_ne. intros ->. tauto. }
      assert (Hblk1 : forall r, In (Some r) blk1 <->
                 In (Some r) blk /\
                 forall a, strip fin <$> its !! r = Some a -> w_needs a <> Some []).
      { intros r. rewrite Hblk. now rewrite lookup_strip_insert. }
      assert (Hfreed1 : forall a, In a freed1 <->
                 exists r, In (Some r) blk /\ strip fin <$> its !! r = Some a /\
                           w_needs a = Some []).
      { intros a. rewrite Hfreed. split; intros [r Hr]; exists r;
          [rewrite lookup_strip_insert in Hr | rewrite lookup_strip_insert];
          assumption. }
      change (option_map (without fin) (w_needs w))
        with (w_needs (strip fin w)) in H.
      destruct (w_needs (strip fin w)) as [[|n ns]|] eqn:Hneeds;
        injection H as <- <- <-.
      * split; [assumption|]. split; [assumption|]. split; [assumption|].
        split; [constructor; auto|]. split; [|split].
        -- intros r. simpl. rewrite Hblk1. split.
           ++ intros [H|[H1 H2]]; [discriminate|]. split; auto.
           ++ intros [[H|H1] H2]; [|auto]. injection H as <-. exfalso.
              apply (H2 (strip fin w)); [now rewrite Hw | assumption].
        -- intros a. simpl. rewrite Hfreed1. split.
           ++ intros [<-|[r [H1 H2]]].
              ** exists r0. split; [now left|]. now rewrite Hw.
              ** exists r. split; [now right | assumption].
           ++ intros [r [[H|H1] [H2 H3]]].
              ** injection H as <-. rewrite Hw in H2. left. now injection H2.
              ** right. exists r. auto.
        -- simpl. lia.
      * split; [assumption|]. split; [assumption|]. split; [assumption|].
        split; [constructor; auto|]. split; [|split].
        -- intros r. simpl. rewrite Hblk1. split.
           ++ intros [H|[H1 H2]].
              ** injection H as <-. split; [now left|]. intros a.
                 rewrite Hw. intros Ha. injection Ha as <-. congruence.
              ** split; auto.
           ++ intros [[H|H1] H2]; [now left | right; auto].
        -- intros a. rewrite Hfreed1. split.
           ++ intros [r [H1 H2]]. exists r. split; [now right | assumption].
           ++ intros [r [[H|H1] [H2 H3]]]; [|exists r; auto].
              injection H as <-. rewrite Hw in H2. injection H2 as <-. congruence.
        -- simpl. lia.
      * split; [assumption|]. split; [assumption|]. split; [assumption|].
        split; [constructor; auto|]. split; [|split].
        -- intros r. simpl. rewrite Hblk1. split.
           ++ intros [H|[H1 H2]].
              ** injection H as <-. split; [now left|]. intros a.
                 rewrite Hw. intros Ha. injection Ha as <-. congruence.
              ** split; auto.
           ++ intros [[H|H1] H2]; [now left | right; auto].
        -- intros a. rewrite Hfreed1. split.
           ++ intros [r [H1 H2]]. exists r. split; [now right | assumption].
           ++ intros [r [[H|H1] [H2 H3]]]; [|exists r; auto].
              injection H as <-. rewrite Hw in H2. injection H2 as <-. congruence.
        -- simpl. lia.
    + destruct (free_actions fin its blk) as [[its1 blk1] freed1] eqn:Hrec.
      destruct (IH _ _ _ _ Hrec) as (Hlen & Hin & Hout & Hemp & Hblk & Hfreed & Hcnt).
      injection H as <- <- <-.
      split; [assumption|]. split; [|split; [|split; [|split; [|split]]]].
      * intros r [H|H]; [|auto]. injection H as <-. rewrite Hw. simpl.
        destruct (waiting_dec blk r0) as [Hwt|Hwt].
        -- rewrite Hin by assumption. now rewrite Hw.
        -- rewrite Hout by assumption. assumption.
      * intros r Hr. apply Hout. tauto.
      * constructor; auto.
      * intros r. simpl. rewrite Hblk. split.
        -- intros [H|[H1 H2]]; [|split; auto].
           injection H as <-. split; [now left|]. intros a. now rewrite Hw.
        -- intros [[H|H1] H2]; [now left | right; auto].
      * intros a. rewrite Hfreed. split.
        -- intros [r [H1 H2]]. exists r. split; [now right | assumption].
        -- intros [r [[H|H1] [H2 H3]]]; [|exists r; auto].
           injection H as <-. rewrite Hw in H2. discriminate.
      * simpl. lia.
  - destruct (free_actions fin its blk) as [[its1 blk1] freed1] eqn:Hrec.
    destruct (IH _ _ _ _ Hrec) as (Hlen & Hin & Hout & Hemp & Hblk & Hfreed & Hcnt).
    injection H as <- <- <-.
    split; [assumption|]. split; [|split; [|split; [|split; [|split]]]].
    + intros r [H|H]; [discriminate | auto].
    + intros r Hr. apply Hout. tauto.
    + constructor; auto.
    + intros r. simpl. rewrite Hblk. split.
      * intros [H|H]; [discriminate | destruct H; auto].
      * intros [[H|H1] H2]; [discriminate | right; auto].
    + intros a. rewrite Hfreed. split.
      * intros [r [H1 H2]]. exists r. auto.
      * intros [r [[H|H1] H2]]; [discriminate | exists r; auto].
    + simpl. lia.
Qed.

(** ** Cascading skip *)

Lemma actions_needing_In (its : list WorkItem) (name : string)
    (blk : list (option nat)) (r : nat) :
  In r (actions_needing its name blk) <->
  waiting blk r /\ exists w, its !! r = Some w /\ needs_project w name = true.
Proof.
  unfold waiting. induction blk as [|[r0|] blk IH]; simpl.
  - split; [tauto | intros [[] _]].
  - destruct (its !! r0) as [w|] eqn:Hw;
      [destruct (needs_project w name) eqn:Hn|]; simpl; rewrite ?IH; split.
    + intros [<-|[H1 H2]]; [split; [now left | eauto] | split; [now right | auto]].
    + intros [[H|H] H2]; [injection H as <-; now left | right; auto].
    + intros [H1 H2]. split; [now right | auto].
    + intros [[H|H] [w' [H1 H2]]]; [|split; eauto].
      injection H as <-. congruence.
    + intros [H1 H2]. split; [now right | auto].
    + intros [[H|H] [w' [H1 H2]]]; [|split; eauto].
      injection H as <-. congruence.
  - rewrite IH. split.
    + intros [H1 H2]. split; [now right | auto].
    + intros [[H|H] H2]; [discriminate | auto].
Qed.

Lemma findActionsToSkipAfterFailure_S depth its failedProject blk :
  findActionsToSkipAfterFailure (S depth) its failedProject blk
  = fold_left (skip_step depth its failedProject)
      (actions_needing its failedProject blk) ([], blk).
Proof. reflexivity. Qed.

Lemma attributed_emptied its blk blk' root root' rec :
  emptied blk blk' ->
  (root' = root \/ exists r0 w0, waiting blk r0 /\ its !! r0 = Some w0 /\
                                 root' = w_project w0) ->
  attributed its blk' root' rec -> attributed its blk root rec.
Proof.
  intros He Hroot (r & w & q & Hr & Hw & Hrec & Hq & Hby).
  exists r, w, q. split; [eapply emptied_waiting; eassumption|].
  repeat (split; [assumption|]).
  destruct Hby as [->|(r0 & w0 & H0 & H1 & H2)]; [assumption|].
  right. exists r0, w0. split; [eapply emptied_waiting; eassumption | auto].
Qed.

Lemma cascade_records (its : list WorkItem) (depth : nat) :
  forall failedProject blk recs blk',
    findActionsToSkipAfterFailure depth its failedProject blk = (recs, blk') ->
    emptied blk blk' /\ Forall (attributed its blk failedProject) recs.
Proof.
  induction depth as [|depth IH]; intros f blk recs blk' H.
  - injection H as <- <-. split; [apply emptied_refl | constructor].
  - rewrite findActionsToSkipAfterFailure_S in H.
    assert (Hgen : forall todo acc b,
      (forall ref, In ref todo -> waiting blk ref /\
         exists w, its !! ref = Some w /\ needs_project w f = true) ->
      emptied blk b -> Forall (attributed its blk f) acc ->
      fold_left (skip_step depth its f) todo (acc, b) = (recs, blk') ->
      emptied blk blk' /\ Forall (attributed its blk f) recs).
    { induction todo as [|ref todo IHt]; simpl; intros acc b Htodo Hb Hacc Hf.
      - injection Hf as <- <-. auto.
      - destruct (Htodo ref (or_introl eq_refl)) as [Hwait [w [Hw Hn]]].
        rewrite Hw in Hf.
        destruct (findActionsToSkipAfterFailure depth its (w_project w)
                    (delete_ref ref b)) as [below b2] eqn:Hrec.
        destruct (IH _ _ _ _ Hrec) as [He Hbelow].
        assert (Hb1 : emptied blk (delete_ref ref b)).
        { eapply emptied_trans; [exact Hb | apply delete_ref_emptied]. }
        eapply IHt; [| |  | exact Hf].
        + intros ref' Hin. apply Htodo. now right.
        + eapply emptied_trans; [exact Hb1 | exact He].
        + apply Forall_app. split; [assumption|]. constructor.
          * exists ref, w, f. auto 6.
          * eapply List.Forall_impl; [|exact Hbelow]. intros rec.
            apply attributed_emptied; [assumption|].
            right. exists ref, w. auto. }
    eapply Hgen; [| apply emptied_refl | constructor | exact H].
    intros ref Hin. now apply actions_needing_In.
Qed.

Lemma cascade_complete (its : list WorkItem) (depth : nat) :
  forall failedProject blk recs blk',
    List.NoDup (refs blk) -> count_waiting blk < depth ->
    findActionsToSkipAfterFailure depth its failedProject blk = (recs, blk') ->
    cascaded its blk blk' failedProject recs.
Proof.
  induction depth as [|depth IH]; intros f blk recs blk' Hnd Hcount H; [lia|].
  rewrite findActionsToSkipAfterFailure_S in H.
  assert (Hgen : forall todo acc b,
    emptied blk b ->
    (forall r w, waiting blk r -> ~ waiting b r -> its !! r = Some w ->
       (exists q, In (skipped_record w q) acc) /\
       forall r' w', waiting b r' -> its !! r' = Some w' ->
         needs_project w' (w_project w) = false) ->
    (forall rec, In rec acc ->
       exists r w q, waiting blk r /\ ~ waiting b r /\ its !! r = Some w /\
                     rec = skipped_record w q) ->
    (forall ref, In ref todo -> waiting blk ref /\
       exists w, its !! ref = Some w /\ needs_project w f = true) ->
    (forall r w, waiting blk r -> its !! r = Some w ->
       needs_project w f = true ->
       In r todo \/ (In (skipped_record w f) acc /\ ~ waiting b r)) ->
    fold_left (skip_step depth its f) todo (acc, b) = (recs, blk') ->
    cascaded its blk blk' f recs).
  { induction todo as [|ref todo IHt]; simpl;
      intros acc b Hb HB HC Htodo HD Hf.
    - injection Hf as <- <-. split; [assumption|]. split; [assumption|].
      split; [assumption|]. intros r w Hr Hw Hn.
      destruct (HD r w Hr Hw Hn) as [[]|H']. exact H'.
    - destruct (Htodo ref (or_introl eq_refl)) as [Hwait [w [Hw Hn]]].
      rewrite Hw in Hf.
      destruct (findActionsToSkipAfterFailure depth its (w_project w)
                  (delete_ref ref b)) as [below b2] eqn:Hrec.
      assert (Hndb : List.NoDup (refs b)) by (eapply emptied_NoDup; eassumption).
      assert (Hb1 : emptied blk (delete_ref ref b)).
      { eapply emptied_trans; [exact Hb | apply delete_ref_emptied]. }
      assert (Hgone : ~ waiting (delete_ref ref b) ref) by now apply delete_ref_gone.
      assert (Hlt : count_waiting (delete_ref ref b) < depth).
      { pose proof (emptied_count_lt _ _ _ Hb1 Hwait Hgone). lia. }
      destruct (IH _ _ _ _ (emptied_NoDup _ _ Hb1 Hnd) Hlt Hrec)
        as (He & HB1 & HC1 & HD1).
      assert (Hb2 : emptied b b2).
      { eapply emptied_trans; [apply delete_ref_emptied | exact He]. }
      assert (Hgone2 : ~ waiting b2 ref).
      { intros Hx. apply Hgone. eapply emptied_waiting; eassumption. }
      assert (HA1 : forall r' w', waiting b2 r' -> its !! r' = Some w' ->
                                  needs_project w' (w_project w) = false).
      { intros r' w' Hr' Hw'.
        destruct (needs_project w' (w_project w)) eqn:Hn'; [|reflexivity].
        exfalso. eapply (HD1 r' w'); eauto. eapply emptied_waiting; eassumption. }
      eapply IHt; [| | | | | exact Hf].
      + eapply emptied_trans; [exact Hb1 | exact He].
      + intros r w0 Hr Hnot Hw0.
        destruct (waiting_dec b r) as [Hbr|Hbr].
        * destruct (Nat.eq_dec r ref) as [->|Hne].
          -- assert (w0 = w) by congruence. subst w0. split.
             ++ exists f. apply in_or_app. right. now left.
             ++ exact HA1.
          -- destruct (HB1 r w0 (delete_ref_other _ _ _ Hne Hbr) Hnot Hw0)
               as [[q Hq] Hclosed].
             split; [|exact Hclosed].
             exists q. apply in_or_app. right. now right.
        * destruct (HB r w0 Hr Hbr Hw0) as [[q Hq] Hclosed]. split.
          -- exists q. apply in_or_app. now left.
          -- intros r' w' Hr' Hw'. eapply Hclosed; [|exact Hw'].
             eapply emptied_waiting; eassumption.
      + intros rec Hin. apply in_app_or in Hin. destruct Hin as [Hin|[<-|Hin]].
        * destruct (HC rec Hin) as (r & w0 & q & H1 & H2 & H3 & H4).
          exists r, w0, q. repeat split; auto.
          intros Hx. apply H2. eapply emptied_waiting; eassumption.
        * exists ref, w, f. auto.
        * destruct (HC1 rec Hin) as (r & w0 & q & H1 & H2 & H3 & H4).
          exists r, w0, q. repeat split; auto.
          eapply emptied_waiting; eassumption.
      + intros ref' Hin. apply Htodo. now right.
      + intros r w0 Hr Hw0 Hn0.
        destruct (HD r w0 Hr Hw0 Hn0) as [[<-|Hin]|[Hin Hnot]].
        * right. assert (w0 = w) by congruence. subst w0. split; [|assumption].
          apply in_or_app. right. now left.
        * now left.
        * right. split; [apply in_or_app; now left|].
          intros Hx. apply Hnot. eapply emptied_waiting; eassumption. }
  eapply Hgen; [apply emptied_refl | | | | | exact H].
  - intros r w Hr Hnot. contradiction.
  - intros rec [].
  - intros ref Hin. now apply actions_needing_In.
  - intros r w Hr Hw Hn. left. apply actions_needing_In. eauto.
Qed.

Lemma cascaded_clears its blk blk' failedProject recs :
  cascaded its blk blk' failedProject recs ->
  forall r w, waiting blk' r -> its !! r = Some w ->
    needs_project w failedProject = false.
Proof.
  intros (He & _ & _ & HD) r w Hr Hw.
  destruct (needs_project w failedProject) eqn:Hn; [|reflexivity].
  exfalso. eapply (HD r w); eauto. eapply emptied_waiting; eassumption.
Qed.

(** ** The callback and the event loop *)

Lemma then_callback_unfold (k : GroupKey) (res : ActionOutput) (s : Pool) :
  exists removed blk1 its' blk' freed ps s',
    (if succeeded res then ([], blocked s)
     else findActionsToSkipAfterFailure (S (length (blocked s))) (items s)
            (o_project res) (blocked s)) = (removed, blk1) /\
    free_actions (project k) (items s) blk1 = (its', blk', freed) /\
    launch (map (freed_key k) freed) (mkPool its' blk' (begun s) (invoked s))
    = (ps, s') /\
    then_callback k res s = (Awaiting res ps removed, s').
Proof.
  unfold then_callback.
  destruct (if succeeded res then _ else _) as [removed blk1].
  destruct (free_actions (project k) (items s) blk1) as [[its' blk'] freed] eqn:Hf.
  destruct (launch _ _) as [ps s'] eqn:Hl.
  exists removed, blk1, its', blk', freed, ps, s'. auto.
Qed.

Lemma pending_inflight (p : Promise) : pending p = length (inflight p).
Proof.
  induction p as [out|k|res freed removed IH] using Promise_ind; simpl; auto.
  induction IH as [|q qs Hq _ IHqs]; simpl; [reflexivity|].
  rewrite length_app, Hq. f_equal. exact IHqs.
Qed.

Lemma pending_inflight_all (ps : list Promise) :
  list_sum (map pending ps) = length (inflight_all ps).
Proof.
  unfold inflight_all. induction ps as [|p ps IH]; simpl; [reflexivity|].
  now rewrite length_app, pending_inflight, IH.
Qed.

Lemma settles_frame f b a ob oa s s' x y ox oy :
  settles f b a ob oa s s' ->
  settles f (x ++ b ++ y) (x ++ a ++ y) (ox ++ ob ++ oy) (ox ++ oa ++ oy) s s'.
Proof.
  intros (k & l1 & l2 & kids & removed & -> & Hcb & -> & Hperm).
  exists k, (x ++ l1), (l2 ++ y), kids, removed.
  split; [now rewrite <- !app_assoc|]. split; [assumption|].
  split; [now rewrite <- !app_assoc|].
  rewrite Hperm. rewrite <- !app_assoc. apply Permutation_app_head.
  apply Permutation_app_head.
  change (f k :: (outputs kids ++ removed) ++ oy)
    with ((f k :: outputs kids ++ removed) ++ oy).
  apply Permutation_app_comm.
Qed.

Section EventLoop.

Variable f : GroupKey -> ActionOutput.

Lemma settle_among_settles (ps : list Promise) :
  Forall (fun p => forall n s p' s',
            settle f p n s = Some (p', s') ->
            settles f (inflight p) (inflight p') (flatten p) (flatten p') s s')
         ps ->
  forall n s ps' s',
    settle_among (settle f) ps n s = Some (ps', s') ->
    settles f (inflight_all ps) (inflight_all ps') (outputs ps) (outputs ps') s s'.
Proof.
  unfold inflight_all, outputs.
  induction 1 as [|p ps Hp _ IH]; simpl; intros n s ps' s' H; [discriminate|].
  destruct (Nat.ltb n (pending p)).
  - destruct (settle f p n s) as [[p' s1]|] eqn:Hs; [|discriminate].
    injection H as <- <-. simpl.
    apply (settles_frame f _ _ _ _ _ _ [] _ [] _ (Hp _ _ _ _ Hs)).
  - destruct (settle_among (settle f) ps (n - pending p) s)
      as [[ps1 s1]|] eqn:Hs; [|discriminate].
    injection H as <- <-. simpl.
    pose proof (settles_frame f _ _ _ _ _ _ (inflight p) [] (flatten p) []
                  (IH _ _ _ _ Hs)) as Hfr.
    now rewrite !app_nil_r in Hfr.
Qed.

Lemma settle_settles (p : Promise) :
  forall n s p' s',
    settle f p n s = Some (p', s') ->
    settles f (inflight p) (inflight p') (flatten p) (flatten p') s s'.
Proof.
  induction p as [out|k|res freed removed IH] using Promise_ind;
    simpl; intros n s p' s' H.
  - discriminate.
  - destruct n; [|discriminate]. injection H as H.
    destruct (then_callback_unfold k (f k) s)
      as (rm & blk1 & its' & blk' & fr & ps & s1 & _ & _ & _ & Hcb).
    rewrite Hcb in H. injection H as <- <-.
    exists k, [], [], ps, rm. simpl. rewrite app_nil_r.
    repeat split; auto.
  - destruct (settle_among (settle f) freed n s) as [[freed' s1]|] eqn:Hs;
      [|discriminate].
    injection H as <- <-. simpl.
    pose proof (settle_among_settles freed IH _ _ _ _ Hs) as Hst.
    pose proof (settles_frame f _ _ _ _ _ _ [] [] [res] removed Hst) as Hfr.
    simpl in Hfr. now rewrite !app_nil_r in Hfr.
Qed.

Lemma settle_among_spec (ps : list Promise) n s ps' s' :
  settle_among (settle f) ps n s = Some (ps', s') ->
  settles f (inflight_all ps) (inflight_all ps') (outputs ps) (outputs ps') s s'.
Proof.
  apply settle_among_settles. apply List.Forall_forall.
  intros p _. apply settle_settles.
Qed.

Lemma settle_among_progress (ps : list Promise) :
  Forall (fun p => forall n s, n < pending p -> settle f p n s <> None) ps ->
  forall n s, n < list_sum (map pending ps) ->
    settle_among (settle f) ps n s <> None.
Proof.
  induction 1 as [|p ps Hp _ IH]; simpl; intros n s Hn; [lia|].
  destruct (Nat.ltb_spec n (pending p)) as [Hlt|Hge].
  - specialize (Hp n s Hlt). destruct (settle f p n s) as [[p' s1]|];
      [discriminate | contradiction].
  - assert (Hn' : n - pending p < list_sum (map pending ps)) by lia.
    specialize (IH _ s Hn').
    destruct (settle_among (settle f) ps (n - pending p) s) as [[ps1 s1]|];
      [discriminate | contradiction].
Qed.

Lemma settle_progress (p : Promise) :
  forall n s, n < pending p -> settle f p n s <> None.
Proof.
  induction p as [out|k|res freed removed IH] using Promise_ind;
    simpl; intros n s Hn.
  - lia.
  - assert (n = 0) by lia. subst n. discriminate.
  - pose proof (settle_among_progress freed IH n s Hn) as Hs.
    destruct (settle_among (settle f) freed n s) as [[freed' s1]|];
      [discriminate | contradiction].
Qed.

Lemma settle_among_total (ps : list Promise) n s :
  n < list_sum (map pending ps) ->
  exists ps' s', settle_among (settle f) ps n s = Some (ps', s').
Proof.
  intros Hn.
  assert (H : settle_among (settle f) ps n s <> None).
  { apply settle_among_progress; [|assumption].
    apply List.Forall_forall. intros p _. apply settle_progress. }
  destruct (settle_among (settle f) ps n s) as [[ps' s']|]; [eauto|contradiction].
Qed.

End EventLoop.

Lemma then_callback_measure (k : GroupKey) (res : ActionOutput) (s : Pool)
    kids removed s' :
  then_callback k res s = (Awaiting res kids removed, s') ->
  length (inflight_all kids) + count_waiting (blocked s')
  <= count_waiting (blocked s).
Proof.
  intros H.
  destruct (then_callback_unfold k res s)
    as (rm & blk1 & its' & blk' & fr & ps & s1 & Hc & Hf & Hl & Hcb).
  rewrite Hcb in H. injection H as <- <- <-.
  assert (He : emptied (blocked s) blk1).
  { destruct (succeeded res).
    - injection Hc as <- <-. apply emptied_refl.
    - now apply cascade_records in Hc. }
  apply emptied_count in He.
  apply free_actions_spec in Hf.
  destruct Hf as (_ & _ & _ & _ & _ & _ & Hcnt).
  apply launch_spec in Hl.
  destruct Hl as (_ & Hb & new & _ & _ & Hfl & _ & _ & _ & _ & Hlen & _).
  rewrite Hb, Hfl. simpl. rewrite length_map in Hlen. lia.
Qed.

Section Draining.

Variable f : GroupKey -> ActionOutput.

Lemma drain_S fuel sched ps s :
  drain f (S fuel) sched ps s
  = match list_sum (map pending ps) with
    | O => (sched, ps, s)
    | S m =>
        match settle_among (settle f) ps (Nat.modulo (hd 0 sched) (S m)) s with
        | Some (ps', s') => drain f fuel (tl sched) ps' s'
        | None => (sched, ps, s)
        end
    end.
Proof. reflexivity. Qed.

Lemma drain_ind (J : list Promise -> Pool -> Prop) :
  (forall ps s n ps' s',
     J ps s -> settle_among (settle f) ps n s = Some (ps', s') -> J ps' s') ->
  forall fuel sched ps s sched' ps' s',
    J ps s -> drain f fuel sched ps s = (sched', ps', s') -> J ps' s'.
Proof.
  intros Hstep. induction fuel as [|fuel IH];
    intros sched ps s sched' ps' s' HJ H.
  - now injection H as <- <- <-.
  - rewrite drain_S in H. destruct (list_sum (map pending ps)) as [|m].
    + now injection H as <- <- <-.
    + destruct (settle_among (settle f) ps (hd 0 sched mod S m) s)
        as [[ps1 s1]|] eqn:Hs.
      * eapply IH; [|exact H]. eapply Hstep; eassumption.
      * now injection H as <- <- <-.
Qed.

Lemma drain_done :
  forall fuel sched ps s sched' ps' s',
    list_sum (map pending ps) + count_waiting (blocked s) <= fuel ->
    drain f fuel sched ps s = (sched', ps', s') ->
    inflight_all ps' = [].
Proof.
  induction fuel as [|fuel IH]; intros sched ps s sched' ps' s' Hfuel H.
  - injection H as <- <- <-. apply length_zero_iff_nil.
    rewrite <- pending_inflight_all. lia.
  - rewrite drain_S in H.
    destruct (list_sum (map pending ps)) as [|m] eqn:Hp.
    + injection H as <- <- <-. apply length_zero_iff_nil.
      now rewrite <- pending_inflight_all.
    + assert (Hn : hd 0 sched mod S m < list_sum (map pending ps)).
      { rewrite Hp. apply Nat.mod_upper_bound. lia. }
      destruct (settle_among_total f ps _ s Hn) as (ps1 & s1 & Hs).
      rewrite Hs in H. eapply IH; [|exact H].
      apply settle_among_spec in Hs.
      destruct Hs as (k & l1 & l2 & kids & removed & Hb & Hcb & Ha & _).
      apply then_callback_measure in Hcb.
      rewrite pending_inflight_all in Hp |- *.
      rewrite Hb in Hp. rewrite Ha.
      rewrite length_app in Hp. simpl in Hp.
      rewrite !length_app. lia.
Qed.

Lemma await_all_done sched ps s sched' ps' s' :
  await_all f sched ps s = (sched', ps', s') -> inflight_all ps' = [].
Proof.
  unfold await_all. apply drain_done.
  pose proof (count_waiting_le (blocked s)). lia.
Qed.

Lemma settles_pool_step b a ob oa s s' :
  settles f b a ob oa s s' -> pool_step f s s'.
Proof.
  intros (k & l1 & l2 & kids & removed & _ & Hcb & _). eapply step_settle, Hcb.
Qed.

Lemma reaches_trans s1 s2 s3 :
  reaches f s1 s2 -> reaches f s2 s3 -> reaches f s1 s3.
Proof.
  intros H12 H23. induction H23; [assumption|].
  eapply reaches_step; [|eassumption]. auto.
Qed.

Lemma drain_reaches fuel sched ps s sched' ps' s' :
  drain f fuel sched ps s = (sched', ps', s') -> reaches f s s'.
Proof.
  intros H.
  apply (drain_ind (fun _ s1 => reaches f s s1)) in H;
    [assumption | | apply reaches_refl].
  intros ps0 s0 n ps1 s1 Hr Hs. eapply reaches_step; [exact Hr|].
  eapply settles_pool_step, settle_among_spec, Hs.
Qed.

Lemma run_tier_reaches sched out s prio sched' out' s' :
  run_tier f (sched, out, s) prio = (sched', out', s') -> reaches f s s'.
Proof.
  unfold run_tier.
  destruct (launch _ s) as [ps s1] eqn:Hl.
  destruct (await_all f sched ps s1) as [[sched1 ps1] s2] eqn:Ha.
  intros H. injection H as <- <- <-.
  eapply reaches_trans; [|eapply drain_reaches, Ha].
  eapply reaches_step; [apply reaches_refl|].
  eapply step_launch; [|exact Hl].
  intros a Ha'. apply filter_In in Ha'. destruct Ha' as [Hin Htier].
  split; [assumption|]. unfold in_tier in Htier.
  apply andb_true_iff in Htier. destruct Htier as [_ Hn].
  now apply Nat.eqb_eq in Hn.
Qed.

Lemma fold_run_tier_reaches (prios : list Z) :
  forall sched out s sched' out' s',
    fold_left (run_tier f) prios (sched, out, s) = (sched', out', s') ->
    reaches f s s'.
Proof.
  induction prios as [|p prios IH]; cbn [fold_left];
    intros sched out s sched' out' s' H.
  - injection H as <- <- <-. apply reaches_refl.
  - destruct (run_tier f (sched, out, s) p) as [[sched1 out1] s1] eqn:Ht.
    eapply reaches_trans; [eapply run_tier_reaches, Ht | eapply IH, H].
Qed.

(** Every state a run goes through, and the one it ends in, is
    reached from the initial state by tiers and callbacks. *)
Lemma run_tiers_reaches prios sched its sched' out' s' :
  run_tiers f prios sched its = (sched', out', s') ->
  reaches f (initial_pool its) s'.
Proof. apply fold_run_tier_reaches. Qed.

Lemma run_reaches sched its :
  reaches f (initial_pool its) (snd (run f sched its)).
Proof.
  unfold run.
  destruct (run_tiers f (getUniquePriorities its) sched its)
    as [[sched' out'] s'] eqn:H.
  simpl. eapply run_tiers_reaches, H.
Qed.

End Draining.

(** ** What one step does to the state *)

Lemma then_callback_spec (k : GroupKey) (res : ActionOutput) (s : Pool)
    kids removed s' :
  then_callback k res s = (Awaiting res kids removed, s') ->
  exists blk1 freed,
    (if succeeded res then ([], blocked s)
     else findActionsToSkipAfterFailure (S (length (blocked s))) (items s)
            (o_project res) (blocked s)) = (removed, blk1) /\
    emptied (blocked s) blk1 /\
    free_actions (project k) (items s) blk1 = (items s', blocked s', freed) /\
    launch (map (freed_key k) freed)
      (mkPool (items s') (blocked s') (begun s) (invoked s)) = (kids, s').
Proof.
  intros H.
  destruct (then_callback_unfold k res s)
    as (rm & blk1 & its' & blk' & fr & ps & s1 & Hc & Hf & Hl & Hcb).
  rewrite Hcb in H. injection H as <- <- <-.
  exists blk1, fr.
  pose proof (launch_spec _ _ _ _ Hl) as (Hi & Hb & _). simpl in Hi, Hb.
  rewrite Hi, Hb. repeat split; auto.
  destruct (succeeded res).
  - injection Hc as <- <-. apply emptied_refl.
  - now apply cascade_records in Hc.
Qed.

Lemma needs_length_strip (fin : string) (w : WorkItem) :
  needs_length w = 0 -> strip fin w = w.
Proof.
  unfold needs_length, strip, set_needs. destruct w as [p a g gs pr [ns|]]; simpl.
  - intros H. apply length_zero_iff_nil in H. now subst.
  - reflexivity.
Qed.

Section Steps.

Variable f : GroupKey -> ActionOutput.

Lemma pool_step_blocked s s' :
  pool_step f s s' -> emptied (blocked s) (blocked s').
Proof.
  intros [s0 tier ps s1 _ Hl | s0 k kids removed s1 Hcb].
  - apply launch_spec in Hl. destruct Hl as (_ & -> & _). apply emptied_refl.
  - apply then_callback_spec in Hcb.
    destruct Hcb as (blk1 & freed & _ & He & Hf & _).
    apply free_actions_spec in Hf. destruct Hf as (_ & _ & _ & He' & _).
    eapply emptied_trans; eassumption.
Qed.

(** A step changes at most the [needs] of the actions that are in
    [blockedActions], and only by removing names. *)
Lemma pool_step_items s s' :
  pool_step f s s' ->
  length (items s') = length (items s) /\
  forall r,
    (~ waiting (blocked s) r -> items s' !! r = items s !! r) /\
    (items s' !! r = items s !! r \/
     exists fin, items s' !! r = strip fin <$> items s !! r).
Proof.
  intros [s0 tier ps s1 _ Hl | s0 k kids removed s1 Hcb].
  - apply launch_spec in Hl. destruct Hl as (-> & _). auto.
  - apply then_callback_spec in Hcb.
    destruct Hcb as (blk1 & freed & _ & He & Hf & _).
    apply free_actions_spec in Hf.
    destruct Hf as (Hlen & Hin & Hout & _).
    split; [assumption|]. intros r. split.
    + intros Hr. apply Hout. intros Hx. apply Hr.
      eapply emptied_waiting; eassumption.
    + destruct (waiting_dec blk1 r) as [Hw|Hw]; [right|left]; eauto.
Qed.

Lemma pool_step_projects s s' :
  pool_step f s s' -> map w_project (items s') = map w_project (items s).
Proof.
  intros H. apply pool_step_items in H. destruct H as [Hlen H].
  apply list_eq. intros r. rewrite !list_lookup_fmap.
  destruct (H r) as [_ [->|[fin ->]]]; [reflexivity|].
  now destruct (items s !! r).
Qed.

Lemma pool_step_log s s' :
  pool_step f s s' ->
  begun s = invoked s -> List.NoDup (invoked s) ->
  begun s' = invoked s' /\ List.NoDup (invoked s').
Proof.
  intros Hstep Heq Hnd.
  assert (Hl : exists ks ps its blk,
             launch ks (mkPool its blk (begun s) (invoked s)) = (ps, s')).
  { destruct Hstep as [s0 tier ps s1 _ Hl | s0 k kids removed s1 Hcb].
    - exists (map item_key tier), ps, (items s0), (blocked s0). now destruct s0.
    - apply then_callback_spec in Hcb.
      destruct Hcb as (blk1 & freed & _ & _ & _ & Hl). eauto. }
  destruct Hl as (ks & ps & its & blk & Hl).
  apply launch_spec in Hl. simpl in Hl.
  destruct Hl as (_ & _ & new & Hb & Hi & _ & _ & _ & _ & _ & _ & Hnd').
  split; [congruence|]. rewrite <- Heq in Hnd.
  specialize (Hnd' Hnd). congruence.
Qed.

Lemma pool_step_eligible s s' :
  pool_step f s s' ->
  (forall k, In k (invoked s) -> eligible s k) ->
  forall k, In k (invoked s') -> eligible s' k.
Proof.
  intros Hstep Hold.
  assert (Hkeep : forall k, eligible s k -> eligible s' k).
  { intros k (r & w & Hw & Hp & Hn).
    destruct (pool_step_items _ _ Hstep) as [_ Hitems].
    destruct (Hitems r) as [_ [Heq|[fin Heq]]]; exists r, w;
      rewrite Heq, Hw; simpl; rewrite ?needs_length_strip; auto. }
  destruct Hstep as [s0 tier ps s1 Htier Hl | s0 k0 kids removed s1 Hcb].
  - pose proof (launch_spec _ _ _ _ Hl)
      as (Hi & _ & new & _ & Hinv & _ & Hnew & _).
    intros k Hk. rewrite Hinv in Hk. apply in_app_or in Hk.
    destruct Hk as [Hk|Hk]; [apply Hkeep; auto|].
    apply Hnew in Hk. destruct Hk as [Hk _]. apply in_map_iff in Hk.
    destruct Hk as [a [<- Ha]]. destruct (Htier a Ha) as [Hin Hn].
    apply list_elem_of_In, list_elem_of_lookup in Hin. destruct Hin as [r Hr].
    exists r, a. rewrite Hi. auto.
  - pose proof (then_callback_spec _ _ _ _ _ _ Hcb)
      as (blk1 & freed & _ & _ & Hf & Hl).
    apply launch_spec in Hl. simpl in Hl.
    destruct Hl as (_ & _ & new & _ & Hinv & _ & Hnew & _).
    apply free_actions_spec in Hf.
    destruct Hf as (_ & Hin & _ & _ & _ & Hfreed & _).
    intros k Hk. rewrite Hinv in Hk. apply in_app_or in Hk.
    destruct Hk as [Hk|Hk]; [apply Hkeep, Hold, Hk|].
    apply Hnew in Hk. destruct Hk as [Hk _]. apply in_map_iff in Hk.
    destruct Hk as [a [<- Ha]]. apply Hfreed in Ha.
    destruct Ha as (r & Hr & Hlook & Hneeds).
    exists r, a. rewrite (Hin r Hr). split; [assumption|]. split; [reflexivity|].
    unfold needs_length. now rewrite Hneeds.
Qed.

Lemma pool_step_parked s s' r w :
  pool_step f s s' -> parked s r w -> parked s' r w.
Proof.
  intros Hstep (Hnw & Hw & Hn). split; [|split; [|assumption]].
  - intros Hx. apply Hnw. eapply emptied_waiting; [|exact Hx].
    now apply pool_step_blocked.
  - destruct (pool_step_items _ _ Hstep) as [_ Hitems].
    destruct (Hitems r) as [Hsame _]. now rewrite Hsame.
Qed.

Lemma reaches_projects s s' :
  reaches f s s' -> map w_project (items s') = map w_project (items s).
Proof.
  induction 1 as [|s1 s2 s3 _ IH Hstep]; [reflexivity|].
  now rewrite (pool_step_projects _ _ Hstep).
Qed.

Lemma reaches_log s s' :
  reaches f s s' ->
  begun s = invoked s -> List.NoDup (invoked s) ->
  begun s' = invoked s' /\ List.NoDup (invoked s').
Proof.
  induction 1 as [|s1 s2 s3 _ IH Hstep]; [auto|].
  intros H1 H2. destruct (IH H1 H2). now apply (pool_step_log s2 s3).
Qed.

Lemma reaches_eligible s s' :
  reaches f s s' ->
  (forall k, In k (invoked s) -> eligible s k) ->
  forall k, In k (invoked s') -> eligible s' k.
Proof.
  induction 1 as [|s1 s2 s3 _ IH Hstep]; [auto|].
  intros H. eapply pool_step_eligible; eauto.
Qed.

Lemma reaches_parked s s' r w :
  reaches f s s' -> parked s r w -> parked s' r w.
Proof.
  induction 1 as [|s1 s2 s3 _ IH Hstep]; [auto|].
  intros H. eapply pool_step_parked; eauto.
Qed.

(** A parked action is never invoked: its project has no eligible
    work item as long as project names are unique. *)
Lemma parked_not_eligible s r w k :
  List.NoDup (map w_project (items s)) ->
  parked s r w -> project k = w_project w -> ~ eligible s k.
Proof.
  intros Hnd (_ & Hw & Hn) Hk (r1 & w1 & Hw1 & Hp1 & Hn1).
  assert (r1 = r).
  { apply NoDup_ListNoDup in Hnd.
    apply (NoDup_lookup _ r1 r (w_project w) Hnd).
    - rewrite list_lookup_fmap, Hw1. simpl. congruence.
    - now rewrite list_lookup_fmap, Hw. }
  subst r1. assert (w1 = w) by congruence. subst w1. lia.
Qed.

End Steps.

Lemma blocked_refs_spec (its : list WorkItem) :
  forall from r, In r (refs (blocked_refs from its)) ->
    from <= r /\ exists a, its !! (r - from) = Some a /\ 0 < needs_length a.
Proof.
  induction its as [|a its IH]; simpl; intros from r H; [contradiction|].
  destruct (Nat.ltb_spec 0 (needs_length a)) as [Hn|Hn]; simpl in H.
  - destruct H as [<-|H].
    + split; [lia|]. rewrite Nat.sub_diag. eauto.
    + apply IH in H. destruct H as [Hle (a' & Ha' & Hn')]. split; [lia|].
      exists a'. split; [|assumption].
      replace (r - from) with (S (r - S from)) by lia. exact Ha'.
  - apply IH in H. destruct H as [Hle (a' & Ha' & Hn')]. split; [lia|].
    exists a'. split; [|assumption].
    replace (r - from) with (S (r - S from)) by lia. exact Ha'.
Qed.

Lemma blocked_refs_NoDup (its : list WorkItem) :
  forall from, List.NoDup (refs (blocked_refs from its)).
Proof.
  induction its as [|a its IH]; simpl; intros from; [constructor|].
  destruct (Nat.ltb 0 (needs_length a)); simpl; [|apply IH].
  constructor; [|apply IH]. intros H. apply blocked_refs_spec in H. lia.
Qed.

Lemma blocked_refs_complete (its : list WorkItem) :
  forall from i a, its !! i = Some a -> 0 < needs_length a ->
    waiting (blocked_refs from its) (from + i).
Proof.
  unfold waiting.
  induction its as [|a0 its IH]; intros from i a Ha Hn; [discriminate|].
  simpl. destruct i as [|i]; simpl in Ha.
  - injection Ha as ->. apply Nat.ltb_lt in Hn. rewrite Hn.
    left. f_equal. lia.
  - replace (from + S i) with (S from + i) by lia.
    destruct (Nat.ltb 0 (needs_length a0)); [right|]; eapply IH; eassumption.
Qed.

Section Reaching.

Variable f : GroupKey -> ActionOutput.

Lemma reaches_blocked s s' :
  reaches f s s' -> emptied (blocked s) (blocked s').
Proof.
  induction 1 as [|s1 s2 s3 _ IH Hstep]; [apply emptied_refl|].
  eapply emptied_trans; [exact IH | now apply (pool_step_blocked f)].
Qed.

(** What holds of every state of a run. *)
Lemma reaches_initial (its : list WorkItem) (s : Pool) :
  reaches f (initial_pool its) s ->
  map w_project (items s) = map w_project its /\
  List.NoDup (refs (blocked s)) /\
  begun s = invoked s /\ List.NoDup (invoked s) /\
  forall k, In k (invoked s) -> eligible s k.
Proof.
  intros H. split; [|split; [|split; [|split]]].
  - apply (reaches_projects f _ _ H).
  - eapply emptied_NoDup; [apply (reaches_blocked _ _ H)|].
    apply blocked_refs_NoDup.
  - apply (reaches_log f _ _ H); [reflexivity | constructor].
  - apply (reaches_log f _ _ H); [reflexivity | constructor].
  - apply (reaches_eligible f _ _ H). intros k [].
Qed.

(** The induction principle of a run: a property of the tiers still
    to come, the calls pending, the records so far and the state,
    kept by the launch of a tier and by every callback, holds when
    the run ends. *)
Section RunInduction.
Variable I : list Z -> list GroupKey -> list ActionOutput -> Pool -> Prop.
Hypothesis I_launch :
  forall p todo recs s ps s1,
    I (p :: todo) [] recs s ->
    launch (map item_key (List.filter (in_tier p) (items s))) s = (ps, s1) ->
    I todo (inflight_all ps) (recs ++ outputs ps) s1.
Hypothesis I_settle :
  forall todo fl recs s fl' recs' s',
    I todo fl recs s -> settles f fl fl' recs recs' s s' ->
    I todo fl' recs' s'.

Lemma fold_run_tier_ind (prios : list Z) :
  forall sched out s sched' out' s',
    I prios [] out s ->
    fold_left (run_tier f) prios (sched, out, s) = (sched', out', s') ->
    I [] [] out' s'.
Proof.
  induction prios as [|p prios IH]; cbn [fold_left];
    intros sched out s sched' out' s' HI H.
  - now injection H as <- <- <-.
  - unfold run_tier at 2 in H.
    destruct (launch _ s) as [ps s1] eqn:Hl.
    destruct (await_all f sched ps s1) as [[sched1 ps1] s2] eqn:Ha.
    eapply IH; [|exact H].
    pose proof (await_all_done f _ _ _ _ _ _ Ha) as Hdone.
    rewrite <- Hdone. fold (outputs ps1).
    unfold await_all in Ha.
    eapply (drain_ind f
              (fun ps0 s0 => I prios (inflight_all ps0) (out ++ outputs ps0) s0));
      [| |exact Ha].
    + intros ps0 s0 n ps' s0' HJ Hs. eapply I_settle; [exact HJ|].
      apply settle_among_spec in Hs.
      pose proof (settles_frame f _ _ _ _ _ _ [] [] out [] Hs) as Hfr.
      simpl in Hfr. now rewrite !app_nil_r in Hfr.
    + eapply I_launch; eassumption.
Qed.

Lemma run_ind (its : list WorkItem) (sched : list nat) :
  I (getUniquePriorities its) [] [] (initial_pool its) ->
  I [] [] (fst (run f sched its)) (snd (run f sched its)).
Proof.
  intros HI. unfold run, run_tiers.
  destruct (fold_left _ _ _) as [[sched' out'] s'] eqn:H. simpl.
  eapply fold_run_tier_ind; eassumption.
Qed.
End RunInduction.

End Reaching.

Lemma launch_shape (ks : list GroupKey) :
  forall s ps s', launch ks s = (ps, s') -> Forall2 launched_as ks ps.
Proof.
  induction ks as [|k ks IH]; simpl; intros s ps s' H.
  - injection H as <- <-. constructor.
  - destruct (runActionPromiseWrapper k s) as [p s1] eqn:Hw.
    destruct (launch ks s1) as [ps1 s2] eqn:Hl.
    injection H as <- <-. constructor; [|eapply IH; eassumption].
    destruct (wrapper_cases k s) as [[_ Hc]|[_ Hc]]; rewrite Hc in Hw;
      injection Hw as <- <-; [now left | now right].
Qed.

Lemma then_callback_effects (k : GroupKey) (res : ActionOutput) (s : Pool)
    kids removed s' :
  then_callback k res s = (Awaiting res kids removed, s') ->
  exists new,
    invoked s' = invoked s ++ new /\ begun s' = begun s ++ new /\
    inflight_all kids = new /\
    Forall is_duplicate (outputs kids) /\ Forall is_skip removed /\
    (forall k', In k' new -> action k' = action k /\ group k' = group k).
Proof.
  intros H. apply then_callback_spec in H.
  destruct H as (blk1 & freed & Hc & _ & _ & Hl).
  apply launch_spec in Hl. simpl in Hl.
  destruct Hl as (_ & _ & new & Hb & Hi & Hfl & Hnew & _ & Hout & _).
  exists new. repeat (split; [assumption|]). split; [|split].
  - apply List.Forall_forall. intros r Hr. destruct (Hout r Hr) as [k' [_ ->]].
    now exists k'.
  - destruct (succeeded res).
    + injection Hc as <- _. constructor.
    + apply cascade_records in Hc. destruct Hc as [_ Hc].
      eapply List.Forall_impl; [|exact Hc].
      intros r (r0 & w & q & _ & _ & -> & _). now exists w, q.
  - intros k' Hk'. apply Hnew in Hk'. destruct Hk' as [Hk' _].
    apply in_map_iff in Hk'. destruct Hk' as [a [<- _]]. auto.
Qed.

(** ** Deduplication *)

(** The records of a run: one record of the invoker for each call made,
    and besides them only duplicate records and skip records. *)
Lemma run_records (f : GroupKey -> ActionOutput) (sched : list nat)
    (its : list WorkItem) :
  exists others,
    Permutation (fst (run f sched its))
      (map f (invoked (snd (run f sched its))) ++ others) /\
    Forall (fun r => is_duplicate r \/ is_skip r) others.
Proof.
  pose (I := fun (_ : list Z) (fl : list GroupKey) (recs : list ActionOutput)
                 (s : Pool) =>
    exists settled others,
      Permutation (invoked s) (settled ++ fl) /\
      Permutation recs (map f settled ++ others) /\
      Forall (fun r => is_duplicate r \/ is_skip r) others).
  assert (H : I [] [] (fst (run f sched its)) (snd (run f sched its))).
  { apply run_ind.
    - intros p todo recs s ps s1 (settled & others & Hi & Hr & Ho) Hl.
      apply launch_spec in Hl.
      destruct Hl as (_ & _ & new & _ & Hinv & Hfl & _ & _ & Hout & _).
      exists settled, (others ++ outputs ps). split; [|split].
      + rewrite Hinv, Hfl, Hi. now rewrite app_nil_r.
      + rewrite Hr. now rewrite app_assoc.
      + apply Forall_app. split; [assumption|].
        apply List.Forall_forall. intros r Hr'. left.
        destruct (Hout r Hr') as [k [_ ->]]. now exists k.
    - intros todo fl recs s fl' recs' s' (settled & others & Hi & Hr & Ho)
        (k & l1 & l2 & kids & removed & -> & Hcb & -> & Hperm).
      apply then_callback_effects in Hcb.
      destruct Hcb as (new & Hinv & _ & -> & Hdup & Hskip & _).
      exists (settled ++ [k]), (others ++ outputs kids ++ removed).
      split; [|split].
      + rewrite Hinv, Hi. rewrite <- !app_assoc. apply Permutation_app_head.
        simpl. apply Permutation_sym.
        etransitivity; [|apply Permutation_middle].
        apply perm_skip, Permutation_app_head, Permutation_app_comm.
      + rewrite Hperm, Hr. rewrite map_app. simpl. rewrite <- !app_assoc.
        apply Permutation_app_head. simpl.
        apply Permutation_sym, Permutation_middle.
      + apply Forall_app. split; [assumption|]. apply Forall_app. split.
        * eapply List.Forall_impl; [|exact Hdup]. auto.
        * eapply List.Forall_impl; [|exact Hskip]. auto.
    - exists [], []. repeat split; constructor. }
  destruct H as (settled & others & Hi & Hr & Ho).
  exists others. split; [|assumption].
  rewrite Hr. apply Permutation_app_tail, Permutation_map.
  rewrite Hi. now rewrite app_nil_r.
Qed.

(** C8: in a run the invoker is called at most once for a key, and the
    records of the run are one record of the invoker per call, plus
    duplicate and skip records; the wrapper called twice for a key that
    had not begun makes one call of the invoker, whose record opens the
    array the first promise resolves to, and answers the second time
    with the duplicate record alone, leaving the state as it is; and
    for any key that already began it returns the duplicate record
    without a call. *)
Theorem C8_one_invocation_per_key (f : GroupKey -> ActionOutput) :
  (forall sched its,
     List.NoDup (invoked (snd (run f sched its))) /\
     exists others,
       Permutation (fst (run f sched its))
         (map f (invoked (snd (run f sched its))) ++ others) /\
       Forall (fun r => is_duplicate r \/ is_skip r) others)
  /\ (forall k s,
        ~ In k (begun s) ->
        exists s1,
          runActionPromiseWrapper k s = (Invoking k, s1) /\
          invoked s1 = invoked s ++ [k] /\
          (exists kids removed s2,
             settle f (Invoking k) 0 s1 = Some (Awaiting (f k) kids removed, s2)) /\
          runActionPromiseWrapper k s1 = (Resolved [duplicate_record k], s1) /\
          flatten (Resolved [duplicate_record k]) = [duplicate_record k] /\
          wasSkippedDuplicated (duplicate_record k) = true)
  /\ (forall k s,
        In k (begun s) ->
        runActionPromiseWrapper k s = (Resolved [duplicate_record k], s)).
Proof.
  split; [|split].
  - intros sched its. split; [|apply run_records].
    apply (reaches_initial f its), run_reaches.
  - intros k s Hk. eexists. split; [now apply wrapper_fresh|]. simpl.
    split; [reflexivity|]. split; [|split; [|split; reflexivity]].
    + destruct (then_callback_unfold k (f k)
                  (mkPool (items s) (blocked s) (begun s ++ [k]) (invoked s ++ [k])))
        as (rm & _ & _ & _ & _ & ps & s2 & _ & _ & _ & Hcb).
      exists ps, rm, s2. simpl. now rewrite Hcb.
    + apply wrapper_begun. simpl. apply in_or_app. right. now left.
  - intros k s. apply wrapper_begun.
Qed.

Lemma C8_witness :
  runActionPromiseWrapper (mkKey "api" "build" "*")
    (mkPool WebApi.selected [] [mkKey "api" "build" "*"] [mkKey "api" "build" "*"])
  = (Resolved [duplicate_record (mkKey "api" "build" "*")],
     mkPool WebApi.selected [] [mkKey "api" "build" "*"] [mkKey "api" "build" "*"]).
Proof.
  apply (proj2 (proj2 (C8_one_invocation_per_key succeed))).
  simpl. now left.
Defined.

(** ** Freed actions *)

Lemma Forall2_In_l {A B : Type} (R : A -> B -> Prop) (xs : list A) (ys : list B) :
  Forall2 R xs ys -> forall x, In x xs -> exists y, In y ys /\ R x y.
Proof.
  induction 1 as [|x' y xs ys Hxy _ IH]; simpl; intros x Hin; [contradiction|].
  destruct Hin as [<-|Hin].
  - exists y. split; [now left | assumption].
  - destruct (IH _ Hin) as [y' [Hy' HR]]. exists y'. split; [now right | assumption].
Qed.

Lemma then_callback_freed (k : GroupKey) (res : ActionOutput) (s : Pool)
    kids removed s' :
  then_callback k res s = (Awaiting res kids removed, s') ->
  exists blk1 freed,
    emptied (blocked s) blk1 /\
    (succeeded res = true -> blk1 = blocked s) /\
    Forall2 launched_as (map (freed_key k) freed) kids /\
    (forall a, In a freed <->
       exists r, waiting blk1 r /\
                 strip (project k) <$> items s !! r = Some a /\
                 w_needs a = Some []) /\
    (forall r, waiting blk1 r -> items s' !! r = strip (project k) <$> items s !! r) /\
    (forall r, waiting (blocked s') r <->
       waiting blk1 r /\
       forall a, strip (project k) <$> items s !! r = Some a ->
                 w_needs a <> Some []) /\
    (forall k', In k' (map (freed_key k) freed) -> In k' (begun s')) /\
    (forall k', In k' (begun s') ->
       In k' (begun s) \/ In k' (map (freed_key k) freed)) /\
    (forall k', In k' (map (freed_key k) freed) ->
       (In k' (inflight_all kids) \/ In (duplicate_record k') (outputs kids)) /\
       (~ In k' (begun s) -> In k' (inflight_all kids))) /\
    (List.NoDup (refs (blocked s)) ->
     forall r a, waiting (blocked s) r -> ~ waiting blk1 r ->
       items s !! r = Some a ->
       (exists q, In (skipped_record a q) removed) /\
       forall r' a', waiting blk1 r' -> items s !! r' = Some a' ->
         needs_project a' (w_project a) = false) /\
    (forall r, ~ waiting blk1 r -> items s' !! r = items s !! r) /\
    Forall (attributed (items s) (blocked s) (o_project res)) removed /\
    (succeeded res = false -> List.NoDup (refs (blocked s)) ->
     forall r a, waiting (blocked s) r -> items s !! r = Some a ->
       needs_project a (o_project res) = true -> ~ waiting blk1 r) /\
    (forall rec, In rec (outputs kids) ->
       exists k', In k' (map (freed_key k) freed) /\ rec = duplicate_record k').
Proof.
  intros H. apply then_callback_spec in H.
  destruct H as (blk1 & freed & Hc & He & Hf & Hl).
  exists blk1, freed. split; [assumption|]. split.
  { intros Hs. rewrite Hs in Hc. now injection Hc as _ <-. }
  pose proof (launch_shape _ _ _ _ Hl) as Hshape.
  apply launch_spec in Hl. simpl in Hl.
  destruct Hl as (_ & _ & new & Hb & _ & Hfl & Hnew & Hfresh & Hdups & Hall & _).
  apply free_actions_spec in Hf.
  destruct Hf as (_ & Hin & Hout & _ & Hblk & Hfreed & _).
  repeat (split; [assumption|]).
  split; [|split; [|split; [|split; [|split; [|split; [|split]]]]]].
  - intros k' Hk'. rewrite Hb. apply in_or_app.
    destruct (existsb (key_eqb k') (begun s)) eqn:Hold.
    + left. now apply began_In.
    + right. apply Hfresh; [assumption|].
      intros Hx. apply began_In in Hx. congruence.
  - intros k' Hk'. rewrite Hb in Hk'. apply in_app_or in Hk'.
    destruct Hk' as [Hk'|Hk']; [now left | right; now apply Hnew].
  - intros k' Hk'. rewrite Hfl. split; [now apply Hall | now apply Hfresh].
  - intros Hnd r a Hr Hnot Ha. destruct (succeeded res).
    + injection Hc as _ <-. contradiction.
    + apply cascade_complete in Hc;
        [|assumption|pose proof (count_waiting_le (blocked s)); lia].
      destruct Hc as (_ & HB & _). eapply HB; eassumption.
  - exact Hout.
  - destruct (succeeded res).
    + injection Hc as <- _. constructor.
    + now apply cascade_records in Hc.
  - intros Hfail Hnd r a Hr Ha Hn. rewrite Hfail in Hc.
    apply cascade_complete in Hc;
      [|assumption|pose proof (count_waiting_le (blocked s)); lia].
    destruct Hc as (_ & _ & _ & HD). now apply (HD r a).
  - exact Hdups.
Qed.

(** C10: the actions a callback frees are launched under the key of
    the action that finished with only the project replaced, so under
    its group and not their own: the promises of the callback are the
    launches of these keys; each of these keys is in the registry when
    the callback returns, and the invoker has been called with it
    unless it was registered before; every key the callback registers
    carries the action and the group of the finished action; and the
    invoker reports the group of the key it is given and resolves the
    command of that group, or of the wildcard group when the action
    has no such group: whenever the action has one of the two, the
    invoker returns a record with the group of the key and that
    command. *)
Theorem C10_freed_action_inherits_group (k : GroupKey) (res : ActionOutput)
    (s : Pool) kids removed s' :
  then_callback k res s = (Awaiting res kids removed, s') ->
  (exists freed,
     Forall2 launched_as
       (map (fun a => mkKey (w_project a) (action k) (group k)) freed) kids /\
     (forall a, In a freed ->
        exists r, waiting (blocked s) r /\ items s' !! r = Some a /\
                  w_needs a = Some []) /\
     (forall a, In a freed ->
        In (mkKey (w_project a) (action k) (group k)) (begun s') /\
        (~ In (mkKey (w_project a) (action k) (group k)) (begun s) ->
         In (mkKey (w_project a) (action k) (group k)) (invoked s'))))
  /\ (forall k', In k' (begun s') ->
        In k' (begun s) \/ (action k' = action k /\ group k' = group k))
  /\ (forall getDir spawn config key out,
        runAction getDir spawn config key = inr out ->
        o_group out = group key /\
        exists p a,
          get (projects config) (project key) = Some p /\
          get (p_actions p) (action key) = Some a /\
          cmd out = match get (groups a) (group key) with
                    | Some c => Some c
                    | None => get (groups a) "*"
                    end)
  /\ (forall getDir spawn config key p a c,
        get (projects config) (project key) = Some p ->
        get (p_actions p) (action key) = Some a ->
        get (groups a) (group key) = Some c \/
        (get (groups a) (group key) = None /\ inherited (group key) = false /\
         get (groups a) "*" = Some c) ->
        exists out,
          runAction getDir spawn config key = inr out /\
          o_group out = group key /\ cmd out = Some c).
Proof.
  intros H. split; [|split; [|split]].
  - pose proof (then_callback_effects _ _ _ _ _ _ H)
      as (new & Hinv & _ & Hfl & _).
    apply then_callback_freed in H.
    destruct H as (blk1 & freed & He & _ & Hshape & Hfreed & Hitems & _
                   & Hreg & _ & Hfresh & _).
    exists freed. split; [exact Hshape|]. split.
    + intros a Ha. apply Hfreed in Ha. destruct Ha as (r & Hr & Hlook & Hn).
      exists r. split; [eapply emptied_waiting; eassumption|].
      split; [|assumption]. now rewrite Hitems.
    + intros a Ha.
      assert (Hkey : In (freed_key k a) (map (freed_key k) freed))
        by (apply in_map; exact Ha).
      split; [exact (Hreg _ Hkey)|].
      intros Hnew. rewrite Hinv, <- Hfl. apply in_or_app. right.
      now apply (Hfresh _ Hkey).
  - apply then_callback_effects in H.
    destruct H as (new & _ & Hb & _ & _ & _ & Hnew).
    intros k' Hk'. rewrite Hb in Hk'. apply in_app_or in Hk'.
    destruct Hk' as [Hk'|Hk']; [now left | right; now apply Hnew].
  - intros getDir spawn config key out Hrun. unfold runAction in Hrun.
    destruct (get (projects config) (project key)) as [p|]; [|discriminate].
    simpl in Hrun.
    destruct (get (p_actions p) (action key)) as [a|] eqn:Ha; [|discriminate].
    simpl in Hrun.
    destruct (get (groups a) (group key)) as [c|] eqn:Hg; simpl in Hrun.
    + injection Hrun as <-. simpl. split; [reflexivity|].
      exists p, a. rewrite Hg. auto.
    + destruct (inherited (group key)); [discriminate|].
      destruct (get (groups a) "*") as [c|] eqn:Hw; [|discriminate].
      injection Hrun as <-. simpl. split; [reflexivity|].
      exists p, a. rewrite Hg. auto.
  - intros getDir spawn config key p a c Hp Ha Hc. unfold runAction.
    rewrite Hp. simpl. rewrite Ha. simpl.
    destruct Hc as [Hc|(Hc & Hown & Hstar)].
    + rewrite Hc. simpl. eexists. split; [reflexivity|]. simpl. auto.
    + rewrite Hc, Hown, Hstar. simpl. eexists. split; [reflexivity|]. simpl. auto.
Qed.

(** In the chain, C finishes under the group g and frees A and B; B,
    whose own group is the wildcard, is launched and registered under
    g. *)
Lemma C10_witness :
  exists freed,
    Forall2 launched_as
      (map (fun a => mkKey (w_project a) "build" "g") freed)
      [Invoking (mkKey "A" "build" "g"); Invoking (mkKey "B" "build" "g")] /\
    (forall a, In a freed ->
       exists r,
         waiting [Some 0; Some 1] r /\
         [ mkItem "A" "build" "g" [("g", ["echo"; "a"])] None (Some []);
           mkItem "B" "build" "*" [("*", ["echo"; "b"])] None (Some []);
           mkItem "C" "build" "g" [("g", ["echo"; "c"])] None (Some []) ] !! r
         = Some a /\
         w_needs a = Some []) /\
    (forall a, In a freed ->
       In (mkKey (w_project a) "build" "g")
          [mkKey "C" "build" "g"; mkKey "A" "build" "g"; mkKey "B" "build" "g"] /\
       (~ In (mkKey (w_project a) "build" "g") [mkKey "C" "build" "g"] ->
        In (mkKey (w_project a) "build" "g")
           [mkKey "C" "build" "g"; mkKey "A" "build" "g"; mkKey "B" "build" "g"])).
Proof.
  exact (proj1
    (C10_freed_action_inherits_group (mkKey "C" "build" "g")
       (succeed (mkKey "C" "build" "g"))
       (mkPool
          [ mkItem "A" "build" "g" [("g", ["echo"; "a"])] None (Some ["C"]);
            mkItem "B" "build" "*" [("*", ["echo"; "b"])] None (Some ["C"]);
            mkItem "C" "build" "g" [("g", ["echo"; "c"])] None (Some []) ]
          [Some 0; Some 1] [mkKey "C" "build" "g"] [mkKey "C" "build" "g"])
       _ _ _ eq_refl)).
Defined.

(** B, launched under the group g it does not declare, runs the command
    of its wildcard group. *)
Example runAction_falls_back_on_wildcard :
  runAction (fun cwd remote => cwd ++ "/" ++ remote)%string
    (fun _ _ => mkSpawned (Some "b") None (Some 0%Z) None)
    Chain.plain (mkKey "B" "build" "g")
  = inr (mkOutput "B" "build" "g" (Some "b") (Some "") (Some 0%Z) None
           (Some "/work/git@b") (Some ["echo"; "b"]) None false).
Proof. reflexivity. Qed.

(** ** Failure *)

Lemma needs_project_In (w : WorkItem) (name : string) :
  needs_project w name = true <->
  exists ns, w_needs w = Some ns /\ In name ns.
Proof.
  unfold needs_project. destruct (w_needs w) as [ns|].
  - rewrite includes_In. split; [eauto | intros [ns' [H1 H2]]; congruence].
  - split; [discriminate | intros [ns' [H1 H2]]; discriminate].
Qed.

(** The callback of a failed invocation.  B is in [blockedActions] and
    needs A when the invocation of A settles as a failure: the callback
    returns the record of B with [wasSkippedBy] set to A; every record
    of the cascade is attributed to a project the skipped action itself
    needs, which is A or the project of another skipped action; and
    from then on no call of the invoker is ever made for B. *)
Lemma failed_callback_skips_dependents (f : GroupKey -> ActionOutput)
    (its : list WorkItem) (s : Pool) (k : GroupKey) (r : nat) (b : WorkItem)
    (ns : list string) kids removed s' :
  List.NoDup (map w_project its) ->
  reaches f (initial_pool its) s ->
  then_callback k (f k) s = (Awaiting (f k) kids removed, s') ->
  succeeded (f k) = false -> o_project (f k) = project k ->
  waiting (blocked s) r -> items s !! r = Some b ->
  w_needs b = Some ns -> In (project k) ns ->
  In (skipped_record b (project k)) removed /\
  wasSkippedBy (skipped_record b (project k)) = Some (project k) /\
  Forall (attributed (items s) (blocked s) (project k)) removed /\
  forall s'', reaches f s' s'' ->
    forall k', In k' (invoked s'') -> project k' <> w_project b.
Proof.
  intros Hnd Hreach Hcb Hfail Hproj Hr Hb Hns Hk.
  pose proof (reaches_initial f its s Hreach) as (Hprojs & Hrefs & _).
  pose proof (then_callback_spec _ _ _ _ _ _ Hcb)
    as (blk1 & freed & Hc & He & Hf & _).
  rewrite Hfail, Hproj in Hc.
  pose proof (cascade_records _ _ _ _ _ _ Hc) as [_ Hattr].
  apply cascade_complete in Hc;
    [|assumption|pose proof (count_waiting_le (blocked s)); lia].
  destruct Hc as (_ & _ & _ & HD).
  assert (Hneeds : needs_project b (project k) = true).
  { apply needs_project_In. eauto. }
  destruct (HD r b Hr Hb Hneeds) as [Hrec Hgone].
  split; [assumption|]. split; [reflexivity|]. split; [assumption|].
  assert (Hstep : pool_step f s s') by (eapply step_settle; exact Hcb).
  assert (Hparked : parked s' r b).
  { apply free_actions_spec in Hf.
    destruct Hf as (_ & _ & Hout & He' & _).
    split; [|split].
    - intros Hx. apply Hgone. eapply emptied_waiting; eassumption.
    - rewrite (Hout r Hgone). assumption.
    - unfold needs_length. rewrite Hns. destruct ns; [contradiction | simpl; lia]. }
  intros s'' Hreach' k' Hk' Hsame.
  assert (Hall : reaches f (initial_pool its) s'').
  { eapply reaches_trans; [|exact Hreach'].
    eapply reaches_step; eassumption. }
  pose proof (reaches_initial f its s'' Hall) as (Hprojs' & _ & _ & _ & Helig).
  eapply (parked_not_eligible s'' r b k').
  - now rewrite Hprojs'.
  - exact (reaches_parked f s' s'' r b Hreach' Hparked).
  - assumption.
  - now apply Helig.
Qed.

(** ** Every work item is accounted for *)

Lemma getUniquePriorities_spec (its : list WorkItem) :
  forall carry,
    List.NoDup carry ->
    List.NoDup
      (fold_left
         (fun carry a =>
            if existsb (Z.eqb (priority_or_0 a)) carry then carry
            else carry ++ [priority_or_0 a])
         its carry) /\
    forall a, In a its \/ In (priority_or_0 a) carry ->
      In (priority_or_0 a)
        (fold_left
           (fun carry a =>
              if existsb (Z.eqb (priority_or_0 a)) carry then carry
              else carry ++ [priority_or_0 a])
           its carry).
Proof.
  induction its as [|x its IH]; simpl; intros carry Hnd.
  - split; [assumption|]. intros a [[]|H]. exact H.
  - destruct (existsb (Z.eqb (priority_or_0 x)) carry) eqn:Hx.
    + destruct (IH carry Hnd) as [H1 H2]. split; [assumption|].
      intros a [[<-|Ha]|Ha]; apply H2; auto.
      right. apply existsb_exists in Hx. destruct Hx as [p [Hp Heq]].
      apply Z.eqb_eq in Heq. now subst.
    + assert (Hnd' : List.NoDup (carry ++ [priority_or_0 x])).
      { apply List.NoDup_app; [assumption | repeat constructor; intros [] |].
        intros p Hp [<-|[]].
        assert (existsb (Z.eqb (priority_or_0 x)) carry = true); [|congruence].
        apply existsb_exists. exists (priority_or_0 x).
        split; [assumption | apply Z.eqb_refl]. }
      destruct (IH _ Hnd') as [H1 H2]. split; [assumption|].
      intros a [[<-|Ha]|Ha]; apply H2; auto; right; apply in_or_app; auto.
      right. now left.
Qed.

Lemma getUniquePriorities_NoDup (its : list WorkItem) :
  List.NoDup (getUniquePriorities its).
Proof. apply getUniquePriorities_spec. constructor. Qed.

Lemma getUniquePriorities_complete (its : list WorkItem) (a : WorkItem) :
  In a its -> In (priority_or_0 a) (getUniquePriorities its).
Proof. intros H. apply getUniquePriorities_spec; [constructor | now left]. Qed.

Lemma unique_index (l : list WorkItem) (i j : nat) (a b : WorkItem) :
  List.NoDup (map w_project l) ->
  l !! i = Some a -> l !! j = Some b -> w_project a = w_project b -> i = j.
Proof.
  intros Hnd Ha Hb Hp. apply NoDup_ListNoDup in Hnd.
  apply (NoDup_lookup _ i j (w_project a) Hnd).
  - now rewrite list_lookup_fmap, Ha.
  - rewrite list_lookup_fmap, Hb. simpl. congruence.
Qed.

Lemma lookup_In (l : list WorkItem) (i : nat) (a : WorkItem) :
  l !! i = Some a -> In a l.
Proof. intros H. apply list_elem_of_In. eapply list_elem_of_lookup_2, H. Qed.

Lemma In_lookup (l : list WorkItem) (a : WorkItem) :
  In a l -> exists i, l !! i = Some a.
Proof. intros H. now apply list_elem_of_In, list_elem_of_lookup in H. Qed.

Lemma needs_project_strip (fin : string) (a : WorkItem) (n : string) :
  needs_project (strip fin a) n = true <->
  needs_project a n = true /\ n <> fin.
Proof.
  unfold needs_project, strip. simpl. destruct (w_needs a) as [ns|]; simpl.
  - rewrite !includes_In. apply without_In.
  - split; [discriminate | intros [H _]; discriminate].
Qed.

Section Unchanged.

Variable f : GroupKey -> ActionOutput.

Lemma pool_step_needs s s' r a' :
  pool_step f s s' -> items s' !! r = Some a' ->
  exists a, items s !! r = Some a /\ w_project a' = w_project a /\
            forall n, needs_project a' n = true -> needs_project a n = true.
Proof.
  intros Hstep Ha'. destruct (pool_step_items f _ _ Hstep) as [_ Hitems].
  destruct (Hitems r) as [_ [Heq|[fin Heq]]]; rewrite Heq in Ha'.
  - exists a'. auto.
  - destruct (items s !! r) as [a|]; [|discriminate]. simpl in Ha'.
    injection Ha' as <-. exists a. split; [reflexivity|]. split; [reflexivity|].
    intros n Hn. now apply needs_project_strip in Hn.
Qed.

Lemma reaches_needs s s' r a' :
  reaches f s s' -> items s' !! r = Some a' ->
  exists a, items s !! r = Some a /\ w_project a' = w_project a /\
            forall n, needs_project a' n = true -> needs_project a n = true.
Proof.
  intros H. revert a'. induction H as [|s1 s2 s3 _ IH Hstep]; intros a' Ha'.
  - exists a'. auto.
  - destruct (pool_step_needs _ _ _ _ Hstep Ha') as (a2 & Ha2 & Hp2 & Hn2).
    destruct (IH _ Ha2) as (a1 & Ha1 & Hp1 & Hn1).
    exists a1. split; [assumption|]. split; [congruence | auto].
Qed.

Lemma reaches_unchanged s s' r :
  reaches f s s' -> ~ waiting (blocked s) r -> items s' !! r = items s !! r.
Proof.
  induction 1 as [|s1 s2 s3 H12 IH Hstep]; intros Hr; [reflexivity|].
  destruct (pool_step_items f _ _ Hstep) as [_ Hitems].
  destruct (Hitems r) as [Hsame _]. rewrite Hsame; [auto|].
  intros Hx. apply Hr. eapply emptied_waiting; [|exact Hx].
  apply (reaches_blocked f _ _ H12).
Qed.

Lemma reaches_length s s' :
  reaches f s s' -> length (items s') = length (items s).
Proof.
  induction 1 as [|s1 s2 s3 _ IH Hstep]; [reflexivity|].
  destruct (pool_step_items f _ _ Hstep) as [Hlen _]. congruence.
Qed.

(** In a run, an action that needed nothing when selected is never
    touched, and an action in [blockedActions] needed something. *)
Lemma run_state_items (its : list WorkItem) (s : Pool) :
  reaches f (initial_pool its) s ->
  (forall i a, its !! i = Some a -> needs_length a = 0 ->
     items s !! i = Some a /\ ~ waiting (blocked s) i) /\
  (forall r, waiting (blocked s) r ->
     exists a0 a, its !! r = Some a0 /\ 0 < needs_length a0 /\
                  items s !! r = Some a /\ w_project a = w_project a0 /\
                  forall n, needs_project a n = true -> needs_project a0 n = true).
Proof.
  intros H.
  assert (Hinit : forall r, waiting (blocked_refs 0 its) r ->
            exists a0, its !! r = Some a0 /\ 0 < needs_length a0).
  { intros r Hr. apply waiting_refs, blocked_refs_spec in Hr.
    destruct Hr as [_ Hr]. now rewrite Nat.sub_0_r in Hr. }
  split.
  - intros i a Ha Hn.
    assert (Hnot : ~ waiting (blocked (initial_pool its)) i).
    { intros Hx. apply Hinit in Hx. destruct Hx as (a0 & Ha0 & Hn0).
      assert (a0 = a) by congruence. subst. lia. }
    split.
    + rewrite (reaches_unchanged _ _ _ H Hnot). exact Ha.
    + intros Hx. apply Hnot. eapply emptied_waiting; [|exact Hx].
      apply (reaches_blocked f _ _ H).
  - intros r Hr.
    assert (Hr0 : waiting (blocked_refs 0 its) r).
    { eapply emptied_waiting; [|exact Hr]. apply (reaches_blocked f _ _ H). }
    destruct (Hinit r Hr0) as (a0 & Ha0 & Hn0).
    assert (Hlt : r < length (items s)).
    { rewrite (reaches_length _ _ H). simpl. eapply lookup_lt_Some, Ha0. }
    apply lookup_lt_is_Some in Hlt. destruct Hlt as [a Ha].
    destruct (reaches_needs _ _ _ _ H Ha) as (a1 & Ha1 & Hp & Hsub).
    simpl in Ha1. assert (a1 = a0) by congruence. subst a1.
    exists a0, a. auto.
Qed.

End Unchanged.

Section Accounting.

Variable f : GroupKey -> ActionOutput.
Variable its : list WorkItem.
Variable rank : string -> nat.

(** The invoker reports the project of the key it was called with, as
    [runAction] does. *)
Hypothesis faithful : forall k, o_project (f k) = project k.

(** The work items of a valid configuration: one item per project, and
    every need names a work item of lower rank (the needs are closed
    and acyclic). *)
Hypothesis unique : List.NoDup (map w_project its).
Hypothesis closed :
  forall a ns n, In a its -> w_needs a = Some ns -> In n ns ->
    In n (map w_project its) /\ rank n < rank (w_project a).

Lemma run_inv_initial :
  run_inv f its (getUniquePriorities its) [] [] (initial_pool its).
Proof.
  split; [apply reaches_refl|]. split; [apply getUniquePriorities_NoDup|].
  split; [intros i a _ _ _ k []|]. split.
  - intros r a Hr Ha. simpl in *. split; [|intros k []].
    apply waiting_refs, blocked_refs_spec in Hr.
    destruct Hr as [_ (a' & Ha' & Hn)]. rewrite Nat.sub_0_r in Ha'.
    assert (a' = a) by congruence. subst a'.
    unfold needs_length in Hn. destruct (w_needs a) as [ns|] eqn:Hns; [|lia].
    exists ns. split; [reflexivity|]. split; [destruct ns; [simpl in Hn; lia | discriminate]|].
    intros n Hn'. destruct (closed a ns n (lookup_In _ _ _ Ha) Hns Hn') as [Hin _].
    apply in_map_iff in Hin. destruct Hin as [b [Hb Hbin]].
    destruct (In_lookup _ _ Hbin) as [j Hj].
    destruct (Nat.eq_dec (needs_length b) 0) as [Hz|Hnz].
    + left. exists j, b. repeat split; auto.
      now apply getUniquePriorities_complete.
    + right. left. exists j, b. split; [|auto].
      apply (blocked_refs_complete its 0 j b Hj). lia.
  - intros i a Ha. destruct (Nat.eq_dec (needs_length a) 0) as [Hz|Hnz].
    + left. split; [assumption|].
      apply getUniquePriorities_complete. eapply lookup_In, Ha.
    + right. left. apply (blocked_refs_complete its 0 i a Ha). lia.
Qed.

Lemma tier_keys (p : Z) (s : Pool) (k : GroupKey) :
  In k (map item_key (List.filter (in_tier p) (items s))) <->
  exists j a, items s !! j = Some a /\ k = item_key a /\
              priority_or_0 a = p /\ needs_length a = 0.
Proof.
  rewrite in_map_iff. split.
  - intros [a [<- Ha]]. apply filter_In in Ha. destruct Ha as [Hin Ht].
    destruct (In_lookup _ _ Hin) as [j Hj].
    unfold in_tier in Ht. apply andb_true_iff in Ht. destruct Ht as [H1 H2].
    apply Z.eqb_eq in H1. apply Nat.eqb_eq in H2. eauto 8.
  - intros (j & a & Hj & -> & Hp & Hn). exists a. split; [reflexivity|].
    apply filter_In. split; [eapply lookup_In, Hj|].
    unfold in_tier. rewrite Hp, Hn, Z.eqb_refl. reflexivity.
Qed.

Lemma run_inv_launch p todo recs s ps s1 :
  run_inv f its (p :: todo) [] recs s ->
  launch (map item_key (List.filter (in_tier p) (items s))) s = (ps, s1) ->
  run_inv f its todo (inflight_all ps) (recs ++ outputs ps) s1.
Proof.
  intros (Hreach & Hnd & Hfresh & Hblk & Hacc) Hl.
  pose proof (run_state_items f its s Hreach) as [Hfree Hwait].
  pose proof (reaches_initial f its s Hreach) as (Hprojs & _).
  assert (Huniq : List.NoDup (map w_project (items s))) by now rewrite Hprojs.
  assert (Hreach1 : reaches f (initial_pool its) s1).
  { eapply reaches_step; [exact Hreach|]. eapply step_launch; [|exact Hl].
    intros a Ha. apply filter_In in Ha. destruct Ha as [Hin Ht]. split; [assumption|].
    unfold in_tier in Ht. apply andb_true_iff in Ht. destruct Ht as [_ Ht].
    now apply Nat.eqb_eq in Ht. }
  apply launch_spec in Hl.
  destruct Hl as (Hi & Hb & new & Hbeg & _ & Hfl & Hnew & Hfr & _ & Hall & _).
  apply List.NoDup_cons_iff in Hnd. destruct Hnd as [Hp Hnd'].
  assert (Hlaunched : forall i a, its !! i = Some a -> needs_length a = 0 ->
            priority_or_0 a = p -> In (item_key a) new).
  { intros i a Ha Hn Hprio. apply Hfr.
    - apply tier_keys. exists i, a. destruct (Hfree i a Ha Hn). auto.
    - intros Hx. apply (Hfresh i a Ha Hn (or_introl (eq_sym Hprio)) _ Hx).
      reflexivity. }
  split; [assumption|]. split; [assumption|]. split; [|split].
  - intros i a Ha Hn Hprio k Hk Hsame. rewrite Hbeg in Hk.
    apply in_app_or in Hk. destruct Hk as [Hk|Hk].
    + eapply (Hfresh i a); eauto. now right.
    + apply Hnew in Hk. destruct Hk as [Hk _]. apply tier_keys in Hk.
      destruct Hk as (j & a' & Hj & -> & Hp' & Hn').
      destruct (Hfree i a Ha Hn) as [Hia _].
      assert (j = i) by (eapply unique_index; eauto). subst j.
      assert (a' = a) by congruence. subst a'. congruence.
  - intros r a Hr Ha. rewrite Hb in Hr. rewrite Hi in Ha.
    destruct (Hblk r a Hr Ha) as [(ns & Hns & Hne & Halive) Hnb].
    split.
    + exists ns. split; [assumption|]. split; [assumption|].
      intros n Hn. destruct (Halive n Hn)
        as [(i & b & Hib & Hpb & Hnb' & [Hprio|Hprio])
           |[(r' & a' & Hr' & Ha' & Hp')|(k & [] & _)]].
      * right. right. exists (item_key b). rewrite Hfl. split; [|assumption].
        eapply Hlaunched; eauto.
      * left. exists i, b. auto.
      * right. left. exists r', a'. rewrite Hb, Hi. auto.
    + intros k Hk Hsame. rewrite Hbeg in Hk. apply in_app_or in Hk.
      destruct Hk as [Hk|Hk]; [eapply Hnb; eauto|].
      apply Hnew in Hk. destruct Hk as [Hk _]. apply tier_keys in Hk.
      destruct Hk as (j & a' & Hj & -> & Hp' & Hn').
      assert (j = r) by (eapply unique_index; eauto). subst j.
      assert (a' = a) by congruence. subst a'.
      unfold needs_length in Hn'. rewrite Hns in Hn'.
      apply length_zero_iff_nil in Hn'. contradiction.
  - intros i a Ha. destruct (Hacc i a Ha)
      as [[Hn [Hprio|Hprio]]|[Hw|[(k & [] & _)|(rec & Hrec & Hp')]]].
    + assert (Hk : In (item_key a)
                (map item_key (List.filter (in_tier p) (items s)))).
      { apply tier_keys. exists i, a. destruct (Hfree i a Ha Hn). auto. }
      destruct (Hall _ Hk) as [Hk'|Hk'].
      * right. right. left. exists (item_key a). rewrite Hfl. auto.
      * right. right. right. exists (duplicate_record (item_key a)).
        split; [apply in_or_app; now right | reflexivity].
    + left. auto.
    + right. left. now rewrite Hb.
    + right. right. right. exists rec. split; [apply in_or_app; now left | assumption].
Qed.

Lemma strip_lookup (fin : string) (l : list WorkItem) (r : nat) (a' : WorkItem) :
  strip fin <$> l !! r = Some a' ->
  exists a, l !! r = Some a /\ a' = strip fin a.
Proof.
  destruct (l !! r) as [a|]; simpl; [|discriminate].
  intros H. injection H as <-. eauto.
Qed.

Lemma run_inv_settle todo fl recs s fl' recs' s' :
  run_inv f its todo fl recs s -> settles f fl fl' recs recs' s s' ->
  run_inv f its todo fl' recs' s'.
Proof.
  intros (Hreach & Hnd & Hfresh & Hblk & Hacc)
         (k & l1 & l2 & kids & removed & -> & Hcb & -> & Hperm).
  pose proof (run_state_items f its s Hreach) as [Hfree Hwait].
  pose proof (reaches_initial f its s Hreach) as (Hprojs & Hrefs & _).
  assert (Huniq : List.NoDup (map w_project (items s))) by now rewrite Hprojs.
  assert (Hreach' : reaches f (initial_pool its) s').
  { eapply reaches_step; [exact Hreach | eapply step_settle, Hcb]. }
  pose proof (then_callback_freed _ _ _ _ _ _ Hcb)
    as (blk1 & freed & He & _ & _ & Hfreed & Hitems & Hblk' & _ & Hbeg
        & Hlaunch & Hcascade & _).
  specialize (Hcascade Hrefs).
  assert (Hrecs : forall rec,
            In rec (recs ++ f k :: outputs kids ++ removed) -> In rec recs').
  { intros rec. apply Permutation_in. now symmetry. }
  (* a freed action: blocked before, launched now *)
  assert (Hfreed_key : forall r a, waiting blk1 r -> items s !! r = Some a ->
            w_needs (strip (project k) a) = Some [] ->
            In (freed_key k a) (map (freed_key k) freed)).
  { intros r a Hr Ha Hn. apply in_map_iff. exists (strip (project k) a).
    split; [reflexivity|]. apply Hfreed. exists r. rewrite Ha. auto. }
  (* an action that stays blocked *)
  assert (Hstays : forall r a, waiting blk1 r -> items s !! r = Some a ->
            w_needs (strip (project k) a) <> Some [] ->
            waiting (blocked s') r /\ items s' !! r = Some (strip (project k) a)).
  { intros r a Hr Ha Hn. split.
    - apply Hblk'. split; [assumption|]. intros a' Ha'.
      rewrite Ha in Ha'. injection Ha' as <-. assumption.
    - rewrite (Hitems r Hr), Ha. reflexivity. }
  assert (Hnew_keys : forall k', In k' (map (freed_key k) freed) ->
            exists r a, waiting (blocked s) r /\ waiting blk1 r /\
                        items s !! r = Some a /\ project k' = w_project a /\
                        w_needs (strip (project k) a) = Some []).
  { intros k' Hk'. apply in_map_iff in Hk'. destruct Hk' as [a' [<- Ha']].
    apply Hfreed in Ha'. destruct Ha' as (r & Hr & Hlook & Hn).
    apply strip_lookup in Hlook. destruct Hlook as (a & Ha & ->).
    exists r, a. split; [eapply emptied_waiting; eassumption|]. auto. }
  split; [assumption|]. split; [assumption|]. split; [|split].
  - (* the tiers to come have not begun *)
    intros i a Ha Hn Hprio k' Hk' Hsame.
    apply Hbeg in Hk'. destruct Hk' as [Hk'|Hk'].
    + eapply (Hfresh i a); eauto.
    + destruct (Hnew_keys _ Hk') as (r & b & Hr & _ & Hb & Hp & _).
      destruct (Hfree i a Ha Hn) as [Hia Hnw].
      assert (r = i) by (eapply unique_index; eauto; congruence).
      subst r. contradiction.
  - (* the actions still blocked *)
    intros r a' Hr' Ha'.
    apply Hblk' in Hr'. destruct Hr' as [Hr1 Hne].
    rewrite (Hitems r Hr1) in Ha'.
    apply strip_lookup in Ha'. destruct Ha' as (a & Ha & ->).
    assert (Hr : waiting (blocked s) r) by (eapply emptied_waiting; eassumption).
    destruct (Hblk r a Hr Ha) as [(ns & Hns & _ & Halive) Hnb].
    assert (Hne' : w_needs (strip (project k) a) <> Some []).
    { apply Hne. now rewrite Ha. }
    split.
    + exists (without (project k) ns). unfold strip at 1. simpl. rewrite Hns. simpl.
      split; [reflexivity|]. split.
      { intros Hx. apply Hne'. unfold strip. simpl. rewrite Hns. simpl. now rewrite Hx. }
      intros n Hn. apply without_In in Hn. destruct Hn as [Hn Hneq].
      destruct (Halive n Hn)
        as [Hc1|[(r2 & a2 & Hr2 & Ha2 & Hp2)|(k0 & Hk0 & Hp0)]].
      * left. exact Hc1.
      * destruct (waiting_dec blk1 r2) as [Hw2|Hw2].
        -- destruct (w_needs (strip (project k) a2)) as [[|n0 ns0]|] eqn:Hn2.
           ++ right. right. exists (freed_key k a2). split; [|assumption].
              apply in_or_app. right. apply in_or_app. left.
              apply Hlaunch; [eapply Hfreed_key; eassumption|].
              intros Hx. destruct (Hblk r2 a2 Hr2 Ha2) as [_ Hnb2].
              apply (Hnb2 _ Hx). reflexivity.
           ++ right. left. exists r2, (strip (project k) a2).
              destruct (Hstays r2 a2 Hw2 Ha2) as [H1 H2]; [congruence|]. auto.
           ++ right. left. exists r2, (strip (project k) a2).
              destruct (Hstays r2 a2 Hw2 Ha2) as [H1 H2]; [congruence|]. auto.
        -- exfalso. destruct (Hcascade r2 a2 Hr2 Hw2 Ha2) as [_ Hclosed].
           specialize (Hclosed r a Hr1 Ha). rewrite Hp2 in Hclosed.
           assert (needs_project a n = true); [|congruence].
           apply needs_project_In. eauto.
      * apply in_app_or in Hk0. destruct Hk0 as [Hk0|[<-|Hk0]].
        -- right. right. exists k0. split; [apply in_or_app; now left | assumption].
        -- congruence.
        -- right. right. exists k0. split; [|assumption].
           apply in_or_app. right. apply in_or_app. now right.
    + intros k' Hk' Hsame. apply Hbeg in Hk'. destruct Hk' as [Hk'|Hk'].
      * now apply (Hnb k' Hk').
      * destruct (Hnew_keys _ Hk') as (r3 & b & Hr3 & _ & Hb & Hp & Hn3).
        assert (r3 = r) by (eapply unique_index; eauto; simpl in Hsame; congruence).
        subst r3. assert (b = a) by congruence. subst b. contradiction.
  - (* every work item *)
    intros i a Ha.
    destruct (Hacc i a Ha)
      as [Hc1|[Hw|[(k0 & Hk0 & Hp0)|(rec & Hrec & Hp')]]].
    + left. exact Hc1.
    + destruct (Hwait i Hw) as (a0 & a1 & Ha0 & _ & Ha1 & Hp1 & _).
      assert (a0 = a) by congruence. subst a0.
      destruct (waiting_dec blk1 i) as [Hw1|Hw1].
      * destruct (w_needs (strip (project k) a1)) as [[|n0 ns0]|] eqn:Hn1.
        -- destruct (Hlaunch (freed_key k a1)) as [[Hfl|Hdup] _];
             [eapply Hfreed_key; eassumption| |].
           ++ right. right. left. exists (freed_key k a1). split; [|assumption].
              apply in_or_app. right. apply in_or_app. now left.
           ++ right. right. right. exists (duplicate_record (freed_key k a1)).
              split; [|assumption]. apply Hrecs.
              apply in_or_app. right. right. apply in_or_app. now left.
        -- right. left. apply (Hstays i a1 Hw1 Ha1). congruence.
        -- right. left. apply (Hstays i a1 Hw1 Ha1). congruence.
      * destruct (Hcascade i a1 Hw Hw1 Ha1) as [[q Hq] _].
        right. right. right. exists (skipped_record a1 q). split; [|assumption].
        apply Hrecs. apply in_or_app. right. right. apply in_or_app. now right.
    + apply in_app_or in Hk0. destruct Hk0 as [Hk0|[<-|Hk0]].
      * right. right. left. exists k0. split; [apply in_or_app; now left | assumption].
      * right. right. right. exists (f k). split; [|now rewrite faithful].
        apply Hrecs. apply in_or_app. right. now left.
      * right. right. left. exists k0. split; [|assumption].
        apply in_or_app. right. apply in_or_app. now right.
    + right. right. right. exists rec. split; [|assumption].
      apply Hrecs. apply in_or_app. now left.
Qed.

Lemma run_inv_none_blocked recs s :
  run_inv f its [] [] recs s ->
  forall m r a0, waiting (blocked s) r -> its !! r = Some a0 ->
    rank (w_project a0) < m -> False.
Proof.
  intros (Hreach & _ & _ & Hblk & _).
  pose proof (run_state_items f its s Hreach) as [_ Hwait].
  induction m as [|m IH]; intros r a0 Hr Ha0 Hm; [lia|].
  destruct (Hwait r Hr) as (a0' & a & Ha0' & _ & Ha & _ & Hsub).
  assert (a0' = a0) by congruence. subst a0'.
  destruct (Hblk r a Hr Ha) as [(ns & Hns & Hne & Halive) _].
  destruct ns as [|n ns]; [contradiction|].
  destruct (Halive n (or_introl eq_refl))
    as [(i & b & _ & _ & _ & [])|[(r2 & a2 & Hr2 & Ha2 & Hp2)|(k & [] & _)]].
  destruct (Hwait r2 Hr2) as (a02 & a2' & Ha02 & _ & Ha2' & Hp02 & _).
  assert (a2' = a2) by congruence. subst a2'.
  assert (Hn0 : needs_project a0 n = true).
  { apply Hsub. apply needs_project_In. exists (n :: ns). split; [assumption | now left]. }
  apply needs_project_In in Hn0. destruct Hn0 as (ns0 & Hns0 & Hin0).
  destruct (closed a0 ns0 n (lookup_In _ _ _ Ha0) Hns0 Hin0) as [_ Hrank].
  apply (IH r2 a02 Hr2 Ha02). rewrite <- Hp02, Hp2. lia.
Qed.

Lemma run_inv_final recs s :
  run_inv f its [] [] recs s ->
  forall a, In a its -> exists rec, In rec recs /\ o_project rec = w_project a.
Proof.
  intros Hinv a Ha. destruct (In_lookup _ _ Ha) as [i Hi].
  pose proof Hinv as (_ & _ & _ & _ & Hacc).
  destruct (Hacc i a Hi) as [[_ []]|[Hw|[(k & [] & _)|Hrec]]]; [|exact Hrec].
  exfalso. eapply (run_inv_none_blocked recs s Hinv (S (rank (w_project a))));
    [exact Hw | exact Hi | lia].
Qed.

Lemma run_accounts_for_every_item (sched : list nat) :
  forall a, In a its ->
    exists rec, In rec (fst (run f sched its)) /\ o_project rec = w_project a.
Proof.
  apply (run_inv_final _ (snd (run f sched its))).
  apply (run_ind f (run_inv f its)).
  - apply run_inv_launch.
  - apply run_inv_settle.
  - apply run_inv_initial.
Qed.

End Accounting.

(** C1, as the code has it: for work items with unique project names
    whose needs are closed and acyclic, and an invoker that reports the
    project it ran, the run returns at least one record for every work
    item, hence at least as many records as work items; and every
    record is the record of a call of the invoker, a duplicate record
    or a skip record.  (An action freed before the pass of its own tier
    is launched again by that pass, so the records can outnumber the
    work items.) *)
Theorem C1_every_item_yields_a_record (f : GroupKey -> ActionOutput)
    (sched : list nat) (its : list WorkItem) (rank : string -> nat) :
  (forall k, o_project (f k) = project k) ->
  List.NoDup (map w_project its) ->
  (forall a ns n, In a its -> w_needs a = Some ns -> In n ns ->
     In n (map w_project its) /\ rank n < rank (w_project a)) ->
  (forall a, In a its ->
     exists rec, In rec (fst (run f sched its)) /\ o_project rec = w_project a) /\
  length its <= length (fst (run f sched its)) /\
  exists others,
    Permutation (fst (run f sched its))
      (map f (invoked (snd (run f sched its))) ++ others) /\
    Forall (fun r => is_duplicate r \/ is_skip r) others.
Proof.
  intros Hfaithful Hunique Hclosed.
  pose proof (run_accounts_for_every_item f its rank Hfaithful Hunique Hclosed sched)
    as Hall.
  split; [exact Hall|]. split; [|apply run_records].
  rewrite <- (length_map w_project its),
          <- (length_map o_project (fst (run f sched its))).
  apply NoDup_incl_length; [assumption|].
  intros n Hn. apply in_map_iff in Hn. destruct Hn as [a [<- Ha]].
  destruct (Hall a Ha) as [rec [Hrec <-]]. now apply in_map.
Qed.

Lemma C1_witness :
  length WebApi.selected <= length (fst (run succeed [] WebApi.selected)).
Proof.
  refine (proj1 (proj2
    (C1_every_item_yields_a_record succeed [] WebApi.selected
       (fun n => if String.eqb n "api" then 1 else 0) _ _ _))).
  - intros k. reflexivity.
  - simpl. repeat constructor; simpl; intuition discriminate.
  - intros a ns n [<-|[<-|[]]] Hns Hn; simpl in Hns; injection Hns as <-.
    + destruct Hn.
    + destruct Hn as [<-|[]]. simpl. split; [now left | lia].
Defined.

(** The claim has one record for each work item; web and api are the
    two work items selected and the run returns three records: api,
    freed by web during the pass of the tier 0, is launched again by
    the pass of its own tier. *)
Lemma C1_counterexample :
  getProjectsToRunActionIn WebApi.order 5 WebApi.config "build" "*" ["web"; "api"]
  = inr WebApi.selected /\
  (forall sched,
     fst (run succeed sched WebApi.selected)
     = [ succeed (mkKey "web" "build" "*");
         succeed (mkKey "api" "build" "*");
         duplicate_record (mkKey "api" "build" "*") ]) /\
  ~ one_record_per_item succeed [] WebApi.selected.
Proof.
  split; [reflexivity|]. split; [intros sched; reflexivity|].
  unfold one_record_per_item. simpl. discriminate.
Qed.

(** ** The records of a run, one by one *)

Lemma launch_registers (ks : list GroupKey) s ps s' :
  launch ks s = (ps, s') -> forall k, In k ks -> In k (begun s').
Proof.
  intros Hl k Hk. apply launch_spec in Hl.
  destruct Hl as (_ & _ & new & Hb & _ & _ & _ & Hfresh & _).
  rewrite Hb. apply in_or_app.
  destruct (existsb (key_eqb k) (begun s)) eqn:Hold.
  - left. now apply began_In.
  - right. apply Hfresh; [assumption|].
    intros Hx. apply began_In in Hx. congruence.
Qed.

Lemma skipped_record_same_binding (a b : WorkItem) (q : string) :
  same_binding a b -> skipped_record b q = skipped_record a q.
Proof. intros (Hp & Ha & Hg & _). unfold skipped_record. now rewrite Hp, Ha, Hg. Qed.

Section Attribution.

Variable f : GroupKey -> ActionOutput.
Variable its : list WorkItem.

Lemma pool_step_same_binding s s' r a' :
  pool_step f s s' -> items s' !! r = Some a' ->
  exists a, items s !! r = Some a /\ same_binding a a' /\
            forall n, needs_project a' n = true -> needs_project a n = true.
Proof.
  intros Hstep Ha'. destruct (pool_step_items f _ _ Hstep) as [_ Hitems].
  destruct (Hitems r) as [_ [Heq|[fin Heq]]]; rewrite Heq in Ha'.
  - exists a'. split; [assumption|]. split; [apply same_binding_refl | auto].
  - apply strip_lookup in Ha'. destruct Ha' as (a & Ha & ->).
    exists a. split; [assumption|]. split; [repeat split|].
    intros n Hn. now apply needs_project_strip in Hn.
Qed.

Lemma reaches_same_binding s s' r a' :
  reaches f s s' -> items s' !! r = Some a' ->
  exists a, items s !! r = Some a /\ same_binding a a' /\
            forall n, needs_project a' n = true -> needs_project a n = true.
Proof.
  intros H. revert a'. induction H as [|s1 s2 s3 _ IH Hstep]; intros a' Ha'.
  - exists a'. split; [assumption|]. split; [apply same_binding_refl | auto].
  - destruct (pool_step_same_binding _ _ _ _ Hstep Ha') as (a2 & Ha2 & Hb2 & Hn2).
    destruct (IH _ Ha2) as (a1 & Ha1 & Hb1 & Hn1).
    exists a1. split; [assumption|].
    split; [eapply same_binding_trans; eassumption | auto].
Qed.



End Attribution.

(** ** Failure, over a whole run *)

Section Failing.

Variable f : GroupKey -> ActionOutput.
Variable its : list WorkItem.
Variable failing : string.

Hypothesis faithful : forall k, o_project (f k) = project k.
Hypothesis fails : forall k, project k = failing -> succeeded (f k) = false.




End Failing.




(** The run of the two failed needs, record by record. *)
Example two_failed_needs :
  run TwoNeeds.fail [1] TwoNeeds.selected
  = ([ TwoNeeds.fail (mkKey "A" "build" "*");
       TwoNeeds.fail (mkKey "C" "build" "*");
       skipped_record
         (mkItem "B" "build" "*" [("*", ["echo"; "b"])] None (Some ["A"; "C"])) "C" ],
     mkPool TwoNeeds.selected [None]
       [mkKey "A" "build" "*"; mkKey "C" "build" "*"]
       [mkKey "A" "build" "*"; mkKey "C" "build" "*"]).
Proof. reflexivity. Qed.

(** The same run, record by record: web ran and failed, api is skipped
    by web and ui by api, and only web was invoked. *)
Example three_hops_cascade :
  forall sched,
    run (fail_in "web") sched Hops.selected
    = ([ fail_in "web" (mkKey "web" "build" "*");
         skipped_record
           (mkItem "api" "build" "*" [("*", ["echo"; "api"])] None (Some ["web"])) "web";
         skipped_record
           (mkItem "ui" "build" "*" [("*", ["echo"; "ui"])] None (Some ["api"])) "api" ],
       mkPool Hops.selected [None; None]
         [mkKey "web" "build" "*"] [mkKey "web" "build" "*"]).
Proof. intros sched. reflexivity. Qed.

(** A work item that needs both the failed project and one of its
    dependents is visited twice by the cascade: it gets one skip record
    from each. *)
Example shared_dependent_is_skipped_twice :
  fst (run (fail_in "web") []
         [ mkItem "web" "build" "*" [("*", ["web"])] None (Some []);
           mkItem "api" "build" "*" [("*", ["api"])] None (Some ["web"]);
           mkItem "ui" "build" "*" [("*", ["ui"])] None (Some ["web"; "api"]) ])
  = [ fail_in "web" (mkKey "web" "build" "*");
      skipped_record (mkItem "api" "build" "*" [("*", ["api"])] None (Some ["web"])) "web";
      skipped_record (mkItem "ui" "build" "*" [("*", ["ui"])] None (Some ["web"; "api"])) "api";
      skipped_record (mkItem "ui" "build" "*" [("*", ["ui"])] None (Some ["web"; "api"])) "web" ].
Proof. reflexivity. Qed.

(** ** The pass of a tier *)

Lemma tier_pass_launches (f : GroupKey -> ActionOutput) (prio : Z)
    (sched : list nat) (recs : list ActionOutput) (s : Pool) :
  exists ps s1,
    launch (map item_key (List.filter (in_tier prio) (items s))) s = (ps, s1) /\
    run_tier f (sched, recs, s) prio
    = (let '(sched', ps', s2) := await_all f sched ps s1 in
       (sched', recs ++ concat (map flatten ps'), s2)) /\
    Forall2 launched_as
      (map item_key (List.filter (in_tier prio) (items s))) ps /\
    (forall b, In b (items s) -> priority_or_0 b = prio -> needs_length b = 0 ->
       In (item_key b) (begun s1) /\
       (~ In (item_key b) (begun s) -> In (item_key b) (invoked s1))) /\
    (forall k, In k (invoked s1) ->
       In k (invoked s) \/
       exists b, In b (items s) /\ k = item_key b /\
                 priority_or_0 b = prio /\ needs_length b = 0).
Proof.
  destruct (launch (map item_key (List.filter (in_tier prio) (items s))) s)
    as [ps s1] eqn:Hl.
  exists ps, s1. split; [reflexivity|]. split.
  { unfold run_tier. now rewrite Hl. }
  split; [eapply launch_shape, Hl|].
  pose proof (launch_registers _ _ _ _ Hl) as Hreg.
  apply launch_spec in Hl.
  destruct Hl as (_ & _ & new & _ & Hinv & _ & Hnew & Hfresh & _).
  split.
  - intros b Hb Hp Hn.
    assert (Hkey : In (item_key b)
                     (map item_key (List.filter (in_tier prio) (items s)))).
    { apply in_map, filter_In. split; [assumption|].
      unfold in_tier. now rewrite Hp, Hn, Z.eqb_refl. }
    split; [now apply Hreg|].
    intros Hnot. rewrite Hinv. apply in_or_app. right. now apply Hfresh.
  - intros k Hk. rewrite Hinv in Hk. apply in_app_or in Hk.
    destruct Hk as [Hk|Hk]; [now left | right].
    apply Hnew in Hk. destruct Hk as [Hk _]. apply tier_keys in Hk.
    destruct Hk as (j & a & Hj & -> & Hp & Hn).
    exists a. split; [eapply lookup_In, Hj | auto].
Qed.

Lemma reaches_begun (f : GroupKey -> ActionOutput) (s s' : Pool) :
  reaches f s s' -> forall k, In k (begun s) -> In k (begun s').
Proof.
  induction 1 as [|s1 s2 s3 _ IH Hstep]; [auto|].
  intros k Hk. apply IH in Hk.
  destruct Hstep as [s0 tier ps s1' _ Hl | s0 k0 kids removed s1' Hcb].
  - apply launch_spec in Hl. destruct Hl as (_ & _ & new & Hb & _).
    rewrite Hb. apply in_or_app. now left.
  - apply then_callback_effects in Hcb. destruct Hcb as (new & _ & Hb & _).
    rewrite Hb. apply in_or_app. now left.
Qed.

Lemma fold_tiers_launch (f : GroupKey -> ActionOutput) (its : list WorkItem)
    (prios : list Z) :
  forall sched out s sched' out' s',
    reaches f (initial_pool its) s ->
    fold_left (run_tier f) prios (sched, out, s) = (sched', out', s') ->
    forall i b, its !! i = Some b -> needs_length b = 0 ->
      In (priority_or_0 b) prios -> In (item_key b) (begun s').
Proof.
  induction prios as [|p prios IH]; cbn [fold_left];
    intros sched out s sched' out' s' Hreach H i b Hb Hn Hp; [destruct Hp|].
  destruct (run_tier f (sched, out, s) p) as [[sched1 out1] s1] eqn:Ht.
  assert (Hreach1 : reaches f (initial_pool its) s1)
    by (eapply reaches_trans; [exact Hreach | eapply run_tier_reaches, Ht]).
  destruct (Z.eq_dec (priority_or_0 b) p) as [Heq|Hneq].
  - apply (reaches_begun f s1 s'); [eapply fold_run_tier_reaches, H|].
    destruct (tier_pass_launches f p sched out s)
      as (ps & s0 & Hl & Hrun & _ & Hlaunched & _).
    rewrite Hrun in Ht.
    destruct (await_all f sched ps s0) as [[sched2 ps2] s2] eqn:Ha.
    injection Ht as _ _ <-.
    apply (reaches_begun f s0 s2); [eapply drain_reaches, Ha|].
    destruct (run_state_items f its s Hreach) as [Hfree _].
    destruct (Hfree i b Hb Hn) as [Hi _].
    apply (Hlaunched b); [eapply lookup_In, Hi | assumption..].
  - destruct Hp as [Hp|Hp]; [congruence|].
    eapply IH; eauto.
Qed.

(** In a run, the invoker is called under its own key for every work
    item that needs nothing when the run starts. *)
Lemma run_launches_free_items (f : GroupKey -> ActionOutput) (sched : list nat)
    (its : list WorkItem) (b : WorkItem) :
  In b its -> needs_length b = 0 ->
  In (item_key b) (invoked (snd (run f sched its))).
Proof.
  intros Hb Hn.
  pose proof (reaches_initial f its _ (run_reaches f sched its))
    as (_ & _ & Hlog & _).
  rewrite <- Hlog. destruct (In_lookup _ _ Hb) as [i Hi].
  unfold run, run_tiers.
  destruct (fold_left (run_tier f) (getUniquePriorities its)
              (sched, [], initial_pool its)) as [[sched' out'] s'] eqn:H.
  simpl. eapply fold_tiers_launch; [apply reaches_refl | exact H | exact Hi | exact Hn |].
  now apply getUniquePriorities_complete.
Qed.

(** C3, as the code has it: when an action succeeds, every action of
    [blockedActions] that is left without needs is launched by the
    callback of that action, at once, under the key of the finished
    action with its own project, and leaves the array; its priority
    plays no part.  The pass of a tier itself launches the actions of
    the priority of the tier that need nothing: the filter of the pass
    keeps exactly these; the pass calls the wrapper for the key of each
    of them, so that each is registered and, unless it was registered
    before, the invoker is called for it; the pass calls the invoker
    for no other key before it awaits; and over a whole run the invoker
    is called, under its own key, for every work item that needs
    nothing from the start. *)
Theorem C3_freed_action_launches_at_once (k : GroupKey) (res : ActionOutput)
    (s : Pool) kids removed s' (r : nat) (a : WorkItem) :
  then_callback k res s = (Awaiting res kids removed, s') ->
  succeeded res = true ->
  waiting (blocked s) r -> items s !! r = Some a ->
  w_needs (strip (project k) a) = Some [] ->
  (exists c, In c kids /\ launched_as (freed_key k a) c) /\
  In (freed_key k a) (begun s') /\
  ~ waiting (blocked s') r /\
  (forall prio b,
     In b (List.filter (in_tier prio) (items s')) <->
     In b (items s') /\ priority_or_0 b = prio /\ needs_length b = 0) /\
  (forall (f : GroupKey -> ActionOutput) prio sched recs s0,
   exists ps s1,
     launch (map item_key (List.filter (in_tier prio) (items s0))) s0 = (ps, s1) /\
     run_tier f (sched, recs, s0) prio
     = (let '(sched', ps', s2) := await_all f sched ps s1 in
        (sched', recs ++ concat (map flatten ps'), s2)) /\
     Forall2 launched_as
       (map item_key (List.filter (in_tier prio) (items s0))) ps /\
     (forall b, In b (items s0) -> priority_or_0 b = prio ->
        needs_length b = 0 ->
        In (item_key b) (begun s1) /\
        (~ In (item_key b) (begun s0) -> In (item_key b) (invoked s1))) /\
     (forall k0, In k0 (invoked s1) ->
        In k0 (invoked s0) \/
        exists b, In b (items s0) /\ k0 = item_key b /\
                  priority_or_0 b = prio /\ needs_length b = 0)) /\
  (forall (f : GroupKey -> ActionOutput) sched its b,
     In b its -> needs_length b = 0 ->
     In (item_key b) (invoked (snd (run f sched its)))).
Proof.
  intros H Hok Hr Ha Hn. apply then_callback_freed in H.
  destruct H as (blk1 & freed & _ & Hblk1 & Hshape & Hfreed & _ & Hblk & Hreg & _).
  rewrite (Hblk1 Hok) in *.
  assert (Hin : In (strip (project k) a) freed).
  { apply Hfreed. exists r. rewrite Ha. auto. }
  assert (Hkey : In (freed_key k a) (map (freed_key k) freed)).
  { apply in_map_iff. exists (strip (project k) a). auto. }
  split; [|split; [|split; [|split; [|split]]]].
  - destruct (Forall2_In_l _ _ _ Hshape _ Hkey) as [c [Hc Hl]]. eauto.
  - now apply Hreg.
  - intros Hx. apply Hblk in Hx. destruct Hx as [_ Hx].
    apply (Hx (strip (project k) a)); [now rewrite Ha | assumption].
  - intros prio b. rewrite filter_In. unfold in_tier.
    rewrite andb_true_iff, Z.eqb_eq, Nat.eqb_eq. tauto.
  - intros f prio sched recs s0. apply tier_pass_launches.
  - intros f sched its b. apply run_launches_free_items.
Qed.

(** api has priority 1 and needs web: the callback of web launches it. *)
Lemma C3_witness :
  In (mkKey "api" "build" "*")
     (begun (snd (then_callback (mkKey "web" "build" "*")
                    (succeed (mkKey "web" "build" "*"))
                    (mkPool WebApi.selected [Some 1]
                       [mkKey "web" "build" "*"] [mkKey "web" "build" "*"])))).
Proof.
  exact (proj1 (proj2
    (C3_freed_action_launches_at_once (mkKey "web" "build" "*")
       (succeed (mkKey "web" "build" "*"))
       (mkPool WebApi.selected [Some 1]
          [mkKey "web" "build" "*"] [mkKey "web" "build" "*"])
       _ _ _ 1
       (mkItem "api" "build" "*" [("*", ["echo"; "api"])] (Some 1%Z) (Some ["web"]))
       eq_refl eq_refl (or_introl eq_refl) eq_refl eq_refl))).
Defined.

(** The claim has the tiers act as a barrier; api (priority 1) is
    invoked during the pass of the tier 0. *)
Lemma C3_counterexample : ~ tier_barrier succeed [] WebApi.selected.
Proof.
  intros H.
  apply (H [0%Z] [1%Z]
           (mkItem "api" "build" "*" [("*", ["echo"; "api"])] (Some 1%Z) (Some ["web"]))
           (mkKey "api" "build" "*")).
  - reflexivity.
  - right. now left.
  - now left.
  - right. now left.
  - reflexivity.
Qed.

(** * Further properties of the code *)

(** ** The tiers of [getUniquePriorities] *)

Lemma fold_priorities_prefix (its : list WorkItem) :
  forall carry, exists t,
    fold_left
      (fun carry a =>
         if existsb (Z.eqb (priority_or_0 a)) carry then carry
         else carry ++ [priority_or_0 a])
      its carry = carry ++ t.
Proof.
  induction its as [|a its IH]; simpl; intros carry.
  - exists []. now rewrite app_nil_r.
  - destruct (existsb (Z.eqb (priority_or_0 a)) carry); [apply IH|].
    destruct (IH (carry ++ [priority_or_0 a])) as [t ->].
    exists (priority_or_0 a :: t). now rewrite <- app_assoc.
Qed.

Lemma fold_priorities_sound (its : list WorkItem) :
  forall carry p,
    In p (fold_left
            (fun carry a =>
               if existsb (Z.eqb (priority_or_0 a)) carry then carry
               else carry ++ [priority_or_0 a])
            its carry) ->
    In p carry \/ exists a, In a its /\ priority_or_0 a = p.
Proof.
  induction its as [|a its IH]; simpl; intros carry p H; [now left|].
  destruct (existsb (Z.eqb (priority_or_0 a)) carry).
  - destruct (IH _ _ H) as [Hc|[b [Hb Hp]]]; [now left|].
    right. exists b. split; [now right | assumption].
  - destruct (IH _ _ H) as [Hc|[b [Hb Hp]]].
    + apply in_app_or in Hc. destruct Hc as [Hc|[<-|[]]]; [now left|].
      right. exists a. split; [now left | reflexivity].
    + right. exists b. split; [now right | assumption].
Qed.

(** X1: [getUniquePriorities] lists every priority of the work items
    (an absent priority counts as 0) exactly once, and lists them in the
    order of their first appearance: the priorities that come before the
    one of an item are those of the items before its first appearance. *)
Theorem priorities_once_in_order_of_appearance (its : list WorkItem) :
  List.NoDup (getUniquePriorities its) /\
  (forall p, In p (getUniquePriorities its) <->
             exists a, In a its /\ priority_or_0 a = p) /\
  (forall l1 a l2,
     its = l1 ++ a :: l2 ->
     (forall b, In b l1 -> priority_or_0 b <> priority_or_0 a) ->
     exists later,
       getUniquePriorities its
       = getUniquePriorities l1 ++ priority_or_0 a :: later).
Proof.
  split; [apply getUniquePriorities_NoDup | split].
  - intros p. split.
    + intros H. apply fold_priorities_sound in H.
      destruct H as [[]|H]. exact H.
    + intros [a [Ha <-]]. now apply getUniquePriorities_complete.
  - intros l1 a l2 -> Hfirst. unfold getUniquePriorities.
    rewrite fold_left_app. simpl.
    fold (getUniquePriorities l1).
    destruct (existsb (Z.eqb (priority_or_0 a)) (getUniquePriorities l1)) eqn:Hseen.
    + exfalso. apply existsb_exists in Hseen. destruct Hseen as [p [Hp Heq]].
      apply Z.eqb_eq in Heq. subst p.
      apply fold_priorities_sound in Hp. destruct Hp as [[]|[b [Hb Hp]]].
      exact (Hfirst b Hb Hp).
    + destruct (fold_priorities_prefix l2
                  (getUniquePriorities l1 ++ [priority_or_0 a])) as [t Ht].
      exists t. unfold getUniquePriorities in *. rewrite Ht.
      now rewrite <- app_assoc.
Qed.

(** ** What selection reads of its arguments *)

Lemma direct_matches_ext config act grp names names' :
  (forall n, In n names <-> In n names') ->
  direct_matches config act grp names = direct_matches config act grp names'.
Proof.
  intros H. unfold direct_matches. f_equal.
  apply filter_ext. intros [n p].
  destruct (includes names n) eqn:E1, (includes names' n) eqn:E2;
    try reflexivity; exfalso.
  - apply includes_In in E1. apply includes_not_In in E2. apply E2, H, E1.
  - apply includes_In in E2. apply includes_not_In in E1. apply E1, H, E2.
Qed.

(** X2: selection reads [projectsToRun] as a set: the order of the
    names and their repetitions change neither the work items nor their
    order, and so they change nothing of what [actions] returns. *)
Theorem subset_is_read_as_a_set topo f stack sched config act grp names names' :
  (forall n, In n names <-> In n names') ->
  getProjectsToRunActionIn topo stack config act grp names
  = getProjectsToRunActionIn topo stack config act grp names' /\
  actions topo f stack sched config act grp names
  = actions topo f stack sched config act grp names'.
Proof.
  intros H.
  assert (Hsel : getProjectsToRunActionIn topo stack config act grp names
                 = getProjectsToRunActionIn topo stack config act grp names').
  { unfold getProjectsToRunActionIn.
    now rewrite (direct_matches_ext config act grp names names' H). }
  split; [exact Hsel|]. unfold actions. now rewrite Hsel.
Qed.

Lemma subset_is_read_as_a_set_witness :
  getProjectsToRunActionIn WebApi.order 5 WebApi.config "build" "*" ["web"; "api"]
  = getProjectsToRunActionIn WebApi.order 5 WebApi.config "build" "*"
      ["api"; "web"; "api"] /\
  actions WebApi.order succeed 5 [] WebApi.config "build" "*" ["web"; "api"]
  = actions WebApi.order succeed 5 [] WebApi.config "build" "*"
      ["api"; "web"; "api"].
Proof.
  apply (subset_is_read_as_a_set WebApi.order succeed 5 [] WebApi.config
           "build" "*" ["web"; "api"] ["api"; "web"; "api"]).
  intros n. simpl. tauto.
Defined.

(** ** The dependency closure *)

(** The step of the [reduce] of [resolveProjectDependencies]. *)
Lemma fold_resolve_step (config : Config) (a : WorkItem) (stack : nat)
    (need : string) (ns : list string) (c l : list WorkItem) :
  fold_left
    (fun carry need =>
       try c := carry in
       try p := defined (get (projects config) need) in
       try r := resolveProjectDependencies stack config
                  (spread_needed a need (get (p_actions p) (w_action a))) in
       inr (a :: r ++ tl c))
    (need :: ns) (inr c) = inr l ->
  exists p r,
    get (projects config) need = Some p /\
    resolveProjectDependencies stack config
      (spread_needed a need (get (p_actions p) (w_action a))) = inr r /\
    fold_left
      (fun carry need =>
         try c := carry in
         try p := defined (get (projects config) need) in
         try r := resolveProjectDependencies stack config
                    (spread_needed a need (get (p_actions p) (w_action a))) in
         inr (a :: r ++ tl c))
      ns (inr (a :: r ++ tl c)) = inr l.
Proof.
  simpl. intros H.
  destruct (get (projects config) need) as [p|] eqn:Hp; simpl in H.
  - destruct (resolveProjectDependencies stack config
                (spread_needed a need (get (p_actions p) (w_action a))))
      as [e|r] eqn:Hr; simpl in H.
    + rewrite fold_left_thrown in H by reflexivity. discriminate.
    + exists p, r. auto.
  - rewrite fold_left_thrown in H by reflexivity. discriminate.
Qed.

Lemma fold_resolve_grows (config : Config) (a : WorkItem) (stack : nat)
    (ns : list string) :
  forall c l,
    fold_left
      (fun carry need =>
         try c := carry in
         try p := defined (get (projects config) need) in
         try r := resolveProjectDependencies stack config
                    (spread_needed a need (get (p_actions p) (w_action a))) in
         inr (a :: r ++ tl c))
      ns (inr c) = inr l ->
    (ns <> [] -> exists t, l = a :: t) /\
    incl (tl c) (tl l) /\
    (forall x, In x l ->
       In x c \/ x = a \/
       exists n p r, In n ns /\ get (projects config) n = Some p /\
         resolveProjectDependencies stack config
           (spread_needed a n (get (p_actions p) (w_action a))) = inr r /\
         In x r) /\
    forall n, In n ns ->
      exists p r, get (projects config) n = Some p /\
        resolveProjectDependencies stack config
          (spread_needed a n (get (p_actions p) (w_action a))) = inr r /\
        incl r (tl l).
Proof.
  induction ns as [|need ns IH]; intros c l H.
  - simpl in H. injection H as <-.
    split; [congruence|]. split; [apply incl_refl|].
    split; [now left | intros n []].
  - apply fold_resolve_step in H. destruct H as [p [r [Hp [Hr H]]]].
    destruct (IH _ _ H) as [Hhd [Hincl [Hfrom Hall]]]. simpl in Hincl.
    split; [|split; [|split]].
    + intros _. destruct ns as [|n' ns'].
      * simpl in H. injection H as <-. eauto.
      * apply Hhd. discriminate.
    + intros x Hx. apply Hincl, in_or_app. now right.
    + intros x Hx. destruct (Hfrom x Hx) as [Hc|[->|[n [q [r' [Hn Hrest]]]]]].
      * destruct Hc as [<-|Hc]; [right; now left|].
        apply in_app_or in Hc. destruct Hc as [Hc|Hc].
        -- right. right. exists need, p, r. repeat split; auto. now left.
        -- left. destruct c; [contradiction | now right].
      * right. now left.
      * right. right. exists n, q, r'. split; [now right | exact Hrest].
    + intros n [<-|Hn].
      * exists p, r. repeat split; auto.
        intros x Hx. apply Hincl, in_or_app. now left.
      * apply Hall, Hn.
Qed.

Lemma resolve_unfold (stack : nat) (config : Config) (a : WorkItem)
    (l : list WorkItem) :
  resolveProjectDependencies stack config a = inr l ->
  exists stack', stack = S stack' /\
    ((needs_length a = 0 /\ l = [a]) \/
     exists n ns, w_needs a = Some (n :: ns) /\
       fold_left
         (fun carry need =>
            try c := carry in
            try p := defined (get (projects config) need) in
            try r := resolveProjectDependencies stack' config
                       (spread_needed a need (get (p_actions p) (w_action a))) in
            inr (a :: r ++ tl c))
         (n :: ns) (inr []) = inr l).
Proof.
  destruct stack as [|stack']; simpl; [discriminate|].
  intros H. exists stack'. split; [reflexivity|].
  unfold needs_length.
  destruct (w_needs a) as [[|n ns]|].
  - left. injection H as <-. auto.
  - right. exists n, ns. auto.
  - left. injection H as <-. auto.
Qed.

Lemma resolve_keeps_action_and_group (stack : nat) (config : Config) :
  forall a l,
    resolveProjectDependencies stack config a = inr l ->
    forall x, In x l -> w_action x = w_action a /\ w_group x = w_group a.
Proof.
  induction stack as [|stack IH]; intros a l H x Hx; [discriminate|].
  apply resolve_unfold in H. destruct H as [stack' [Hs H]].
  injection Hs as <-.
  destruct H as [[_ ->]|[n [ns [Hns H]]]].
  - destruct Hx as [<-|[]]. auto.
  - apply fold_resolve_grows in H. destruct H as [_ [_ [Hfrom _]]].
    destruct (Hfrom x Hx) as [[]|[->|[m [p [r [_ [_ [Hr Hin]]]]]]]]; [auto|].
    destruct (IH _ _ Hr x Hin) as [Ha Hg]. rewrite Ha, Hg.
    destruct (get (p_actions p) (w_action a)); auto.
Qed.

Lemma resolve_head (stack : nat) (config : Config) (a : WorkItem)
    (l : list WorkItem) :
  resolveProjectDependencies stack config a = inr l -> exists t, l = a :: t.
Proof.
  intros H. apply resolve_unfold in H. destruct H as [stack' [_ H]].
  destruct H as [[_ ->]|[n [ns [_ H]]]]; [eauto|].
  apply fold_resolve_grows in H. apply H. discriminate.
Qed.

(** X3: when [resolveProjectDependencies] returns, the array starts with
    the action it was called on, an action that needs nothing gives
    that single action, every action of the array carries the action
    name and the group of the first, and for each needed project the
    array holds all of what the recursive call on that project
    returns. *)
Theorem closure_starts_with_the_action_and_holds_its_needs
    (stack : nat) (config : Config) (a : WorkItem) (l : list WorkItem) :
  resolveProjectDependencies stack config a = inr l ->
  (exists t, l = a :: t) /\
  (needs_length a = 0 -> l = [a]) /\
  (forall x, In x l -> w_action x = w_action a /\ w_group x = w_group a) /\
  (forall ns n, w_needs a = Some ns -> In n ns ->
     exists p r, get (projects config) n = Some p /\
       resolveProjectDependencies (pred stack) config
         (spread_needed a n (get (p_actions p) (w_action a))) = inr r /\
       In (spread_needed a n (get (p_actions p) (w_action a))) l /\
       incl r l).
Proof.
  intros H. split; [|split; [|split]].
  - eapply resolve_head. exact H.
  - intros Hz. apply resolve_unfold in H. destruct H as [stack' [_ H]].
    destruct H as [[_ ->]|[n [ns [Hns _]]]]; [reflexivity|].
    unfold needs_length in Hz. rewrite Hns in Hz. discriminate.
  - eapply resolve_keeps_action_and_group. exact H.
  - intros ns n Hns Hn. apply resolve_unfold in H.
    destruct H as [stack' [-> H]]. simpl.
    destruct H as [[Hz _]|[n0 [ns0 [Hns0 H]]]].
    + unfold needs_length in Hz. rewrite Hns in Hz.
      destruct ns; [contradiction | discriminate].
    + rewrite Hns in Hns0. injection Hns0 as ->.
      apply fold_resolve_grows in H. destruct H as [_ [_ [_ Hall]]].
      destruct (Hall n Hn) as [p [r [Hp [Hr Hincl]]]].
      assert (Hrl : incl r l).
      { intros x Hx. apply Hincl in Hx. destruct l; [contradiction | now right]. }
      exists p, r. repeat split; auto.
      destruct (resolve_head _ _ _ _ Hr) as [t Ht].
      apply Hrl. rewrite Ht. now left.
Qed.

Lemma closure_starts_with_the_action_witness :
  exists t,
    [ mkItem "api" "build" "*" [("*", ["echo"; "api"])] (Some 1%Z) (Some ["web"]);
      mkItem "web" "build" "*" [("*", ["echo"; "web"])] (Some 0%Z) (Some []) ]
    = mkItem "api" "build" "*" [("*", ["echo"; "api"])] (Some 1%Z) (Some ["web"]) :: t.
Proof.
  apply (closure_starts_with_the_action_and_holds_its_needs 3 WebApi.config
           (mkItem "api" "build" "*" [("*", ["echo"; "api"])] (Some 1%Z)
              (Some ["web"]))).
  reflexivity.
Defined.

(** A needed project whose action has no [needs] of its own, or that
    has not the action at all, inherits the [needs] of the action that
    needs it: the recursion never ends. *)
Lemma fold_resolve_overflow (config : Config) (a : WorkItem) (stack : nat)
    (n : string) :
  (exists e, forall p, get (projects config) n = Some p ->
     resolveProjectDependencies stack config
       (spread_needed a n (get (p_actions p) (w_action a))) = inl e) ->
  forall ns carry, In n ns ->
    exists e,
      fold_left
        (fun carry need =>
           try c := carry in
           try p := defined (get (projects config) need) in
           try r := resolveProjectDependencies stack config
                      (spread_needed a need (get (p_actions p) (w_action a))) in
           inr (a :: r ++ tl c))
        ns carry = inl e.
Proof.
  intros [e0 Hn]. induction ns as [|m ns IH]; intros carry Hin; [contradiction|].
  simpl. destruct carry as [e|c]; simpl.
  - exists e. apply fold_left_thrown. reflexivity.
  - destruct (get (projects config) m) as [p|] eqn:Hp; simpl.
    + destruct (resolveProjectDependencies stack config
                  (spread_needed a m (get (p_actions p) (w_action a))))
        as [e|r] eqn:Hr; simpl.
      * exists e. apply fold_left_thrown. reflexivity.
      * destruct Hin as [->|Hin]; [|now apply IH].
        rewrite (Hn p Hp) in Hr. discriminate.
    + exists TypeError. apply fold_left_thrown. reflexivity.
Qed.

Lemma resolve_overflow (config : Config) (n : string) (p : Project) (act : string) :
  get (projects config) n = Some p ->
  match get (p_actions p) act with
  | Some pa => needs pa = None
  | None => True
  end ->
  forall stack a ns,
    w_action a = act -> w_needs a = Some ns -> In n ns ->
    exists e, resolveProjectDependencies stack config a = inl e.
Proof.
  intros Hp Hbare. induction stack as [|stack IH]; intros a ns Hact Hns Hin.
  - exists RangeError. reflexivity.
  - simpl. rewrite Hns. destruct ns as [|n0 ns0]; [contradiction|].
    apply fold_resolve_overflow with (n := n); [|exact Hin].
    destruct (IH (spread_needed a n (get (p_actions p) (w_action a)))
                 (n0 :: ns0)) as [e He].
    + destruct (get (p_actions p) (w_action a)); apply Hact.
    + rewrite Hact. destruct (get (p_actions p) act) as [pa|]; simpl.
      * now rewrite Hbare.
      * assumption.
    + exact Hin.
    + exists e. intros q Hq. rewrite Hp in Hq. injection Hq as <-. exact He.
Qed.

(** X4: a requested project whose action needs a project that declares
    the action without [needs] (or does not declare it) makes selection
    throw whatever the depth the call stack allows, and [actions] with
    it, before any call of the invoker: the needed project inherits the
    [needs] it is named in and the recursion does not end. *)
Theorem needed_action_without_needs_never_resolves
    topo f sched config act grp name names p pa ns n q :
  In (name, p) (projects config) -> In name names ->
  get (p_actions p) act = Some pa ->
  has_group (Some pa) grp || has_group (Some pa) "*" = true ->
  needs pa = Some ns -> In n ns ->
  get (projects config) n = Some q ->
  match get (p_actions q) act with
  | Some qa => needs qa = None
  | None => True
  end ->
  forall stack,
    (exists e, getProjectsToRunActionIn topo stack config act grp names = inl e) /\
    (exists e, actions topo f stack sched config act grp names = inl e).
Proof.
  intros Hin Hname Hpa Hg Hns Hn Hq Hbare stack.
  assert (Hsel : exists e,
             getProjectsToRunActionIn topo stack config act grp names = inl e).
  { destruct (getProjectsToRunActionIn topo stack config act grp names)
      as [e|ws] eqn:Hsel; [eauto|exfalso].
    unfold getProjectsToRunActionIn, resolveDependenciesForActions in Hsel.
    destruct (closure_of stack config (direct_matches config act grp names))
      as [e|c] eqn:Hc; simpl in Hsel; [discriminate|].
    pose proof (direct_matches_In config act grp names name p pa
                  Hin Hname Hpa Hg) as Hitem.
    destruct (closure_of_resolved _ _ _ _ _ Hc _ Hitem) as [r Hr].
    destruct (resolve_overflow config n q act Hq Hbare stack
                (item_of name act (if has_group (Some pa) grp then grp else "*") pa)
                ns eq_refl Hns Hn) as [e He].
    rewrite He in Hr. discriminate. }
  split; [exact Hsel|].
  destruct Hsel as [e He]. exists e. unfold actions. now rewrite He.
Qed.

Lemma needed_action_without_needs_witness :
  (exists e,
     getProjectsToRunActionIn (fun _ _ => inr ["lib"; "app"]) 50
       (mkConfig "/work"
          [ ("app", mkProject "git@app" None
                      [("build", mkAction [("*", ["make"])] None (Some ["lib"]))]);
            ("lib", mkProject "git@lib" None
                      [("build", mkAction [("*", ["make"])] None None)]) ])
       "build" "*" ["app"] = inl e) /\
  (exists e,
     actions (fun _ _ => inr ["lib"; "app"]) succeed 50 []
       (mkConfig "/work"
          [ ("app", mkProject "git@app" None
                      [("build", mkAction [("*", ["make"])] None (Some ["lib"]))]);
            ("lib", mkProject "git@lib" None
                      [("build", mkAction [("*", ["make"])] None None)]) ])
       "build" "*" ["app"] = inl e).
Proof.
  apply (needed_action_without_needs_never_resolves
           (fun _ _ => inr ["lib"; "app"]) succeed []
           (mkConfig "/work"
              [ ("app", mkProject "git@app" None
                          [("build", mkAction [("*", ["make"])] None (Some ["lib"]))]);
                ("lib", mkProject "git@lib" None
                          [("build", mkAction [("*", ["make"])] None None)]) ])
           "build" "*" "app" ["app"]
           (mkProject "git@app" None
              [("build", mkAction [("*", ["make"])] None (Some ["lib"]))])
           (mkAction [("*", ["make"])] None (Some ["lib"])) ["lib"] "lib"
           (mkProject "git@lib" None
              [("build", mkAction [("*", ["make"])] None None)])).
  - simpl. now left.
  - simpl. now left.
  - reflexivity.
  - reflexivity.
  - reflexivity.
  - simpl. now left.
  - reflexivity.
  - reflexivity.
Defined.

(** ** What selection returns *)

Lemma get_In {V : Type} (d : Dict V) (k : string) (v : V) :
  get d k = Some v -> In (k, v) d.
Proof.
  induction d as [|[k' v'] d IH]; simpl; [discriminate|].
  destruct (String.eqb_spec k' k) as [->|_].
  - intros H. injection H as ->. now left.
  - intros H. right. now apply IH.
Qed.

Lemma In_get {V : Type} (d : Dict V) (k : string) (v : V) :
  List.NoDup (map fst d) -> In (k, v) d -> get d k = Some v.
Proof.
  induction d as [|[k' v'] d IH]; simpl; intros Hnd Hin; [contradiction|].
  apply List.NoDup_cons_iff in Hnd. destruct Hnd as [Hfresh Hnd].
  destruct Hin as [Heq|Hin].
  - injection Heq as -> ->. now rewrite String.eqb_refl.
  - destruct (String.eqb_spec k' k) as [->|_]; [|now apply IH].
    exfalso. apply Hfresh. apply in_map_iff. exists (k, v). auto.
Qed.

Lemma direct_matches_inv config act grp names w :
  In w (direct_matches config act grp names) ->
  exists name p pa,
    In (name, p) (projects config) /\ In name names /\
    get (p_actions p) act = Some pa /\
    has_group (Some pa) grp || has_group (Some pa) "*" = true /\
    w = item_of name act (if has_group (Some pa) grp then grp else "*") pa.
Proof.
  unfold direct_matches.
  set (sel := List.filter _ _).
  assert (Hsel : forall n q, In (n, q) sel ->
            In (n, q) (projects config) /\ In n names /\
            has_group (get (p_actions q) act) grp
            || has_group (get (p_actions q) act) "*" = true).
  { intros n q H. apply filter_In in H. destruct H as [H Hn].
    apply filter_In in H. destruct H as [H Hg].
    repeat split; [assumption | now apply includes_In | assumption]. }
  revert Hsel. generalize sel. clear sel. intros sel Hsel.
  assert (Hgen : forall acc,
            In w (fold_left
                    (fun (carry : list WorkItem) '(projectName, p) =>
                       match get (p_actions p) act with
                       | Some pa =>
                           carry ++ [item_of projectName act
                                       (if has_group (Some pa) grp then grp else "*")
                                       pa]
                       | None => carry
                       end) sel acc) ->
            In w acc \/
            exists name p pa,
              In (name, p) sel /\ get (p_actions p) act = Some pa /\
              w = item_of name act (if has_group (Some pa) grp then grp else "*") pa).
  { clear. induction sel as [|[n q] sel IH]; simpl; intros acc H; [now left|].
    destruct (IH _ H) as [Hin|[name [p [pa [Hs Hrest]]]]].
    - destruct (get (p_actions q) act) as [pa|] eqn:Hq; [|now left].
      apply in_app_or in Hin. destruct Hin as [Hin|[<-|[]]]; [now left|].
      right. exists n, q, pa. repeat split; auto.
    - right. exists name, p, pa. split; [now right | exact Hrest]. }
  intros H. destruct (Hgen [] H) as [[]|[name [p [pa [Hs [Hpa ->]]]]]].
  destruct (Hsel _ _ Hs) as [Hin [Hn Hg]]. rewrite Hpa in Hg.
  exists name, p, pa. auto.
Qed.

Lemma closure_of_In (stack : nat) (config : Config) (xs : list WorkItem) :
  forall c0 c,
    fold_left
      (fun carry a =>
         try c := carry in
         try r := resolveProjectDependencies stack config a in
         inr (c ++ r))
      xs (inr c0) = inr c ->
    forall x, In x c <->
      In x c0 \/
      exists a r, In a xs /\ resolveProjectDependencies stack config a = inr r /\
                  In x r.
Proof.
  induction xs as [|a xs IH]; simpl; intros c0 c H x.
  - injection H as <-. split; [now left | intros [H|[a [r [[] _]]]]; exact H].
  - destruct (resolveProjectDependencies stack config a) as [e|r] eqn:Hr;
      simpl in H.
    + rewrite fold_left_thrown in H by reflexivity. discriminate.
    + rewrite (IH _ _ H x). rewrite in_app_iff. split.
      * intros [[Hc|Hin]|[b [rb [Hb Hrest]]]].
        -- now left.
        -- right. exists a, r. auto.
        -- right. exists b, rb. split; [now right | exact Hrest].
      * intros [Hc|[b [rb [[<-|Hb] [Hrb Hin]]]]].
        -- left. now left.
        -- left. right. congruence.
        -- right. exists b, rb. auto.
Qed.

Lemma uniqBy_project_covers (xs : list WorkItem) :
  forall seen x, In x xs -> ~ In (w_project x) seen ->
    exists w, In w (uniqBy_project seen xs) /\ w_project w = w_project x.
Proof.
  induction xs as [|y xs IH]; simpl; intros seen x Hin Hfresh; [contradiction|].
  destruct (includes seen (w_project y)) eqn:Hy.
  - destruct Hin as [->|Hin]; [|now apply IH].
    apply includes_In in Hy. contradiction.
  - destruct Hin as [->|Hin]; [exists x; split; [now left | reflexivity]|].
    destruct (String.eqb_spec (w_project y) (w_project x)) as [Heq|Hne].
    + exists y. split; [now left | exact Heq].
    + destruct (IH (w_project y :: seen) x Hin) as [w [Hw Hp]].
      * intros [Heq|Hs]; [now apply Hne | now apply Hfresh].
      * exists w. split; [now right | exact Hp].
Qed.

(** Every action of a closure is bound to a project that declares the
    action, and carries the commands and the needs of that
    declaration. *)
Lemma resolve_declared (config : Config) (stack : nat) :
  forall a l,
    resolveProjectDependencies stack config a = inr l ->
    forall x, In x l ->
      x = a \/
      exists p pa, get (projects config) (w_project x) = Some p /\
        get (p_actions p) (w_action a) = Some pa /\
        w_groups x = groups pa /\ w_needs x = needs pa.
Proof.
  induction stack as [|stack IH]; intros a l H x Hx; [discriminate|].
  apply resolve_unfold in H. destruct H as [stack' [Hs H]]. injection Hs as <-.
  destruct H as [[_ ->]|[n [ns [Hns H]]]].
  - destruct Hx as [<-|[]]. now left.
  - apply fold_resolve_grows in H. destruct H as [_ [_ [Hfrom _]]].
    destruct (Hfrom x Hx) as [[]|[->|[m [p [r [Hm [Hp [Hr Hin]]]]]]]]; [now left|].
    right.
    assert (Hact : w_action (spread_needed a m (get (p_actions p) (w_action a)))
                   = w_action a)
      by (destruct (get (p_actions p) (w_action a)); reflexivity).
    destruct (IH _ _ Hr x Hin) as [->|Hdecl].
    + destruct (get (p_actions p) (w_action a)) as [pa|] eqn:Hpa.
      * destruct (needs pa) as [l0|] eqn:Hneeds.
        -- exists p, pa. simpl. rewrite Hneeds. auto.
        -- exfalso.
           destruct (resolve_overflow config m p (w_action a) Hp) with
             (stack := stack) (a := spread_needed a m (Some pa)) (ns := n :: ns)
             as [e He].
           ++ now rewrite Hpa.
           ++ reflexivity.
           ++ simpl. now rewrite Hneeds.
           ++ exact Hm.
           ++ rewrite He in Hr. discriminate.
      * exfalso.
        destruct (resolve_overflow config m p (w_action a) Hp) with
          (stack := stack) (a := spread_needed a m None) (ns := n :: ns)
          as [e He].
        -- now rewrite Hpa.
        -- reflexivity.
        -- exact Hns.
        -- exact Hm.
        -- rewrite He in Hr. discriminate.
    + rewrite Hact in Hdecl. exact Hdecl.
Qed.

Lemma rebound_spec (config : Config) (grp act : string) (c xs : list WorkItem) :
  rebound config grp act c = inr xs ->
  forall y, In y xs ->
    exists x p,
      In x c /\
      (get (w_groups x) grp <> None \/ get (w_groups x) "*" <> None) /\
      get (projects config) (w_project x) = Some p /\
      y = set_group x (if has_group (get (p_actions p) act) grp then grp else "*").
Proof.
  unfold rebound. intros H y Hy.
  eapply mapM_Forall2 with
    (R := fun x y => exists p, get (projects config) (w_project x) = Some p /\
            y = set_group x
                  (if has_group (get (p_actions p) act) grp then grp else "*"))
    in H.
  - destruct (Forall2_In_r _ _ _ H y Hy) as [x [Hx [p [Hp ->]]]].
    apply filter_In in Hx. destruct Hx as [Hx Hkeep].
    exists x, p. repeat split; auto.
    destruct (get (w_groups x) grp); [left; discriminate|].
    destruct (get (w_groups x) "*"); [right; discriminate | discriminate].
  - intros x z Hz.
    destruct (get (projects config) (w_project x)) as [p|]; simpl in Hz;
      [|discriminate].
    injection Hz as <-. eauto.
Qed.

Lemma rebound_covers (config : Config) (grp act : string) (c xs : list WorkItem)
    (x : WorkItem) :
  rebound config grp act c = inr xs ->
  In x c ->
  (if get (w_groups x) grp is Some _ then true
   else if get (w_groups x) "*" is Some _ then true else false) = true ->
  exists y, In y xs /\ w_project y = w_project x.
Proof.
  unfold rebound. intros H Hx Hkeep.
  eapply mapM_Forall2 with (R := fun x y => w_project y = w_project x) in H.
  - apply Forall2_In_l with (x := x) in H.
    + destruct H as [y [Hy Hp]]. eauto.
    + apply filter_In. split; [assumption|].
      destruct (get (w_groups x) grp); [reflexivity | exact Hkeep].
  - intros a z Hz.
    destruct (get (projects config) (w_project a)) as [p|]; simpl in Hz;
      [|discriminate].
    injection Hz as <-. reflexivity.
Qed.

(** What holds of the items handed to [_.uniqBy]. *)
Lemma discovered_binds stack config act grp names xs :
  List.NoDup (map fst (projects config)) ->
  discovered stack config act grp names = inr xs ->
  forall y, In y xs ->
    exists p pa,
      get (projects config) (w_project y) = Some p /\
      get (p_actions p) act = Some pa /\
      w_action y = act /\ w_groups y = groups pa /\ w_needs y = needs pa /\
      w_group y = (if has_group (Some pa) grp then grp else "*") /\
      get (groups pa) (w_group y) <> None.
Proof.
  intros Hkeys Hxs y Hy. unfold discovered in Hxs.
  destruct (closure_of stack config (direct_matches config act grp names))
    as [e|c] eqn:Hc; simpl in Hxs; [discriminate|].
  destruct (rebound_spec _ _ _ _ _ Hxs y Hy) as [x [p [Hx [Hkeep [Hpx ->]]]]].
  unfold closure_of in Hc.
  apply (closure_of_In _ _ _ _ _ Hc) in Hx.
  destruct Hx as [[]|[a [r [Hdm [Hr Hx]]]]].
  destruct (direct_matches_inv _ _ _ _ _ Hdm)
    as [name [p0 [pa0 [Hin0 [_ [Hpa0 [_ Ha0]]]]]]].
  assert (Hacta : w_action a = act) by (subst a; reflexivity).
  destruct (resolve_keeps_action_and_group _ _ _ _ Hr x Hx) as [Hactx _].
  assert (Hdecl : exists pa, get (p_actions p) act = Some pa /\
                             w_groups x = groups pa /\ w_needs x = needs pa).
  { destruct (resolve_declared _ _ _ _ Hr x Hx)
      as [->|[p1 [pa1 [Hp1 [Hpa1 [Hg1 Hn1]]]]]].
    - subst a. simpl in Hpx. apply (In_get _ _ _ Hkeys) in Hin0.
      rewrite Hin0 in Hpx. injection Hpx as <-. exists pa0. auto.
    - rewrite Hpx in Hp1. injection Hp1 as <-. rewrite Hacta in Hpa1.
      exists pa1. auto. }
  destruct Hdecl as [pa [Hpa [Hgroups Hneeds]]].
  exists p, pa. simpl. rewrite Hpa.
  repeat split; auto; [congruence|].
  rewrite Hgroups in Hkeep. unfold has_group.
  destruct (get (groups pa) grp) as [cmd|] eqn:Hcmd.
  - rewrite Hcmd. discriminate.
  - destruct Hkeep as [Hk|Hk]; [contradiction | exact Hk].
Qed.

Lemma selection_binds topo stack config act grp names ws :
  List.NoDup (map fst (projects config)) ->
  getProjectsToRunActionIn topo stack config act grp names = inr ws ->
  forall w, In w ws ->
    exists p pa,
      get (projects config) (w_project w) = Some p /\
      get (p_actions p) act = Some pa /\
      w_action w = act /\ w_groups w = groups pa /\
      w_group w = (if has_group (Some pa) grp then grp else "*") /\
      get (groups pa) (w_group w) <> None.
Proof.
  intros Hkeys H w Hw.
  apply selection_inversion in H. destruct H as [xs [Hxs HF]].
  destruct (Forall2_In_r _ _ _ HF _ Hw) as [y [Hy [Hp [Ha [Hg [Hgs _]]]]]].
  apply uniqBy_project_fresh in Hy. destruct Hy as [Hy _].
  destruct (discovered_binds _ _ _ _ _ _ Hkeys Hxs y Hy)
    as (p & pa & Hpy & Hpa & Hact & Hgroups & _ & Hgroup & Hcmd).
  exists p, pa. rewrite Hp, Ha, Hg, Hgs. repeat split; assumption.
Qed.

(** X5: let the requested action and group be names that no object
    inherits from [Object.prototype].  Then every work item selection
    returns is bound to a declared project that declares the requested
    action; it carries that action name and the commands of that
    declaration; its group is the requested group when the declaration
    has it and the wildcard otherwise, and the declaration has a
    command for the group the item carries. *)
Theorem selected_items_are_declared_and_bound
    topo stack config act grp names ws :
  inherited act = false -> inherited grp = false ->
  List.NoDup (map fst (projects config)) ->
  getProjectsToRunActionIn topo stack config act grp names = inr ws ->
  forall w, In w ws ->
    exists p pa,
      get (projects config) (w_project w) = Some p /\
      get (p_actions p) act = Some pa /\
      w_action w = act /\ w_groups w = groups pa /\
      w_group w = (if has_group (Some pa) grp then grp else "*") /\
      get (groups pa) (w_group w) <> None.
Proof.
  intros _ _ Hkeys H w Hw.
  destruct (selection_binds topo stack config act grp names ws Hkeys H w Hw)
    as (p & pa & Hp & Hpa & Hact & Hgroups & Hgroup & Hcmd).
  exists p, pa. repeat split; assumption.
Qed.

Lemma selected_items_are_declared_and_bound_witness :
  exists p pa,
    get (projects Chain.plain) "B" = Some p /\
    get (p_actions p) "build" = Some pa /\
    "build" = "build" /\ [("*", ["echo"; "b"])] = groups pa /\
    "*" = (if has_group (Some pa) "g" then "g" else "*") /\
    get (groups pa) "*" <> None.
Proof.
  refine (selected_items_are_declared_and_bound
            (fun _ _ => inr ["C"; "B"; "A"]) 3 Chain.plain "build" "g" ["A"]
            [ mkItem "A" "build" "g" [("g", ["echo"; "a"])] None (Some ["C"]);
              mkItem "B" "build" "*" [("*", ["echo"; "b"])] None (Some ["C"]);
              mkItem "C" "build" "g" [("g", ["echo"; "c"])] None (Some []) ]
            eq_refl eq_refl _ _
            (mkItem "B" "build" "*" [("*", ["echo"; "b"])] None (Some ["C"])) _).
  - simpl. repeat constructor; simpl; intuition discriminate.
  - reflexivity.
  - simpl. right. now left.
Defined.

(** X6: every project of [projectsToRun] that declares the action with
    the requested group or with the wildcard has a work item in what
    selection returns: neither the closure, nor [_.uniqBy], nor the
    rewiring drops a requested project. *)
Theorem requested_projects_are_selected
    topo stack config act grp names ws name p pa :
  getProjectsToRunActionIn topo stack config act grp names = inr ws ->
  In (name, p) (projects config) -> In name names ->
  get (p_actions p) act = Some pa ->
  has_group (Some pa) grp || has_group (Some pa) "*" = true ->
  exists w, In w ws /\ w_project w = name.
Proof.
  intros H Hin Hname Hpa Hg.
  apply selection_inversion in H. destruct H as [xs [Hxs HF]].
  unfold discovered in Hxs.
  destruct (closure_of stack config (direct_matches config act grp names))
    as [e|c] eqn:Hc; simpl in Hxs; [discriminate|].
  pose proof (direct_matches_In config act grp names name p pa
                Hin Hname Hpa Hg) as Hitem.
  set (a := item_of name act (if has_group (Some pa) grp then grp else "*") pa)
    in *.
  destruct (closure_of_resolved _ _ _ _ _ Hc _ Hitem) as [r Hr].
  assert (Hac : In a c).
  { apply (closure_of_In _ _ _ _ _ Hc). right. exists a, r.
    repeat split; auto.
    destruct (resolve_head _ _ _ _ Hr) as [t ->]. now left. }
  destruct (rebound_covers _ _ _ _ _ a Hxs Hac) as [y [Hy Hpy]].
  { subst a. simpl. unfold has_group in Hg.
    destruct (get (groups pa) grp); [reflexivity|].
    destruct (get (groups pa) "*"); [reflexivity | discriminate]. }
  destruct (uniqBy_project_covers xs [] y Hy) as [u [Hu Hpu]]; [intros []|].
  destruct (Forall2_In_l _ _ _ HF u Hu) as [w [Hw [Hpw _]]].
  exists w. split; [assumption|]. rewrite Hpw, Hpu, Hpy. reflexivity.
Qed.

Lemma requested_projects_are_selected_witness :
  exists w,
    In w [ mkItem "web" "build" "*" [("*", ["echo"; "web"])] (Some 0%Z) (Some []);
           mkItem "api" "build" "*" [("*", ["echo"; "api"])] (Some 1%Z)
             (Some ["web"]) ] /\
    w_project w = "api".
Proof.
  apply (requested_projects_are_selected WebApi.order 5 WebApi.config
           "build" "*" ["web"; "api"] _ "api" WebApi.api
           (mkAction [("*", ["echo"; "api"])] (Some 1%Z) (Some ["web"]))).
  - reflexivity.
  - simpl. right. now left.
  - simpl. right. now left.
  - reflexivity.
  - reflexivity.
Defined.

(** ** What the rewiring does *)

Lemma rewire_all_needs (config : Config) (act : string) (todo : list string) :
  forall xs ys,
    fold_left (fun carry name => try its := carry in rewire config act name its)
      todo (inr xs) = inr ys ->
    forall y ns n, In y ys -> w_needs y = Some ns -> In n ns ->
      (exists x xns, In x xs /\ w_needs x = Some xns /\ In n xns) \/
      (exists m, In m todo /\ In n (declared_needs config act m)).
Proof.
  induction todo as [|m todo IH]; simpl; intros xs ys H y ns n Hy Hns Hn.
  - injection H as <-. left. eauto.
  - destruct (rewire config act m xs) as [e|xs1] eqn:Hr.
    + rewrite fold_left_thrown in H by reflexivity. discriminate.
    + destruct (IH _ _ H y ns n Hy Hns Hn)
        as [[x1 [ns1 [Hx1 [Hns1 Hn1]]]]|[m' [Hm' Hd]]].
      * destruct (rewire_needs _ _ _ _ _ Hr x1 ns1 n Hx1 Hns1 Hn1)
          as [[x [xns [Hx [Hxns [Hin _]]]]]|Hd].
        -- left. eauto.
        -- right. exists m. split; [now left | exact Hd].
      * right. exists m'. split; [now right | exact Hd].
Qed.



Lemma mapM_throws {A B : Type} (f : A -> result B) (e0 : Thrown) (xs : list A) :
  (forall x e, f x = inl e -> e = e0) ->
  (exists x, In x xs /\ f x = inl e0) ->
  mapM f xs = inl e0.
Proof.
  intros Hone. induction xs as [|x xs IH]; intros [a [Hin Ha]]; [contradiction|].
  simpl. destruct (f x) as [e|y] eqn:Hx; simpl.
  - now rewrite (Hone _ _ Hx).
  - destruct Hin as [->|Hin]; [congruence|].
    rewrite IH; [reflexivity | eauto].
Qed.

(** X8: the rewiring reads [action.needs.includes] of every selected
    item: when a selected item has no [needs] and some project of the
    topological order lacks the requested group, selection throws a
    [TypeError], and [actions] throws it before any call of the
    invoker. *)
Theorem rewiring_throws_on_an_item_without_needs
    topo f stack sched config act grp names xs a order n rest :
  resolveDependenciesForActions stack
    (direct_matches config act grp names) config grp act = inr xs ->
  In a xs -> w_needs a = None ->
  topo config act = inr order ->
  lacking_group config act grp (rev order) = inr (n :: rest) ->
  getProjectsToRunActionIn topo stack config act grp names = inl TypeError /\
  actions topo f stack sched config act grp names = inl TypeError.
Proof.
  intros Hxs Ha Hnone Ho Hl.
  assert (Hsel : getProjectsToRunActionIn topo stack config act grp names
                 = inl TypeError).
  { unfold getProjectsToRunActionIn. rewrite Hxs. simpl. rewrite Ho. simpl.
    rewrite Hl. simpl.
    assert (Hr : rewire config act n xs = inl TypeError).
    { apply mapM_throws.
      - intros x e Hx. destruct (w_needs x) as [ns|]; simpl in Hx.
        + destruct (includes ns n); discriminate.
        + congruence.
      - exists a. split; [assumption|]. now rewrite Hnone. }
    rewrite Hr. apply fold_left_thrown. reflexivity. }
  split; [exact Hsel|]. unfold actions. now rewrite Hsel.
Qed.

Lemma rewiring_throws_on_an_item_without_needs_witness :
  getProjectsToRunActionIn (fun _ _ => inr ["tool"]) 3
    (mkConfig "/work"
       [("tool", mkProject "git@tool" None
                   [("build", mkAction [("*", ["make"])] None None)])])
    "build" "g" ["tool"] = inl TypeError /\
  actions (fun _ _ => inr ["tool"]) succeed 3 []
    (mkConfig "/work"
       [("tool", mkProject "git@tool" None
                   [("build", mkAction [("*", ["make"])] None None)])])
    "build" "g" ["tool"] = inl TypeError.
Proof.
  apply (rewiring_throws_on_an_item_without_needs
           (fun _ _ => inr ["tool"]) succeed 3 []
           (mkConfig "/work"
              [("tool", mkProject "git@tool" None
                          [("build", mkAction [("*", ["make"])] None None)])])
           "build" "g" ["tool"]
           [mkItem "tool" "build" "*" [("*", ["make"])] None None]
           (mkItem "tool" "build" "*" [("*", ["make"])] None None)
           ["tool"] "tool" []).
  - reflexivity.
  - simpl. now left.
  - reflexivity.
  - reflexivity.
  - reflexivity.
Defined.

(** ** Nothing to run *)

(** X9: let the requested action and group be names that no object
    inherits from [Object.prototype].  When no project of
    [projectsToRun] declares the action with the requested group or the
    wildcard (an empty subset, for one), nothing is run and [actions]
    returns no record, yet the topological order is still computed and
    read: an error of the graph module, or the [TypeError] of an
    undeclared name of the order, is thrown. *)
Theorem nothing_selected_runs_nothing topo f stack sched config act grp names :
  inherited act = false -> inherited grp = false ->
  direct_matches config act grp names = [] ->
  actions topo f stack sched config act grp names
  = (try order := topo config act in
     try noGroup := lacking_group config act grp (rev order) in
     inr []) /\
  run f sched [] = ([], initial_pool []).
Proof.
  intros _ _ Hnone. split; [|reflexivity].
  unfold actions, getProjectsToRunActionIn, resolveDependenciesForActions.
  rewrite Hnone. simpl.
  destruct (topo config act) as [e|order]; simpl; [reflexivity|].
  destruct (lacking_group config act grp (rev order)) as [e|noGroup]; simpl;
    [reflexivity|].
  assert (Hfold : fold_left
            (fun carry actionNoGroup =>
               try items := carry in rewire config act actionNoGroup items)
            noGroup (inr []) = inr []).
  { induction noGroup as [|m noGroup IH]; simpl; [reflexivity | exact IH]. }
  rewrite Hfold. reflexivity.
Qed.

Lemma nothing_selected_runs_nothing_witness :
  actions WebApi.order succeed 0 [] WebApi.config "build" "*" []
  = (try order := WebApi.order WebApi.config "build" in
     try noGroup := lacking_group WebApi.config "build" "*" (rev order) in
     inr []) /\
  run succeed [] [] = ([], initial_pool []).
Proof.
  apply (nothing_selected_runs_nothing WebApi.order succeed 0 [] WebApi.config
           "build" "*" []); reflexivity.
Defined.

(** ** The invoker *)

(** X10: [runAction] throws exactly when the project of the key is not
    declared, or has not the action, or when the action has not the
    group of the key and either inherits a member of that name from
    [Object.prototype] or has no wildcard group, and then it throws a
    [TypeError]; otherwise the record repeats the key, holds the
    directory and the command of the group of the key when the action
    has it (the wildcard command only when it has not), the exit code
    and the signal of the child process, an output and an error text
    that are never absent, and is neither a skip nor a duplicate. *)
Theorem runAction_throws_only_on_a_missing_command
    (getDir : string -> string -> string) (spawn : list string -> string -> Spawned)
    (config : Config) (k : GroupKey) :
  (forall e, runAction getDir spawn config k = inl e ->
     e = TypeError /\
     (get (projects config) (project k) = None \/
      exists p, get (projects config) (project k) = Some p /\
        (get (p_actions p) (action k) = None \/
         exists a, get (p_actions p) (action k) = Some a /\
           get (groups a) (group k) = None /\
           (inherited (group k) = true \/ get (groups a) "*" = None)))) /\
  (forall out, runAction getDir spawn config k = inr out ->
     exists p a c,
       get (projects config) (project k) = Some p /\
       get (p_actions p) (action k) = Some a /\
       (get (groups a) (group k) = Some c \/
        get (groups a) (group k) = None /\ inherited (group k) = false /\
        get (groups a) "*" = Some c) /\
       o_project out = project k /\ o_action out = action k /\
       o_group out = group k /\
       dir out = Some (getDir (cwd config) (p_remote p)) /\
       cmd out = Some c /\
       exitCode out = s_exitCode (spawn c (getDir (cwd config) (p_remote p))) /\
       signal out = s_signal (spawn c (getDir (cwd config) (p_remote p))) /\
       stdout out <> None /\ stderr out <> None /\
       wasSkippedBy out = None /\ wasSkippedDuplicated out = false).
Proof.
  unfold runAction.
  destruct (get (projects config) (project k)) as [p|] eqn:Hp; simpl.
  - destruct (get (p_actions p) (action k)) as [a|] eqn:Ha; simpl.
    + destruct (get (groups a) (group k)) as [c|] eqn:Hc; simpl.
      * split; [discriminate|]. intros out H. injection H as <-.
        exists p, a, c. simpl. repeat split; auto; try discriminate.
      * destruct (inherited (group k)) eqn:Hown; simpl.
        { split; [|discriminate]. intros e H. injection H as <-.
          split; [reflexivity|]. right. exists p. split; [reflexivity|].
          right. exists a. auto. }
        destruct (get (groups a) "*") as [c|] eqn:Hstar; simpl.
        -- split; [discriminate|]. intros out H. injection H as <-.
           exists p, a, c. simpl. repeat split; auto; try discriminate.
        -- split; [|discriminate]. intros e H. injection H as <-.
           split; [reflexivity|]. right. exists p. split; [reflexivity|].
           right. exists a. auto.
    + split; [|discriminate]. intros e H. injection H as <-.
      split; [reflexivity|]. right. exists p. auto.
  - split; [|discriminate]. intros e H. injection H as <-. auto.
Qed.

(** ** The cascade of [findActionsToSkipAfterFailure] *)

(** X11: whatever the depth, [findActionsToSkipAfterFailure] only
    empties slots of [blockedActions] (the array keeps its length and
    its other slots); each of its records is the skip of an action that
    was in the array, names a project that this action needs, the
    failed project or the project of another action of the array, and
    holds neither an exit code nor a command; and when no action of the
    array needs the failed project it returns no record and leaves the
    array as it is. *)
Theorem cascade_only_empties_slots
    (depth : nat) (its : list WorkItem) (failedProject : string)
    (blk : list (option nat)) (recs : list ActionOutput) (blk' : list (option nat)) :
  findActionsToSkipAfterFailure depth its failedProject blk = (recs, blk') ->
  emptied blk blk' /\ length blk' = length blk /\
  Forall (attributed its blk failedProject) recs /\
  Forall (fun rec => wasSkippedBy rec <> None /\
                     wasSkippedDuplicated rec = false /\
                     exitCode rec = None /\ cmd rec = None) recs /\
  ((forall r w, waiting blk r -> its !! r = Some w ->
      needs_project w failedProject = false) ->
   recs = [] /\ blk' = blk).
Proof.
  intros H. pose proof (cascade_records its depth _ _ _ _ H) as [Hem Hattr].
  split; [exact Hem|]. split; [now apply emptied_length|].
  split; [exact Hattr|]. split.
  - eapply List.Forall_impl; [|exact Hattr].
    intros rec (r & w & q & _ & _ & -> & _). simpl.
    repeat split; discriminate.
  - intros Hnone. destruct depth as [|depth].
    + simpl in H. injection H as <- <-. auto.
    + rewrite findActionsToSkipAfterFailure_S in H.
      assert (Hnil : actions_needing its failedProject blk = []).
      { destruct (actions_needing its failedProject blk) as [|r l] eqn:Hl;
          [reflexivity|exfalso].
        assert (Hin : In r (actions_needing its failedProject blk))
          by (rewrite Hl; now left).
        apply actions_needing_In in Hin. destruct Hin as [Hw [w [Hlook Hneeds]]].
        rewrite (Hnone r w Hw Hlook) in Hneeds. discriminate. }
      rewrite Hnil in H. simpl in H. injection H as <- <-. auto.
Qed.

Lemma cascade_only_empties_slots_witness :
  emptied [Some 1; Some 2] [None; None] /\
  length [@None nat; None] = length [Some 1; Some 2].
Proof.
  destruct (cascade_only_empties_slots 3 Hops.selected "web" [Some 1; Some 2]
              [ skipped_record
                  (mkItem "api" "build" "*" [("*", ["echo"; "api"])] None
                     (Some ["web"])) "web";
                skipped_record
                  (mkItem "ui" "build" "*" [("*", ["echo"; "ui"])] None
                     (Some ["api"])) "api" ]
              [None; None] eq_refl) as [Hem [Hlen _]].
  split; assumption.
Defined.

(** X12: with more depth than there are actions in the array, the
    cascade is closed: every action of the array that needs the failed
    project is taken out and has the record that names the failed
    project; every action taken out has a record, and no action left
    in the array needs its project; and no action left in the array
    needs the failed project. *)
Theorem cascade_is_transitively_closed
    (depth : nat) (its : list WorkItem) (failedProject : string)
    (blk : list (option nat)) (recs : list ActionOutput) (blk' : list (option nat)) :
  List.NoDup (refs blk) -> count_waiting blk < depth ->
  findActionsToSkipAfterFailure depth its failedProject blk = (recs, blk') ->
  (forall r w, waiting blk r -> its !! r = Some w ->
     needs_project w failedProject = true ->
     In (skipped_record w failedProject) recs /\ ~ waiting blk' r) /\
  (forall r w, waiting blk r -> ~ waiting blk' r -> its !! r = Some w ->
     (exists q, In (skipped_record w q) recs) /\
     forall r' w', waiting blk' r' -> its !! r' = Some w' ->
       needs_project w' (w_project w) = false) /\
  (forall rec, In rec recs ->
     exists r w q, waiting blk r /\ ~ waiting blk' r /\ its !! r = Some w /\
                   rec = skipped_record w q) /\
  (forall r w, waiting blk' r -> its !! r = Some w ->
     needs_project w failedProject = false).
Proof.
  intros Hnd Hdepth H.
  pose proof (cascade_complete its depth _ _ _ _ Hnd Hdepth H) as Hc.
  pose proof (cascaded_clears _ _ _ _ _ Hc) as Hclear.
  destruct Hc as (_ & Hout & Hrecs & Hdirect).
  repeat split.
  - now apply (Hdirect r w).
  - now apply (Hdirect r w).
  - now apply (Hout r w).
  - now apply (Hout r w).
  - exact Hrecs.
  - exact Hclear.
Qed.

Lemma cascade_is_transitively_closed_witness :
  In (skipped_record
        (mkItem "api" "build" "*" [("*", ["echo"; "api"])] None (Some ["web"]))
        "web")
     [ skipped_record
         (mkItem "api" "build" "*" [("*", ["echo"; "api"])] None (Some ["web"]))
         "web";
       skipped_record
         (mkItem "ui" "build" "*" [("*", ["echo"; "ui"])] None (Some ["api"]))
         "api" ] /\
  ~ waiting [@None nat; None] 1.
Proof.
  refine (proj1
            (cascade_is_transitively_closed 3 Hops.selected "web"
               [Some 1; Some 2]
               [ skipped_record
                   (mkItem "api" "build" "*" [("*", ["echo"; "api"])] None
                      (Some ["web"])) "web";
                 skipped_record
                   (mkItem "ui" "build" "*" [("*", ["echo"; "ui"])] None
                      (Some ["api"])) "api" ]
               [None; None] _ _ eq_refl)
            1
            (mkItem "api" "build" "*" [("*", ["echo"; "api"])] None (Some ["web"]))
            _ eq_refl eq_refl).
  - simpl. repeat constructor; simpl; intuition discriminate.
  - simpl. lia.
  - simpl. now left.
Defined.

Lemma delete_ref_count (r : nat) (blk : list (option nat)) :
  waiting blk r -> S (count_waiting (delete_ref r blk)) = count_waiting blk.
Proof.
  induction blk as [|[r'|] blk IH]; simpl; intros H; [contradiction| |].
  - destruct (Nat.eqb_spec r' r) as [->|Hne]; [reflexivity|].
    simpl. f_equal. apply IH. destruct H as [H|H]; [congruence | exact H].
  - apply IH. destruct H as [H|H]; [discriminate | exact H].
Qed.

Lemma cascade_depth_S (its : list WorkItem) :
  forall depth failedProject blk,
    count_waiting blk < depth ->
    findActionsToSkipAfterFailure (S depth) its failedProject blk
    = findActionsToSkipAfterFailure depth its failedProject blk.
Proof.
  induction depth as [|depth IH]; intros failedProject blk Hlt; [lia|].
  rewrite (findActionsToSkipAfterFailure_S (S depth)),
          (findActionsToSkipAfterFailure_S depth).
  assert (Hgen : forall l st,
            emptied blk (snd st) ->
            (forall ref, In ref l -> waiting blk ref) ->
            fold_left (skip_step (S depth) its failedProject) l st
            = fold_left (skip_step depth its failedProject) l st).
  { induction l as [|ref l IHl]; intros [sk b] Hem Hw; [reflexivity|].
    cbn [fold_left].
    assert (Hbound : count_waiting (delete_ref ref b) < depth).
    { simpl in Hem. assert (Hr : waiting blk ref) by (apply Hw; now left).
      destruct (waiting_dec b ref) as [Hb|Hb].
      - pose proof (delete_ref_count ref b Hb).
        pose proof (emptied_count _ _ Hem). lia.
      - pose proof (emptied_count_lt _ _ _ Hem Hr Hb).
        pose proof (emptied_count _ _ (delete_ref_emptied ref b)). lia. }
    assert (Hstep : skip_step (S depth) its failedProject (sk, b) ref
                    = skip_step depth its failedProject (sk, b) ref).
    { unfold skip_step. destruct (its !! ref) as [w|]; [|reflexivity].
      now rewrite (IH (w_project w) (delete_ref ref b) Hbound). }
    rewrite Hstep. apply IHl.
    - unfold skip_step. destruct (its !! ref) as [w|]; [|exact Hem].
      destruct (findActionsToSkipAfterFailure depth its (w_project w)
                  (delete_ref ref b)) as [below blk1] eqn:Hcall.
      apply cascade_records in Hcall. destruct Hcall as [Hem1 _]. simpl.
      eapply emptied_trans; [exact Hem|].
      eapply emptied_trans; [apply delete_ref_emptied | exact Hem1].
    - intros ref' Hin. apply Hw. now right. }
  apply Hgen; [apply emptied_refl|].
  intros ref Hin. apply actions_needing_In in Hin. tauto.
Qed.

Lemma cascade_depth_add (its : list WorkItem) (failedProject : string)
    (blk : list (option nat)) (depth more : nat) :
  count_waiting blk < depth ->
  findActionsToSkipAfterFailure (more + depth) its failedProject blk
  = findActionsToSkipAfterFailure depth its failedProject blk.
Proof.
  intros Hlt. induction more as [|more IH]; [reflexivity|].
  change (S more + depth) with (S (more + depth)).
  rewrite cascade_depth_S by lia. exact IH.
Qed.

(** X13: the calls of [findActionsToSkipAfterFailure] never nest deeper
    than the number of actions in the array plus one, also when the
    [needs] form a cycle: any two depths above that number give the
    same records and the same array, and so does the depth the [then]
    callback is modelled with. *)
Theorem cascade_nesting_is_bounded
    (its : list WorkItem) (failedProject : string) (blk : list (option nat))
    (d1 d2 : nat) :
  count_waiting blk < d1 -> count_waiting blk < d2 ->
  findActionsToSkipAfterFailure d1 its failedProject blk
  = findActionsToSkipAfterFailure d2 its failedProject blk /\
  findActionsToSkipAfterFailure (S (length blk)) its failedProject blk
  = findActionsToSkipAfterFailure d1 its failedProject blk.
Proof.
  intros H1 H2.
  assert (Hany : forall d, count_waiting blk < d ->
            findActionsToSkipAfterFailure d its failedProject blk
            = findActionsToSkipAfterFailure (S (count_waiting blk)) its
                failedProject blk).
  { intros d Hd.
    replace d with ((d - S (count_waiting blk)) + S (count_waiting blk)) by lia.
    apply cascade_depth_add. lia. }
  split.
  - rewrite (Hany d1 H1), (Hany d2 H2). reflexivity.
  - rewrite (Hany d1 H1). apply Hany.
    pose proof (count_waiting_le blk). lia.
Qed.

Lemma cascade_nesting_is_bounded_witness :
  findActionsToSkipAfterFailure 3 Hops.selected "web" [Some 1; Some 2]
  = findActionsToSkipAfterFailure 9 Hops.selected "web" [Some 1; Some 2] /\
  findActionsToSkipAfterFailure (S (length [Some 1; Some 2])) Hops.selected
    "web" [Some 1; Some 2]
  = findActionsToSkipAfterFailure 3 Hops.selected "web" [Some 1; Some 2].
Proof.
  apply (cascade_nesting_is_bounded Hops.selected "web" [Some 1; Some 2] 3 9);
    simpl; lia.
Defined.

(** ** The [then] callback *)

(** X14: whatever the outcome of the action, its [then] callback leaves
    the array [blockedActions] with slots emptied and nothing else
    changed; an action that was not in the array is untouched and an
    action of the array keeps all its fields but [needs], which at most
    loses the finished project; and afterwards no action left in the
    array needs the finished project or has an empty [needs]. *)
Theorem callback_strips_the_finished_project
    (k : GroupKey) (res : ActionOutput) (s : Pool)
    (kids : list Promise) (removed : list ActionOutput) (s' : Pool) :
  then_callback k res s = (Awaiting res kids removed, s') ->
  emptied (blocked s) (blocked s') /\
  length (items s') = length (items s) /\
  (forall r, ~ waiting (blocked s) r -> items s' !! r = items s !! r) /\
  (forall r a', items s' !! r = Some a' ->
     exists a, items s !! r = Some a /\ (a' = a \/ a' = strip (project k) a)) /\
  (forall r a', waiting (blocked s') r -> items s' !! r = Some a' ->
     needs_project a' (project k) = false /\ w_needs a' <> Some []).
Proof.
  intros H.
  destruct (then_callback_spec _ _ _ _ _ _ H) as (blk1 & freed & _ & Hem1 & Hfree & _).
  pose proof (free_actions_spec _ _ _ _ _ _ Hfree)
    as (Hlen & Hstrip & Hsame & Hem2 & Hleft & _).
  split; [eapply emptied_trans; eassumption|].
  split; [exact Hlen|]. split; [|split].
  - intros r Hr. apply Hsame. intros Hw. apply Hr.
    eapply emptied_waiting; eassumption.
  - intros r a' Hlook. destruct (waiting_dec blk1 r) as [Hw|Hw].
    + rewrite (Hstrip r Hw) in Hlook.
      destruct (strip_lookup _ _ _ _ Hlook) as [a [Ha ->]]. eauto.
    + rewrite (Hsame r Hw) in Hlook. eauto.
  - intros r a' Hw Hlook. apply Hleft in Hw. destruct Hw as [Hw Hfull].
    rewrite (Hstrip r Hw) in Hlook. split; [|now apply Hfull].
    destruct (strip_lookup _ _ _ _ Hlook) as [a [Ha ->]].
    destruct (needs_project (strip (project k) a) (project k)) eqn:Hn;
      [|reflexivity].
    apply needs_project_strip in Hn. destruct Hn as [_ Hn]. now contradiction Hn.
Qed.

Lemma callback_strips_the_finished_project_witness :
  emptied [Some 1; Some 2] [None; Some 2] /\
  length Hops.selected = length Hops.selected.
Proof.
  destruct (callback_strips_the_finished_project (mkKey "web" "build" "*")
              (succeed (mkKey "web" "build" "*"))
              (mkPool Hops.selected [Some 1; Some 2]
                 [mkKey "web" "build" "*"] [mkKey "web" "build" "*"])
              [Invoking (mkKey "api" "build" "*")] []
              (mkPool
                 [ mkItem "web" "build" "*" [("*", ["echo"; "web"])] None (Some []);
                   mkItem "api" "build" "*" [("*", ["echo"; "api"])] None (Some []);
                   mkItem "ui" "build" "*" [("*", ["echo"; "ui"])] None
                     (Some ["api"]) ]
                 [None; Some 2]
                 [mkKey "web" "build" "*"; mkKey "api" "build" "*"]
                 [mkKey "web" "build" "*"; mkKey "api" "build" "*"])
              eq_refl) as [Hem [Hlen _]].
  split; assumption.
Defined.

(** X15: the [then] callback loses no action of [blockedActions]: an
    action that was in the array is still in it afterwards, or it was
    freed and the wrapper was called for it under the key of the
    finished action with its own project, or the cascade took it out
    with a skip record.  After a success there is no skip record, and
    the actions left plus the actions launched are the actions there
    were. *)
Theorem callback_accounts_for_every_blocked_action
    (k : GroupKey) (res : ActionOutput) (s : Pool)
    (kids : list Promise) (removed : list ActionOutput) (s' : Pool) :
  then_callback k res s = (Awaiting res kids removed, s') ->
  List.NoDup (refs (blocked s)) ->
  (forall r a, waiting (blocked s) r -> items s !! r = Some a ->
     waiting (blocked s') r \/
     (exists c, In c kids /\ launched_as (freed_key k a) c) \/
     (exists q, In (skipped_record a q) removed)) /\
  (succeeded res = true ->
   removed = [] /\
   count_waiting (blocked s') + length kids = count_waiting (blocked s)).
Proof.
  intros H Hnd. split.
  - intros r a Hw Hlook.
    destruct (then_callback_freed _ _ _ _ _ _ H)
      as (blk1 & freed & _ & _ & Hkids & Hfreed & _ & Hleft & _ & _ & _ &
          Hout & _).
    destruct (waiting_dec blk1 r) as [Hw1|Hw1].
    + destruct (w_needs (strip (project k) a)) as [[|n ns]|] eqn:Hneeds.
      * right. left.
        assert (Hin : In (strip (project k) a) freed).
        { apply Hfreed. exists r. rewrite Hlook. auto. }
        apply (in_map (freed_key k)) in Hin.
        destruct (Forall2_In_l _ _ _ Hkids _ Hin) as [c [Hc Hl]].
        exists c. split; [exact Hc | exact Hl].
      * left. apply Hleft. split; [exact Hw1|].
        intros a' Ha'. rewrite Hlook in Ha'. injection Ha' as <-.
        rewrite Hneeds. discriminate.
      * left. apply Hleft. split; [exact Hw1|].
        intros a' Ha'. rewrite Hlook in Ha'. injection Ha' as <-.
        rewrite Hneeds. discriminate.
    + right. right. destruct (Hout Hnd r a Hw Hw1 Hlook) as [Hq _]. exact Hq.
  - intros Hok.
    destruct (then_callback_spec _ _ _ _ _ _ H)
      as (blk1 & freed & Hcasc & _ & Hfree & Hlaunch).
    rewrite Hok in Hcasc. injection Hcasc as <- <-.
    split; [reflexivity|].
    pose proof (free_actions_spec _ _ _ _ _ _ Hfree) as (_ & _ & _ & _ & _ & _ & Hcount).
    apply launch_shape in Hlaunch. apply Forall2_length in Hlaunch.
    rewrite length_map in Hlaunch. lia.
Qed.

Lemma callback_accounts_for_every_blocked_action_witness :
  @nil ActionOutput = [] /\
  count_waiting [None; Some 2] + length [Invoking (mkKey "api" "build" "*")]
  = count_waiting [Some 1; Some 2].
Proof.
  refine (proj2
            (callback_accounts_for_every_blocked_action (mkKey "web" "build" "*")
               (succeed (mkKey "web" "build" "*"))
               (mkPool Hops.selected [Some 1; Some 2]
                  [mkKey "web" "build" "*"] [mkKey "web" "build" "*"])
               [Invoking (mkKey "api" "build" "*")] []
               (mkPool
                  [ mkItem "web" "build" "*" [("*", ["echo"; "web"])] None (Some []);
                    mkItem "api" "build" "*" [("*", ["echo"; "api"])] None (Some []);
                    mkItem "ui" "build" "*" [("*", ["echo"; "ui"])] None
                      (Some ["api"]) ]
                  [None; Some 2]
                  [mkKey "web" "build" "*"; mkKey "api" "build" "*"]
                  [mkKey "web" "build" "*"; mkKey "api" "build" "*"])
               eq_refl _)
            eq_refl).
  simpl. repeat constructor; simpl; intuition (discriminate || lia).
Defined.

(** ** The calls of a run *)

Lemma tier_step (f : GroupKey -> ActionOutput) (p : Z) (s : Pool)
    (ps : list Promise) (s1 : Pool) :
  launch (map item_key (List.filter (in_tier p) (items s))) s = (ps, s1) ->
  pool_step f s s1.
Proof.
  intros Hl. eapply step_launch; [|exact Hl].
  intros a Ha. apply filter_In in Ha. destruct Ha as [Hin Ht].
  split; [assumption|].
  unfold in_tier in Ht. apply andb_true_iff in Ht. destruct Ht as [_ Ht].
  now apply Nat.eqb_eq in Ht.
Qed.


(** Every state of a run keeps the work items at their places, with
    their projects. *)
Lemma run_item_at (f : GroupKey -> ActionOutput) (its : list WorkItem) (s : Pool)
    (r : nat) (a : WorkItem) (b : WorkItem) :
  List.NoDup (map w_project its) ->
  reaches f (initial_pool its) s ->
  items s !! r = Some a -> In b its -> w_project b = w_project a ->
  its !! r = Some b.
Proof.
  intros Hnd Hreach Ha Hb Hp.
  destruct (reaches_needs f _ _ r a Hreach Ha) as [b0 [Hb0 [Hp0 _]]].
  simpl in Hb0. destruct (In_lookup _ _ Hb) as [j Hj].
  assert (j = r) by (eapply unique_index; eauto; congruence).
  subst j. exact Hj.
Qed.




Lemma split_app {A : Type} (xs ys l1 l2 : list A) (k : A) :
  xs ++ ys = l1 ++ k :: l2 ->
  (exists l, xs = l1 ++ k :: l) \/ (In k ys /\ exists l, l1 = xs ++ l).
Proof.
  intros H. apply app_eq_app in H.
  destruct H as [l [[Hxs Hys]|[Hl1 Hys]]].
  - destruct l as [|k0 l].
    + right. simpl in Hys. rewrite app_nil_r in Hxs. subst.
      split; [now left | exists []; now rewrite app_nil_r].
    + injection Hys as <- _. left. exists l. exact Hxs.
  - right. subst. split; [apply in_or_app; right; now left | eauto].
Qed.

(** The projects whose calls were made explain the needs that the work
    items have lost. *)
Lemma calls_follow_needs (f : GroupKey -> ActionOutput) (sched : list nat)
    (its : list WorkItem) :
  List.NoDup (map w_project its) ->
  forall l1 k l2 b n,
    invoked (snd (run f sched its)) = l1 ++ k :: l2 ->
    In b its -> w_project b = project k -> needs_project b n = true ->
    exists k', In k' l1 /\ project k' = n.
Proof.
  intros Hnd.
  pose (I := fun (_ : list Z) (fl : list GroupKey) (_ : list ActionOutput)
                 (s : Pool) =>
    reaches f (initial_pool its) s /\
    (forall k, In k fl -> In k (invoked s)) /\
    (forall l1 k l2 b n,
       invoked s = l1 ++ k :: l2 ->
       In b its -> w_project b = project k -> needs_project b n = true ->
       exists k', In k' l1 /\ project k' = n) /\
    (forall r b0 b n,
       its !! r = Some b0 -> items s !! r = Some b ->
       needs_project b0 n = true -> needs_project b n = false ->
       exists k', In k' (invoked s) /\ project k' = n)).
  assert (H : I [] [] (fst (run f sched its)) (snd (run f sched its))).
  { apply run_ind.
    - intros p todo recs s ps s1 (Hreach & _ & Hfirst & Hlost) Hl.
      assert (Hreach1 : reaches f (initial_pool its) s1)
        by (eapply reaches_step; [exact Hreach | eapply tier_step; exact Hl]).
      apply launch_spec in Hl.
      destruct Hl as (Hitems & _ & new & _ & Hinv & Hfl & Hnew & _).
      split; [assumption|]. split; [|split].
      + intros k Hk. rewrite Hfl in Hk. rewrite Hinv.
        apply in_or_app. now right.
      + intros l1 k l2 b n Hsplit Hb Hp Hn. rewrite Hinv in Hsplit.
        apply split_app in Hsplit.
        destruct Hsplit as [[l Hprev]|[Hk [l ->]]].
        * apply (Hfirst l1 k l b n); auto.
        * apply Hnew in Hk. destruct Hk as [Hk _].
          apply tier_keys in Hk.
          destruct Hk as (j & a & Hj & -> & _ & Hzero).
          pose proof (run_item_at f its s j a b Hnd Hreach Hj Hb Hp) as Hjb.
          destruct (Hlost j b a n Hjb Hj Hn) as [k' [Hk' Hpk']].
          { unfold needs_project, needs_length in *.
            destruct (w_needs a) as [[|x xs]|]; [reflexivity | discriminate
                                                | reflexivity]. }
          exists k'. split; [|assumption]. apply in_or_app. now left.
      + intros r b0 b n Hb0 Hb Hn0 Hn. rewrite Hitems in Hb.
        destruct (Hlost r b0 b n Hb0 Hb Hn0 Hn) as [k' [Hk' Hpk']].
        exists k'. split; [|assumption]. rewrite Hinv. apply in_or_app. now left.
    - intros todo fl recs s fl' recs' s' (Hreach & Hfl & Hfirst & Hlost)
        (k & l1 & l2 & kids & removed & -> & Hcb & -> & _).
      assert (Hk : In k (invoked s))
        by (apply Hfl, in_or_app; right; now left).
      assert (Hreach1 : reaches f (initial_pool its) s')
        by (eapply reaches_step; [exact Hreach | eapply step_settle; exact Hcb]).
      pose proof (then_callback_spec _ _ _ _ _ _ Hcb)
        as (blk1 & freed & _ & _ & Hfree & Hlaunch).
      pose proof (free_actions_spec _ _ _ _ _ _ Hfree)
        as (_ & Hstrip & Hsame & _ & _ & Hfreed & _).
      apply launch_spec in Hlaunch. simpl in Hlaunch.
      destruct Hlaunch as (_ & _ & new & _ & Hinv & Hkids & Hnew & _).
      assert (Hold : forall k0, In k0 (invoked s) -> In k0 (invoked s'))
        by (intros k0 Hk0; rewrite Hinv; apply in_or_app; now left).
      assert (Hlost' : forall r b0 b n,
                its !! r = Some b0 -> items s' !! r = Some b ->
                needs_project b0 n = true -> needs_project b n = false ->
                exists k', In k' (invoked s) /\ project k' = n).
      { intros r b0 b n Hb0 Hb Hn0 Hn.
        destruct (waiting_dec blk1 r) as [Hw|Hw].
        - rewrite (Hstrip r Hw) in Hb.
          destruct (strip_lookup _ _ _ _ Hb) as [a [Ha ->]].
          destruct (needs_project a n) eqn:Han.
          + destruct (String.eqb_spec n (project k)) as [->|Hne].
            * exists k. auto.
            * assert (Hkeep : needs_project (strip (project k) a) n = true)
                by (apply needs_project_strip; auto).
              congruence.
          + apply (Hlost r b0 a n); auto.
        - rewrite (Hsame r Hw) in Hb. apply (Hlost r b0 b n); auto. }
      split; [assumption|]. split; [|split].
      + intros k0 Hk0. apply in_app_or in Hk0. destruct Hk0 as [Hk0|Hk0].
        * apply Hold, Hfl, in_or_app. now left.
        * apply in_app_or in Hk0. destruct Hk0 as [Hk0|Hk0].
          -- rewrite Hinv, <- Hkids. apply in_or_app. now right.
          -- apply Hold, Hfl, in_or_app. right. now right.
      + intros m1 k0 m2 b n Hsplit Hb Hp Hn. rewrite Hinv in Hsplit.
        assert (Hnewkey : In k0 new -> exists k', In k' (invoked s) /\ project k' = n).
        { intros Hk0. apply Hnew in Hk0. destruct Hk0 as [Hk0 _].
          apply in_map_iff in Hk0. destruct Hk0 as [a [<- Ha]].
          apply Hfreed in Ha. destruct Ha as [r [Hw [Hlook Hempty]]].
          rewrite <- (Hstrip r Hw) in Hlook.
          pose proof (run_item_at f its s' r a b Hnd Hreach1 Hlook Hb Hp) as Hrb.
          apply (Hlost' r b a n Hrb Hlook Hn).
          unfold needs_project. now rewrite Hempty. }
        apply split_app in Hsplit.
        destruct Hsplit as [[l Hprev]|[Hk0 [l ->]]].
        * apply (Hfirst m1 k0 l b n); auto.
        * destruct (Hnewkey Hk0) as [k' [Hk' Hpk']].
          exists k'. split; [|assumption]. apply in_or_app. now left.
      + intros r b0 b n Hb0 Hb Hn0 Hn.
        destruct (Hlost' r b0 b n Hb0 Hb Hn0 Hn) as [k' [Hk' Hpk']].
        exists k'. auto.
    - split; [constructor|]. split; [intros ? []|]. split.
      + intros l1 k l2 b n Hsplit. simpl in Hsplit.
        destruct l1; discriminate.
      + intros r b0 b n Hb0 Hb Hn0 Hn. simpl in Hb. congruence. }
  destruct H as (_ & _ & H & _). exact H.
Qed.

(** X17: dependencies first.  In the order in which a run calls the
    invoker, the call for a project comes after a call for each
    project that the work item of that project needs, whatever the
    order in which the child processes end. *)
Theorem dependencies_are_called_first (f : GroupKey -> ActionOutput)
    (sched : list nat) (its : list WorkItem)
    (l1 : list GroupKey) (k : GroupKey) (l2 : list GroupKey)
    (b : WorkItem) (ns : list string) (n : string) :
  List.NoDup (map w_project its) ->
  invoked (snd (run f sched its)) = l1 ++ k :: l2 ->
  In b its -> w_project b = project k ->
  w_needs b = Some ns -> In n ns ->
  exists k', In k' l1 /\ project k' = n.
Proof.
  intros Hnd Hsplit Hb Hp Hns Hn.
  apply (calls_follow_needs f sched its Hnd l1 k l2 b n Hsplit Hb Hp).
  apply needs_project_In. exists ns. split; assumption.
Qed.

Lemma dependencies_are_called_first_witness :
  exists k', In k' [mkKey "web" "build" "*"; mkKey "api" "build" "*"] /\
             project k' = "api".
Proof.
  refine (dependencies_are_called_first succeed [1; 0] Hops.selected
            [mkKey "web" "build" "*"; mkKey "api" "build" "*"]
            (mkKey "ui" "build" "*") []
            (mkItem "ui" "build" "*" [("*", ["echo"; "ui"])] None (Some ["api"]))
            ["api"] "api" _ eq_refl _ eq_refl eq_refl _).
  - simpl. repeat constructor; simpl; intuition discriminate.
  - simpl. right. right. now left.
  - simpl. now left.
Defined.

(** X18: the invoker is only called for projects of the work items, and
    every key it is called with carries the action name and the group
    of one of the work items: a freed action is called under the names
    its whole chain of dependencies was called under. *)
Theorem calls_are_for_selected_projects (f : GroupKey -> ActionOutput)
    (sched : list nat) (its : list WorkItem) (k : GroupKey) :
  In k (invoked (snd (run f sched its))) ->
  (exists w, In w its /\ w_project w = project k) /\
  (exists w, In w its /\ w_action w = action k /\ w_group w = group k).
Proof.
  intros Hk. split.
  - pose proof (run_reaches f sched its) as Hreach.
    pose proof (reaches_initial f its _ Hreach) as (Hprojs & _ & _ & _ & Hel).
    destruct (Hel k Hk) as (r & w & Hr & Hp & _).
    apply lookup_In in Hr. apply (in_map w_project) in Hr.
    rewrite Hprojs, Hp in Hr. apply in_map_iff in Hr.
    destruct Hr as [w0 [Hp0 Hw0]]. exists w0. auto.
  - revert k Hk.
    pose (I := fun (_ : list Z) (fl : list GroupKey) (_ : list ActionOutput)
                   (s : Pool) =>
      reaches f (initial_pool its) s /\
      (forall k, In k fl -> In k (invoked s)) /\
      forall k, In k (invoked s) ->
        exists w, In w its /\ w_action w = action k /\ w_group w = group k).
    assert (H : I [] [] (fst (run f sched its)) (snd (run f sched its))).
    { apply run_ind.
      - intros p todo recs s ps s1 (Hreach & _ & Hinv0) Hl.
        assert (Hreach1 : reaches f (initial_pool its) s1)
          by (eapply reaches_step; [exact Hreach | eapply tier_step; exact Hl]).
        apply launch_spec in Hl.
        destruct Hl as (_ & _ & new & _ & Hinv & Hfl & Hnew & _).
        split; [assumption|]. split.
        + intros k Hk. rewrite Hfl in Hk. rewrite Hinv.
          apply in_or_app. now right.
        + intros k Hk. rewrite Hinv in Hk. apply in_app_or in Hk.
          destruct Hk as [Hk|Hk]; [now apply Hinv0|].
          apply Hnew in Hk. destruct Hk as [Hk _]. apply tier_keys in Hk.
          destruct Hk as (j & a & Hj & -> & _).
          destruct (reaches_same_binding f _ _ j a Hreach Hj)
            as (a0 & Ha0 & (_ & Hact & Hgrp & _) & _).
          simpl in Ha0. apply lookup_In in Ha0.
          exists a0. simpl. auto.
      - intros todo fl recs s fl' recs' s' (Hreach & Hfl & Hinv0)
          (k & l1 & l2 & kids & removed & -> & Hcb & -> & _).
        assert (Hk : In k (invoked s))
          by (apply Hfl, in_or_app; right; now left).
        assert (Hreach1 : reaches f (initial_pool its) s')
          by (eapply reaches_step; [exact Hreach | eapply step_settle; exact Hcb]).
        pose proof (then_callback_effects _ _ _ _ _ _ Hcb)
          as (new & Hinv & _ & Hkids & _ & _ & Hnames).
        assert (Hold : forall k0, In k0 (invoked s) -> In k0 (invoked s'))
          by (intros k0 Hk0; rewrite Hinv; apply in_or_app; now left).
        split; [assumption|]. split.
        + intros k0 Hk0. apply in_app_or in Hk0. destruct Hk0 as [Hk0|Hk0].
          * apply Hold, Hfl, in_or_app. now left.
          * apply in_app_or in Hk0. destruct Hk0 as [Hk0|Hk0].
            -- rewrite Hinv, <- Hkids. apply in_or_app. now right.
            -- apply Hold, Hfl, in_or_app. right. now right.
        + intros k0 Hk0. rewrite Hinv in Hk0. apply in_app_or in Hk0.
          destruct Hk0 as [Hk0|Hk0]; [now apply Hinv0|].
          destruct (Hnames k0 Hk0) as [Ha Hg].
          destruct (Hinv0 k Hk) as (w & Hw & Hwa & Hwg).
          exists w. rewrite Ha, Hg. auto.
      - split; [constructor|]. split; intros ? []. }
    destruct H as (_ & _ & H). exact H.
Qed.

Lemma calls_are_for_selected_projects_witness :
  (exists w, In w Hops.selected /\ w_project w = "ui") /\
  (exists w, In w Hops.selected /\ w_action w = "build" /\ w_group w = "*").
Proof.
  apply (calls_are_for_selected_projects succeed [] Hops.selected
           (mkKey "ui" "build" "*")).
  simpl. right. right. now left.
Defined.

(** ** Work items that need nothing *)

Lemma blocked_refs_none (its : list WorkItem) :
  (forall a, In a its -> needs_length a = 0) ->
  forall from, blocked_refs from its = [].
Proof.
  induction its as [|a its IH]; simpl; intros Hnone from; [reflexivity|].
  rewrite (Hnone a) by now left. simpl. apply IH.
  intros b Hb. apply Hnone. now right.
Qed.

Lemma then_callback_idle (k : GroupKey) (res : ActionOutput) (s : Pool) :
  blocked s = [] -> then_callback k res s = (Awaiting res [] [], s).
Proof.
  destruct s as [its blk bs inv]. simpl. intros ->.
  unfold then_callback. simpl. destruct (succeeded res); reflexivity.
Qed.

Lemma settle_among_idle (f : GroupKey -> ActionOutput) (s : Pool) :
  blocked s = [] ->
  forall ks ps, Forall2 (idle_promise f) ks ps ->
    forall n ps' s',
      settle_among (settle f) ps n s = Some (ps', s') ->
      s' = s /\ Forall2 (idle_promise f) ks ps'.
Proof.
  intros Hidle ks ps HF.
  induction HF as [|k p ks ps Hp HF IH]; simpl; intros n ps' s' H; [discriminate|].
  destruct Hp as [-> | ->]; simpl in H.
  - destruct n as [|n]; simpl in H.
    + rewrite then_callback_idle in H by assumption. injection H as <- <-.
      split; [reflexivity|]. constructor; [now right | assumption].
    + match type of H with
      | context [settle_among ?g ?l ?m ?t] =>
          destruct (settle_among g l m t) as [[ps1 s1]|] eqn:Hrest;
            [|discriminate]
      end.
      injection H as <- <-. destruct (IH _ _ _ Hrest) as [-> HF'].
      split; [reflexivity|]. constructor; [now left | assumption].
  - destruct (Nat.ltb n 0) eqn:Hlt; [apply Nat.ltb_lt in Hlt; lia|].
    match type of H with
    | context [settle_among ?g ?l ?m ?t] =>
        destruct (settle_among g l m t) as [[ps1 s1]|] eqn:Hrest;
          [|discriminate]
    end.
    injection H as <- <-. destruct (IH _ _ _ Hrest) as [-> HF'].
    split; [reflexivity|]. constructor; [now right | assumption].
Qed.

Lemma idle_outputs (f : GroupKey -> ActionOutput) (ks : list GroupKey)
    (ps : list Promise) :
  Forall2 (idle_promise f) ks ps -> inflight_all ps = [] ->
  concat (map flatten ps) = map f ks.
Proof.
  induction 1 as [|k p ks ps Hp HF IH]; simpl; intros Hdone; [reflexivity|].
  unfold inflight_all in Hdone. simpl in Hdone.
  apply app_eq_nil in Hdone. destruct Hdone as [Hp0 Hrest].
  destruct Hp as [-> | ->]; [discriminate|].
  simpl. f_equal. now apply IH.
Qed.

Lemma launch_fresh (ks : list GroupKey) :
  forall s,
    List.NoDup ks -> (forall k, In k ks -> ~ In k (begun s)) ->
    launch ks s
    = (map Invoking ks,
       mkPool (items s) (blocked s) (begun s ++ ks) (invoked s ++ ks)).
Proof.
  induction ks as [|k ks IH]; simpl; intros s Hnd Hfresh.
  - rewrite !app_nil_r. now destruct s.
  - apply List.NoDup_cons_iff in Hnd. destruct Hnd as [Hk Hnd].
    rewrite wrapper_fresh by (apply Hfresh; now left).
    rewrite IH; simpl.
    + now rewrite <- !app_assoc.
    + assumption.
    + intros k' Hk' Hin. apply in_app_or in Hin.
      destruct Hin as [Hin|[<-|[]]]; [|contradiction].
      apply (Hfresh k'); [now right | assumption].
Qed.

Lemma NoDup_map_filter {A B : Type} (g : A -> B) (h : A -> bool) (l : list A) :
  List.NoDup (map g l) -> List.NoDup (map g (List.filter h l)).
Proof.
  induction l as [|x l IH]; simpl; intros Hnd; [constructor|].
  apply List.NoDup_cons_iff in Hnd. destruct Hnd as [Hx Hnd].
  destruct (h x); simpl; [|now apply IH].
  constructor; [|now apply IH].
  intros Hin. apply Hx. apply in_map_iff in Hin. destruct Hin as [y [Hy Hin]].
  apply filter_In in Hin. apply in_map_iff. exists y. tauto.
Qed.

Lemma NoDup_map_eq {A B : Type} (g : A -> B) (l : list A) (x y : A) :
  List.NoDup (map g l) -> In x l -> In y l -> g x = g y -> x = y.
Proof.
  induction l as [|z l IH]; simpl; intros Hnd Hx Hy Heq; [contradiction|].
  apply List.NoDup_cons_iff in Hnd. destruct Hnd as [Hz Hnd].
  destruct Hx as [->|Hx], Hy as [->|Hy]; auto.
  - exfalso. apply Hz. rewrite Heq. now apply in_map.
  - exfalso. apply Hz. rewrite <- Heq. now apply in_map.
Qed.

Lemma run_tier_idle (f : GroupKey -> ActionOutput) (its : list WorkItem)
    (sched : list nat) (out : list ActionOutput) (done : list GroupKey) (p : Z) :
  List.NoDup (map item_key its) ->
  (forall k, In k (map item_key (List.filter (in_tier p) its)) -> ~ In k done) ->
  exists sched',
    run_tier f (sched, out, mkPool its [] done done) p
    = (sched',
       out ++ map f (map item_key (List.filter (in_tier p) its)),
       mkPool its [] (done ++ map item_key (List.filter (in_tier p) its))
         (done ++ map item_key (List.filter (in_tier p) its))).
Proof.
  intros Hnd Hfresh. unfold run_tier. cbn [items].
  set (ks := map item_key (List.filter (in_tier p) its)) in *.
  rewrite launch_fresh;
    [|now apply NoDup_map_filter | exact Hfresh].
  cbn [items blocked begun invoked].
  destruct (await_all f sched (map Invoking ks)
              (mkPool its [] (done ++ ks) (done ++ ks)))
    as [[sched' ps'] s2] eqn:Ha.
  exists sched'.
  pose proof (await_all_done f _ _ _ _ _ _ Ha) as Hdone.
  unfold await_all in Ha.
  assert (HJ : s2 = mkPool its [] (done ++ ks) (done ++ ks) /\
               Forall2 (idle_promise f) ks ps').
  { eapply (drain_ind f
              (fun ps0 s0 => s0 = mkPool its [] (done ++ ks) (done ++ ks) /\
                             Forall2 (idle_promise f) ks ps0));
      [| |exact Ha].
    - intros ps0 s0 n ps1 s1 [-> HF] Hs.
      eapply settle_among_idle in Hs; [|reflexivity | exact HF].
      destruct Hs as [-> HF']. auto.
    - split; [reflexivity|]. clear. induction ks; constructor; [now left | auto]. }
  destruct HJ as [-> HF].
  now rewrite (idle_outputs f ks ps' HF Hdone).
Qed.

Lemma run_tiers_idle (f : GroupKey -> ActionOutput) (its : list WorkItem) :
  List.NoDup (map item_key its) ->
  forall prios sched out done passed,
    List.NoDup (passed ++ prios) ->
    (forall k, In k done ->
       exists a, In a its /\ k = item_key a /\ In (priority_or_0 a) passed) ->
    exists sched',
      fold_left (run_tier f) prios (sched, out, mkPool its [] done done)
      = (sched',
         out ++ map f (concat (map (fun p => map item_key
                                              (List.filter (in_tier p) its))
                                 prios)),
         mkPool its []
           (done ++ concat (map (fun p => map item_key
                                            (List.filter (in_tier p) its))
                              prios))
           (done ++ concat (map (fun p => map item_key
                                            (List.filter (in_tier p) its))
                              prios))).
Proof.
  intros Hnd. induction prios as [|p prios IH];
    intros sched out done passed Hprios Hdone.
  - exists sched. simpl. now rewrite !app_nil_r.
  - cbn [fold_left map concat].
    destruct (run_tier_idle f its sched out done p Hnd) as [sched1 Htier].
    { intros k Hk Hin. apply in_map_iff in Hk. destruct Hk as [a [<- Ha]].
      apply filter_In in Ha. destruct Ha as [Ha Ht].
      destruct (Hdone _ Hin) as [b [Hb [Hkey Hpassed]]].
      assert (a = b) by (eapply NoDup_map_eq; eauto). subst b.
      unfold in_tier in Ht. apply andb_true_iff in Ht. destruct Ht as [Ht _].
      apply Z.eqb_eq in Ht. rewrite Ht in Hpassed.
      apply List.NoDup_remove_2 in Hprios. apply Hprios.
      apply in_or_app. now left. }
    rewrite Htier.
    destruct (IH sched1
                (out ++ map f (map item_key (List.filter (in_tier p) its)))
                (done ++ map item_key (List.filter (in_tier p) its))
                (passed ++ [p])) as [sched' Hrest].
    + now rewrite <- app_assoc.
    + intros k Hk. apply in_app_or in Hk. destruct Hk as [Hk|Hk].
      * destruct (Hdone _ Hk) as [a [Ha [Hkey Hp]]].
        exists a. repeat split; auto. apply in_or_app. now left.
      * apply in_map_iff in Hk. destruct Hk as [a [<- Ha]].
        apply filter_In in Ha. destruct Ha as [Ha Ht].
        exists a. repeat split; auto.
        unfold in_tier in Ht. apply andb_true_iff in Ht. destruct Ht as [Ht _].
        apply Z.eqb_eq in Ht. rewrite Ht. apply in_or_app. right. now left.
    + exists sched'. rewrite Hrest. rewrite map_app, <- !app_assoc. reflexivity.
Qed.

Lemma tiers_NoDup (its : list WorkItem) (prios : list Z) :
  List.NoDup (map item_key its) -> List.NoDup prios ->
  List.NoDup (concat (map (fun p => map item_key (List.filter (in_tier p) its))
                        prios)).
Proof.
  intros Hnd. induction prios as [|p prios IH]; simpl; intros Hprios;
    [constructor|].
  apply List.NoDup_cons_iff in Hprios. destruct Hprios as [Hp Hprios].
  apply List.NoDup_app; [now apply NoDup_map_filter | now apply IH |].
  intros k Hk Hin. apply in_map_iff in Hk. destruct Hk as [a [<- Ha]].
  apply filter_In in Ha. destruct Ha as [Ha Ht].
  apply in_concat in Hin. destruct Hin as [l [Hl Hin]].
  apply in_map_iff in Hl. destruct Hl as [q [<- Hq]].
  apply in_map_iff in Hin. destruct Hin as [b [Hkey Hb]].
  apply filter_In in Hb. destruct Hb as [Hb Htb].
  assert (b = a) by (eapply NoDup_map_eq; eauto). subst b.
  unfold in_tier in Ht, Htb.
  apply andb_true_iff in Ht. destruct Ht as [Ht _].
  apply andb_true_iff in Htb. destruct Htb as [Htb _].
  apply Z.eqb_eq in Ht. apply Z.eqb_eq in Htb. congruence.
Qed.

(** X19: when no work item needs anything and no two have the same
    key, the run calls the invoker once for every work item, tier after
    tier in the order of [getUniquePriorities] and, within a tier, in
    the order of the work items; it returns the records of these calls
    in that order and nothing else, whatever the order in which the
    child processes end. *)
Theorem independent_actions_run_tier_by_tier (f : GroupKey -> ActionOutput)
    (sched : list nat) (its : list WorkItem) :
  (forall a, In a its -> needs_length a = 0) ->
  List.NoDup (map item_key its) ->
  invoked (snd (run f sched its))
  = concat (map (fun p => map item_key (List.filter (in_tier p) its))
              (getUniquePriorities its)) /\
  fst (run f sched its) = map f (invoked (snd (run f sched its))) /\
  Permutation (invoked (snd (run f sched its))) (map item_key its).
Proof.
  intros Hnone Hnd.
  assert (Hrun : exists sched',
            run_tiers f (getUniquePriorities its) sched its
            = (sched',
               map f (concat (map (fun p => map item_key
                                            (List.filter (in_tier p) its))
                                (getUniquePriorities its))),
               mkPool its []
                 (concat (map (fun p => map item_key
                                          (List.filter (in_tier p) its))
                            (getUniquePriorities its)))
                 (concat (map (fun p => map item_key
                                          (List.filter (in_tier p) its))
                            (getUniquePriorities its))))).
  { unfold run_tiers, initial_pool. rewrite (blocked_refs_none its Hnone).
    apply (run_tiers_idle f its Hnd (getUniquePriorities its) sched [] [] []).
    - apply getUniquePriorities_NoDup.
    - intros k []. }
  destruct Hrun as [sched' Hrun]. unfold run. rewrite Hrun. cbn [fst snd invoked].
  split; [reflexivity|]. split; [reflexivity|].
  apply Permutation.NoDup_Permutation.
  - apply tiers_NoDup; [assumption | apply getUniquePriorities_NoDup].
  - exact Hnd.
  - intros k. split.
    + intros Hin. apply in_concat in Hin. destruct Hin as [l [Hl Hin]].
      apply in_map_iff in Hl. destruct Hl as [q [<- Hq]].
      apply in_map_iff in Hin. destruct Hin as [b [<- Hb]].
      apply filter_In in Hb. apply in_map. tauto.
    + intros Hin. apply in_map_iff in Hin. destruct Hin as [a [<- Ha]].
      apply in_concat. exists (map item_key
                                 (List.filter (in_tier (priority_or_0 a)) its)).
      split.
      * apply in_map_iff. exists (priority_or_0 a). split; [reflexivity|].
        now apply getUniquePriorities_complete.
      * apply in_map. apply filter_In. split; [assumption|].
        unfold in_tier. rewrite Z.eqb_refl, (Hnone a Ha). reflexivity.
Qed.

Lemma independent_actions_run_tier_by_tier_witness :
  invoked (snd (run succeed [3; 1]
                  [ mkItem "x" "build" "*" [("*", ["echo"; "x"])] (Some 5%Z) (Some []);
                    mkItem "y" "build" "*" [("*", ["echo"; "y"])] (Some 0%Z) (Some []);
                    mkItem "z" "build" "*" [("*", ["echo"; "z"])] (Some 5%Z) None ]))
  = [mkKey "x" "build" "*"; mkKey "z" "build" "*"; mkKey "y" "build" "*"].
Proof.
  refine (proj1
            (independent_actions_run_tier_by_tier succeed [3; 1]
               [ mkItem "x" "build" "*" [("*", ["echo"; "x"])] (Some 5%Z) (Some []);
                 mkItem "y" "build" "*" [("*", ["echo"; "y"])] (Some 0%Z) (Some []);
                 mkItem "z" "build" "*" [("*", ["echo"; "z"])] (Some 5%Z) None ]
               _ _)).
  - intros a [<-|[<-|[<-|[]]]]; reflexivity.
  - simpl. repeat constructor; simpl; intuition discriminate.
Defined.

(** ** The other scheduler: [runActions] *)

Lemma passes_In (range : Z * Z) (p : Z) :
  In p (Legacy.passes range) <-> (fst range <= p <= snd range)%Z.
Proof.
  unfold Legacy.passes. rewrite in_map_iff. split.
  - intros [i [<- Hi]]. apply in_seq in Hi. lia.
  - intros Hp. exists (Z.to_nat (p - fst range)). split; [lia|].
    apply in_seq. lia.
Qed.

Lemma passes_ascend (lo : Z) (n : nat) :
  forall start,
    StronglySorted Z.lt
      (map (fun i => (lo + Z.of_nat i)%Z) (seq start n)).
Proof.
  induction n as [|n IH]; simpl; intros start; constructor; [apply IH|].
  apply List.Forall_forall. intros q Hq. apply in_map_iff in Hq.
  destruct Hq as [i [<- Hi]]. apply in_seq in Hi. lia.
Qed.

Lemma StronglySorted_append {A : Type} (R : A -> A -> Prop) (l1 l2 : list A) :
  StronglySorted R l1 -> StronglySorted R l2 ->
  (forall x y, In x l1 -> In y l2 -> R x y) ->
  StronglySorted R (l1 ++ l2).
Proof.
  induction 1 as [|x l1 Hl1 IH Hx]; simpl; intros Hl2 Hcross; [assumption|].
  constructor.
  - apply IH; [assumption|]. intros a b Ha Hb. apply Hcross; [now right | assumption].
  - apply Forall_app. split; [assumption|].
    apply List.Forall_forall. intros y Hy. apply Hcross; [now left | assumption].
Qed.

Section LegacyRun.

Variable getDir : string -> string -> string.
Variable spawn : list string -> string -> option (option string * option string).
Variable getPriorityRange : list Project -> Z * Z.

Lemma legacy_runAction_inv cwd config k p o :
  Legacy.runAction getDir spawn cwd config k p = Some o ->
  Legacy.runs_at config k p = true /\
  Legacy.l_project o = project k /\ Legacy.l_action o = action k /\ Legacy.l_group o = group k.
Proof.
  unfold Legacy.runAction, Legacy.runs_at.
  destruct (get (projects config) (project k)) as [q|]; [|discriminate].
  destruct (get (p_actions q) (action k)) as [a|]; [|discriminate].
  destruct (get (groups a) (group k)) as [g|]; [|discriminate].
  destruct (Z.eqb p (Legacy.effective_priority q a)); simpl; [|discriminate].
  intros H. injection H as <-. auto.
Qed.

Lemma legacy_runAction_runs cwd config k p :
  Legacy.runs_at config k p = true ->
  exists o, Legacy.runAction getDir spawn cwd config k p = Some o.
Proof.
  unfold Legacy.runAction, Legacy.runs_at.
  destruct (get (projects config) (project k)) as [q|]; [|discriminate].
  destruct (get (p_actions q) (action k)) as [a|]; [|discriminate].
  destruct (get (groups a) (group k)) as [g|]; [|discriminate].
  intros ->. simpl. eauto.
Qed.

Lemma runs_at_priority config name act grp p :
  Legacy.runs_at config (mkKey name act grp) p = true ->
  p = Legacy.priority_of config act name.
Proof.
  unfold Legacy.runs_at, Legacy.priority_of. simpl.
  destruct (get (projects config) name) as [q|]; [|discriminate].
  destruct (get (p_actions q) act) as [a|]; [|discriminate].
  destruct (get (groups a) grp) as [g|]; [|discriminate].
  apply Z.eqb_eq.
Qed.

Lemma pass_In cwd config act grp p o :
  In o (Legacy.pass (Legacy.runAction getDir spawn) config cwd act grp p) <->
  exists name,
    In name (map fst (projects config)) /\
    Legacy.runAction getDir spawn cwd config (mkKey name act grp) p = Some o.
Proof.
  unfold Legacy.pass. rewrite in_flat_map. split.
  - intros [name [Hname Ho]]. exists name. split; [assumption|].
    destruct (Legacy.runAction getDir spawn cwd config (mkKey name act grp) p)
      as [o'|]; [|contradiction].
    destruct Ho as [<-|[]]. reflexivity.
  - intros [name [Hname Ho]]. exists name. split; [assumption|].
    rewrite Ho. now left.
Qed.

Lemma pass_NoDup cwd config act grp p :
  List.NoDup (map fst (projects config)) ->
  List.NoDup (map Legacy.l_project
                (Legacy.pass (Legacy.runAction getDir spawn) config cwd act grp p)).
Proof.
  unfold Legacy.pass. generalize (map fst (projects config)) as names.
  induction names as [|name names IH]; simpl; intros Hnd; [constructor|].
  apply List.NoDup_cons_iff in Hnd. destruct Hnd as [Hname Hnd].
  destruct (Legacy.runAction getDir spawn cwd config (mkKey name act grp) p)
    as [o|] eqn:Ho; simpl; [|now apply IH].
  constructor; [|now apply IH].
  apply legacy_runAction_inv in Ho. destruct Ho as (_ & Hp & _). simpl in Hp.
  rewrite Hp. intros Hin. apply Hname.
  apply in_map_iff in Hin. destruct Hin as [o' [Hp' Hin]].
  apply in_flat_map in Hin. destruct Hin as [name' [Hname' Ho']].
  destruct (Legacy.runAction getDir spawn cwd config (mkKey name' act grp) p)
    as [o''|] eqn:Ho''; [|contradiction].
  destruct Ho' as [<-|[]].
  apply legacy_runAction_inv in Ho''. destruct Ho'' as (_ & Hp'' & _).
  simpl in Hp''. congruence.
Qed.

(** X20: let the requested action and group be names that no object
    inherits from [Object.prototype].  With its own [runAction], the
    other scheduler [runActions] runs a project exactly when the
    project declares the action with the requested group itself (the
    wildcard is not consulted) and the priority of the action, or else
    of the project, or else 0, lies between [min] and [max] of the
    range; it runs such a project once, and every record carries the
    requested action and group. *)
Theorem legacy_runs_each_project_in_range_once cwd config act grp :
  inherited act = false -> inherited grp = false ->
  List.NoDup (map fst (projects config)) ->
  List.NoDup
    (map Legacy.l_project
       (Legacy.runActions getPriorityRange (Legacy.runAction getDir spawn)
          config cwd act grp)) /\
  (forall name,
     In name
       (map Legacy.l_project
          (Legacy.runActions getPriorityRange (Legacy.runAction getDir spawn)
             config cwd act grp)) <->
     In name (map fst (projects config)) /\
     Legacy.runs_at config (mkKey name act grp)
       (Legacy.priority_of config act name) = true /\
     (fst (getPriorityRange (map snd (projects config)))
      <= Legacy.priority_of config act name
      <= snd (getPriorityRange (map snd (projects config))))%Z) /\
  (forall o,
     In o (Legacy.runActions getPriorityRange (Legacy.runAction getDir spawn)
             config cwd act grp) ->
     Legacy.l_action o = act /\ Legacy.l_group o = grp).
Proof.
  intros _ _ Hkeys. unfold Legacy.runActions.
  set (range := getPriorityRange (map snd (projects config))).
  split; [|split].
  - pose proof (passes_ascend (fst range) (Z.to_nat (snd range - fst range + 1)) 0)
      as Hsorted.
    fold (Legacy.passes range) in Hsorted.
    induction Hsorted as [|p ps Hps IH Hp]; simpl; [constructor|].
    rewrite map_app. apply List.NoDup_app; [now apply pass_NoDup | exact IH |].
    intros name Hin Hlater.
    apply in_map_iff in Hin. destruct Hin as [o [<- Ho]].
    apply pass_In in Ho. destruct Ho as [n [_ Ho]].
    apply legacy_runAction_inv in Ho. destruct Ho as (Hrun & Hproj & _).
    simpl in Hproj.
    apply in_map_iff in Hlater. destruct Hlater as [o' [Hsame Ho']].
    apply in_flat_map in Ho'. destruct Ho' as [q [Hq Ho']].
    apply pass_In in Ho'. destruct Ho' as [n' [_ Ho']].
    apply legacy_runAction_inv in Ho'. destruct Ho' as (Hrun' & Hproj' & _).
    simpl in Hproj'.
    assert (Hn : n' = n) by congruence.
    apply runs_at_priority in Hrun. apply runs_at_priority in Hrun'.
    rewrite Hn in Hrun'.
    rewrite List.Forall_forall in Hp. specialize (Hp q Hq). lia.
  - intros name. rewrite in_map_iff. split.
    + intros [o [<- Ho]]. apply in_flat_map in Ho. destruct Ho as [p [Hp Ho]].
      apply passes_In in Hp. apply pass_In in Ho.
      destruct Ho as [n [Hn Ho]].
      apply legacy_runAction_inv in Ho. destruct Ho as (Hrun & Hproj & _).
      simpl in Hproj. rewrite Hproj.
      pose proof (runs_at_priority _ _ _ _ _ Hrun) as <-. auto.
    + intros (Hname & Hrun & Hrange).
      destruct (legacy_runAction_runs cwd _ _ _ Hrun) as [o Ho].
      exists o. split.
      * apply legacy_runAction_inv in Ho. now destruct Ho as (_ & Hproj & _).
      * apply in_flat_map. exists (Legacy.priority_of config act name).
        split; [now apply passes_In|]. apply pass_In. eauto.
  - intros o Ho. apply in_flat_map in Ho. destruct Ho as [p [_ Ho]].
    apply pass_In in Ho. destruct Ho as [n [_ Ho]].
    apply legacy_runAction_inv in Ho. now destruct Ho as (_ & _ & Ha & Hg).
Qed.

(** X21: the other scheduler returns its records in ascending order of
    priority (the priority of the action, or else of the project, or
    else 0), whatever the order in which the projects are declared. *)
Theorem legacy_runs_in_ascending_priority cwd config act grp :
  StronglySorted Z.le
    (map (fun o => Legacy.priority_of config act (Legacy.l_project o))
       (Legacy.runActions getPriorityRange (Legacy.runAction getDir spawn)
          config cwd act grp)).
Proof.
  unfold Legacy.runActions.
  set (range := getPriorityRange (map snd (projects config))).
  pose proof (passes_ascend (fst range) (Z.to_nat (snd range - fst range + 1)) 0)
    as Hsorted.
  fold (Legacy.passes range) in Hsorted.
  assert (Hpass : forall p o,
            In o (Legacy.pass (Legacy.runAction getDir spawn) config cwd act grp p) ->
            Legacy.priority_of config act (Legacy.l_project o) = p).
  { intros p o Ho. apply pass_In in Ho. destruct Ho as [n [_ Ho]].
    apply legacy_runAction_inv in Ho. destruct Ho as (Hrun & Hproj & _).
    simpl in Hproj. rewrite Hproj. symmetry.
    eapply runs_at_priority. exact Hrun. }
  induction Hsorted as [|p ps Hps IH Hp]; simpl; [constructor|].
  rewrite map_app. apply StronglySorted_append.
  - assert (Hconst : forall l,
              (forall o, In o l ->
                 Legacy.priority_of config act (Legacy.l_project o) = p) ->
              StronglySorted Z.le
                (map (fun o => Legacy.priority_of config act (Legacy.l_project o)) l)).
    { induction l as [|o l IHl]; simpl; intros Hl; constructor.
      - apply IHl. intros o' Ho'. apply Hl. now right.
      - apply List.Forall_forall. intros q Hq. apply in_map_iff in Hq.
        destruct Hq as [o' [<- Ho']].
        rewrite (Hl o) by now left. rewrite (Hl o') by now right. lia. }
    apply Hconst. intros o Ho. now apply Hpass.
  - exact IH.
  - intros x y Hx Hy.
    apply in_map_iff in Hx. destruct Hx as [o [<- Ho]].
    apply in_map_iff in Hy. destruct Hy as [o' [<- Ho']].
    apply in_flat_map in Ho'. destruct Ho' as [q [Hq Ho']].
    rewrite (Hpass p o Ho), (Hpass q o' Ho').
    rewrite List.Forall_forall in Hp. specialize (Hp q Hq). lia.
Qed.

End LegacyRun.

Lemma legacy_runs_each_project_in_range_once_witness :
  map Legacy.l_project
    (Legacy.runActions (fun _ => (0%Z, 7%Z))
       (Legacy.runAction (fun cwd remote => cwd ++ "/" ++ remote)%string
          (fun _ _ => Some (Some "done", None)))
       Defaults.config "/work" "build" "*")
  = ["app"; "lib"] /\
  List.NoDup ["app"; "lib"].
Proof.
  split; [reflexivity|].
  refine (proj1
            (legacy_runs_each_project_in_range_once
               (fun cwd remote => cwd ++ "/" ++ remote)%string
               (fun _ _ => Some (Some "done", None))
               (fun _ => (0%Z, 7%Z))
               "/work" Defaults.config "build" "*" eq_refl eq_refl _)).
  simpl. repeat constructor; simpl; intuition discriminate.
Defined.

(** ** An action freed under another group than its own *)

Lemma free_actions_holes (fin : string) (its : list WorkItem)
    (blk : list (option nat)) :
  (forall r, ~ waiting blk r) -> free_actions fin its blk = (its, blk, []).
Proof.
  induction blk as [|[r|] blk IH]; simpl; intros Hnone; [reflexivity| |].
  - exfalso. apply (Hnone r). now left.
  - rewrite IH; [reflexivity|]. intros r Hr. apply (Hnone r). now right.
Qed.

Lemma cascade_holes (depth : nat) (its : list WorkItem) (name : string)
    (blk : list (option nat)) :
  (forall r, ~ waiting blk r) ->
  findActionsToSkipAfterFailure depth its name blk = ([], blk).
Proof.
  intros Hnone. destruct depth as [|depth]; [reflexivity|].
  rewrite findActionsToSkipAfterFailure_S.
  destruct (actions_needing its name blk) as [|r l] eqn:Hl; [reflexivity|].
  exfalso. apply (Hnone r).
  assert (Hin : In r (actions_needing its name blk)) by (rewrite Hl; now left).
  apply actions_needing_In in Hin. tauto.
Qed.

Lemma then_callback_holes (k : GroupKey) (res : ActionOutput) (s : Pool) :
  (forall r, ~ waiting (blocked s) r) ->
  then_callback k res s = (Awaiting res [] [], s).
Proof.
  destruct s as [its blk bs inv]. simpl. intros Hnone.
  unfold then_callback. cbn [blocked items begun invoked].
  rewrite cascade_holes by assumption.
  assert (Hcasc : (if succeeded res then (@nil ActionOutput, blk) else ([], blk))
                  = ([], blk)) by (destruct (succeeded res); reflexivity).
  rewrite Hcasc. rewrite free_actions_holes by assumption. reflexivity.
Qed.

Lemma await_one (f : GroupKey -> ActionOutput) (sched : list nat)
    (k : GroupKey) (s : Pool) (kids : list Promise) (removed : list ActionOutput)
    (s' : Pool) (fuel : nat) :
  then_callback k (f k) s = (Awaiting (f k) kids removed, s') ->
  drain f (S fuel) sched [Invoking k] s
  = drain f fuel (tl sched) [Awaiting (f k) kids removed] s'.
Proof.
  intros Hcb. rewrite drain_S.
  change (list_sum (map pending [Invoking k])) with 1. cbv iota beta.
  rewrite Nat.mod_1_r. cbn [settle_among pending Nat.ltb Nat.leb settle].
  now rewrite Hcb.
Qed.

Lemma await_kid (f : GroupKey -> ActionOutput) (sched : list nat)
    (res : ActionOutput) (removed : list ActionOutput)
    (k : GroupKey) (s : Pool) (fuel : nat) :
  (forall r, ~ waiting (blocked s) r) ->
  drain f (S fuel) sched [Awaiting res [Invoking k] removed] s
  = (tl sched, [Awaiting res [Awaiting (f k) [] []] removed], s).
Proof.
  intros Hholes. rewrite drain_S.
  change (list_sum (map pending [Awaiting res [Invoking k] removed])) with 1.
  cbv iota beta. rewrite Nat.mod_1_r.
  cbn [settle_among pending map settle].
  change (list_sum [pending (Invoking k)]) with 1.
  cbn [Nat.ltb Nat.leb settle_among pending settle].
  rewrite then_callback_holes by exact Hholes.
  destruct fuel; reflexivity.
Qed.

Lemma two_items_run (f : GroupKey -> ActionOutput) (sched : list nat)
    (a b : WorkItem) :
  needs_length a = 0 ->
  w_needs b = Some [w_project a] ->
  w_project a <> w_project b ->
  priority_or_0 a <> priority_or_0 b ->
  w_group a <> w_group b ->
  succeeded (f (item_key a)) = true ->
  run f sched [a; b]
  = ([f (item_key a); f (mkKey (w_project b) (w_action a) (w_group a));
      f (item_key b)],
     mkPool [a; set_needs b (Some [])] [None]
       [item_key a; mkKey (w_project b) (w_action a) (w_group a); item_key b]
       [item_key a; mkKey (w_project b) (w_action a) (w_group a); item_key b]).
Proof.
  intros Ha Hb Hp Hprio Hg Hok.
  set (ka := item_key a) in *. set (kb := item_key b).
  set (kf := mkKey (w_project b) (w_action a) (w_group a)).
  set (b' := set_needs b (Some [])).
  assert (Hpab : Z.eqb (priority_or_0 b) (priority_or_0 a) = false)
    by (apply Z.eqb_neq; congruence).
  assert (Hpba : Z.eqb (priority_or_0 a) (priority_or_0 b) = false)
    by (apply Z.eqb_neq; congruence).
  assert (Hnb : needs_length b = 1) by (unfold needs_length; now rewrite Hb).
  assert (Hprios : getUniquePriorities [a; b] = [priority_or_0 a; priority_or_0 b]).
  { unfold getUniquePriorities. cbn [fold_left existsb app].
    rewrite Hpab. reflexivity. }
  assert (Hinit : initial_pool [a; b] = mkPool [a; b] [Some 1] [] []).
  { unfold initial_pool. cbn [blocked_refs]. now rewrite Ha, Hnb. }
  assert (Hne : String.eqb (w_project b) (w_project a) = false)
    by (apply String.eqb_neq; congruence).
  assert (Hfka : key_eqb kf ka = false).
  { unfold key_eqb, kf, ka. cbn [project item_key]. now rewrite Hne. }
  assert (Hkba : key_eqb kb ka = false).
  { unfold key_eqb, kb, ka. cbn [project item_key]. now rewrite Hne. }
  assert (Hkbf : key_eqb kb kf = false).
  { unfold key_eqb, kb, kf. cbn [project action group item_key].
    assert (Hgb : String.eqb (w_group b) (w_group a) = false)
      by (apply String.eqb_neq; congruence).
    rewrite Hgb. now rewrite andb_false_r. }
  assert (Hcb1 : then_callback ka (f ka) (mkPool [a; b] [Some 1] [ka] [ka])
                 = (Awaiting (f ka) [Invoking kf] [],
                    mkPool [a; b'] [None] [ka; kf] [ka; kf])).
  { unfold then_callback. cbn [blocked items begun invoked].
    rewrite Hok. cbn [free_actions]. cbn [lookup list_lookup].
    change (project ka) with (w_project a). rewrite Hb.
    cbn [option_map without List.filter]. rewrite String.eqb_refl. cbn [negb].
    cbn [free_actions set_needs w_needs map insert list_insert].
    change (freed_key ka (set_needs b (Some []))) with kf.
    cbn [launch]. unfold runActionPromiseWrapper, beganTask.
    cbn [begun items blocked invoked existsb]. rewrite Hfka. cbn [orb app].
    reflexivity. }
  assert (Hholes : forall r, ~ waiting [@None nat] r)
    by (intros r [H|[]]; discriminate).
  assert (Hf1 : List.filter (in_tier (priority_or_0 a)) [a; b] = [a]).
  { cbn [List.filter]. unfold in_tier.
    rewrite Z.eqb_refl, Hpab, Ha. reflexivity. }
  assert (Hf2 : List.filter (in_tier (priority_or_0 b)) [a; b'] = [b']).
  { cbn [List.filter]. unfold in_tier.
    change (priority_or_0 b') with (priority_or_0 b).
    change (needs_length b') with 0.
    rewrite Z.eqb_refl, Hpba. reflexivity. }
  unfold run, run_tiers. rewrite Hprios, Hinit. cbn [fold_left].
  (* the pass of the tier of the first action *)
  unfold run_tier at 2. cbn [items]. rewrite Hf1. cbn [map].
  fold ka. cbn [launch]. unfold runActionPromiseWrapper at 1, beganTask at 1.
  cbn [begun existsb items blocked invoked app].
  unfold await_all. cbn [map pending list_sum blocked length Nat.add].
  rewrite (await_one f sched ka _ _ _ _ _ Hcb1).
  rewrite await_kid by exact Hholes.
  (* the pass of the tier of the second action *)
  unfold run_tier. cbn [items]. rewrite Hf2. cbn [map].
  change (item_key b') with kb.
  cbn [launch]. unfold runActionPromiseWrapper, beganTask.
  cbn [begun existsb items blocked invoked]. rewrite Hkba, Hkbf. cbn [orb app].
  unfold await_all. cbn [map pending list_sum blocked length Nat.add].
  rewrite (await_one f _ kb _ _ _ _ _
             (then_callback_holes kb (f kb)
                (mkPool [a; b'] [None] [ka; kf; kb] [ka; kf; kb]) Hholes)).
  cbn [drain map pending list_sum].
  cbn [flatten concat map app]. reflexivity.
Qed.

(** X22: the registry compares whole keys, so a project can run twice.
    Of two work items, let the second need the first alone, sit in
    another tier and carry another group: when the first succeeds the
    second is freed and called under the group of the first, and the
    pass of its own tier then calls it again under its own group.  The
    run makes three calls and returns their three records, whatever the
    order in which the child processes end. *)
Theorem freed_under_another_group_runs_twice (f : GroupKey -> ActionOutput)
    (sched : list nat) (a b : WorkItem) :
  needs_length a = 0 ->
  w_needs b = Some [w_project a] ->
  w_project a <> w_project b ->
  priority_or_0 a <> priority_or_0 b ->
  w_group a <> w_group b ->
  succeeded (f (item_key a)) = true ->
  invoked (snd (run f sched [a; b]))
  = [item_key a; mkKey (w_project b) (w_action a) (w_group a); item_key b] /\
  fst (run f sched [a; b])
  = [f (item_key a); f (mkKey (w_project b) (w_action a) (w_group a));
     f (item_key b)] /\
  mkKey (w_project b) (w_action a) (w_group a) <> item_key b.
Proof.
  intros Ha Hb Hp Hprio Hg Hok.
  rewrite (two_items_run f sched a b Ha Hb Hp Hprio Hg Hok).
  split; [reflexivity|]. split; [reflexivity|].
  unfold item_key. intros Heq. injection Heq as _ Heq. contradiction.
Qed.

Lemma freed_under_another_group_runs_twice_witness :
  invoked
    (snd (run succeed [4]
            [ mkItem "C" "build" "g" [("g", ["echo"; "c"])] (Some 0%Z) (Some []);
              mkItem "B" "build" "*" [("*", ["echo"; "b"])] (Some 1%Z)
                (Some ["C"]) ]))
  = [mkKey "C" "build" "g"; mkKey "B" "build" "g"; mkKey "B" "build" "*"].
Proof.
  refine (proj1
            (freed_under_another_group_runs_twice succeed [4]
               (mkItem "C" "build" "g" [("g", ["echo"; "c"])] (Some 0%Z) (Some []))
               (mkItem "B" "build" "*" [("*", ["echo"; "b"])] (Some 1%Z)
                  (Some ["C"]))
               eq_refl eq_refl _ _ _ eq_refl));
    simpl; discriminate.
Defined.

(** ** Every call has a command *)

Lemma precedes_In (x y : string) (l : list string) : precedes x y l -> In x l.
Proof.
  intros (l1 & l2 & l3 & ->). apply in_or_app. right. now left.
Qed.

Lemma selection_needs_in_order topo stack config act grp names ws order :
  List.NoDup (map fst (projects config)) ->
  topo config act = inr order ->
  (forall name p, get (projects config) name = Some p ->
     get (p_actions p) act <> None -> In name order) ->
  (forall name q, In name order -> In q (declared_needs config act name) ->
     precedes q name order) ->
  getProjectsToRunActionIn topo stack config act grp names = inr ws ->
  forall w ns n, In w ws -> w_needs w = Some ns -> In n ns -> In n order.
Proof.
  intros Hkeys Ho Hcover Hprec H w ns n Hw Hns Hn.
  unfold getProjectsToRunActionIn, resolveDependenciesForActions in H.
  destruct (closure_of stack config (direct_matches config act grp names))
    as [e|c] eqn:Hc; simpl in H; [discriminate|].
  destruct (rebound config grp act c) as [e|xs] eqn:Hxs; simpl in H;
    [discriminate|].
  rewrite Ho in H. simpl in H.
  destruct (lacking_group config act grp (rev order)) as [e|noGroup] eqn:Hl;
    simpl in H; [discriminate|].
  apply lacking_group_filter in Hl.
  destruct (rewire_all_needs _ _ _ _ _ H w ns n Hw Hns Hn)
    as [(x & xns & Hx & Hxns & Hin)|(m & Hm & Hd)].
  - apply uniqBy_project_fresh in Hx. destruct Hx as [Hx _].
    assert (Hdisc : discovered stack config act grp names = inr xs)
      by (unfold discovered; rewrite Hc; exact Hxs).
    destruct (discovered_binds _ _ _ _ _ _ Hkeys Hdisc x Hx)
      as (p & pa & Hp & Hpa & _ & _ & Hneeds & _).
    assert (Hord : In (w_project x) order)
      by (apply (Hcover _ p Hp); rewrite Hpa; discriminate).
    eapply precedes_In, (Hprec (w_project x) n Hord).
    unfold declared_needs. rewrite Hp, Hpa, <- Hneeds, Hxns. exact Hin.
  - subst noGroup. apply filter_In in Hm. destruct Hm as [Hm _].
    apply in_rev in Hm. eapply precedes_In, (Hprec m n Hm Hd).
Qed.

Lemma runAction_has_command
    (getDir : string -> string -> string) (spawn : list string -> string -> Spawned)
    (config : Config) (k : GroupKey) (p : Project) (a : ProjectAction) :
  get (projects config) (project k) = Some p ->
  get (p_actions p) (action k) = Some a ->
  inherited (group k) = false ->
  get (groups a) (group k) <> None \/ get (groups a) "*" <> None ->
  exists out, runAction getDir spawn config k = inr out.
Proof.
  intros Hp Ha Hown Hcmd. unfold runAction. rewrite Hp. simpl. rewrite Ha. simpl.
  destruct (get (groups a) (group k)) as [c|]; simpl; [eauto|].
  rewrite Hown.
  destruct (get (groups a) "*") as [c|]; simpl; [eauto|].
  destruct Hcmd as [Hcmd|Hcmd]; now contradiction Hcmd.
Qed.

(** X23: every call has a command.  Let the requested action and
    group be names that no object inherits from [Object.prototype].
    When the topological order lists each project that declares the
    action once, after the projects it needs, then every key a run of
    the selected work items calls the invoker with is one [runAction]
    finds a command for: the project and the action are declared, and
    the action has the group of the key or the wildcard.  Every such
    key carries the requested action, and the requested group or the
    wildcard. *)
Theorem every_call_has_a_command
    (getDir : string -> string -> string) (spawn : list string -> string -> Spawned)
    topo (f : GroupKey -> ActionOutput) stack sched config act grp names
    order ws k :
  inherited act = false -> inherited grp = false ->
  List.NoDup (map fst (projects config)) ->
  topo config act = inr order -> List.NoDup order ->
  (forall name p, get (projects config) name = Some p ->
     get (p_actions p) act <> None -> In name order) ->
  (forall name q, In name order -> In q (declared_needs config act name) ->
     precedes q name order) ->
  getProjectsToRunActionIn topo stack config act grp names = inr ws ->
  In k (invoked (snd (run f sched ws))) ->
  (exists out, runAction getDir spawn config k = inr out) /\
  action k = act /\ (group k = grp \/ group k = "*").
Proof.
  intros Hownact Hown Hkeys Ho Hnd Hcover Hprec Hsel Hk.
  pose proof (selection_binds _ _ _ _ _ _ _ Hkeys Hsel) as Hbind.
  assert (Hlacks : forall w ns n, In w ws -> w_needs w = Some ns -> In n ns ->
            lacks config act grp n = false).
  { intros w ns n Hw Hns Hn.
    eapply (rewiring_is_complete topo stack config act grp names order ws);
      eauto.
    eapply selection_needs_in_order; eauto. }
  pose (J := fun k : GroupKey =>
    action k = act /\
    exists w, In w ws /\ w_project w = project k /\
              (group k = grp \/ group k = w_group w)).
  assert (HJ : J k).
  { revert k Hk.
    pose (I := fun (_ : list Z) (fl : list GroupKey) (_ : list ActionOutput)
                   (s : Pool) =>
      reaches f (initial_pool ws) s /\
      (forall k, In k fl -> In k (invoked s)) /\
      (forall k, In k (invoked s) -> J k) /\
      (forall r a, waiting (blocked s) r -> items s !! r = Some a ->
         exists ns, w_needs a = Some ns /\ ns <> [])).
    assert (H : I [] [] (fst (run f sched ws)) (snd (run f sched ws))).
    { apply run_ind.
      - intros p todo recs s ps s1 (Hreach & _ & Hinv0 & Hfull) Hl.
        assert (Hreach1 : reaches f (initial_pool ws) s1)
          by (eapply reaches_step; [exact Hreach | eapply tier_step; exact Hl]).
        apply launch_spec in Hl.
        destruct Hl as (Hitems & Hblk & new & _ & Hinv & Hfl & Hnew & _).
        split; [assumption|]. split; [|split].
        + intros k Hk. rewrite Hfl in Hk. rewrite Hinv.
          apply in_or_app. now right.
        + intros k Hk. rewrite Hinv in Hk. apply in_app_or in Hk.
          destruct Hk as [Hk|Hk]; [now apply Hinv0|].
          apply Hnew in Hk. destruct Hk as [Hk _]. apply tier_keys in Hk.
          destruct Hk as (j & a & Hj & -> & _).
          destruct (reaches_same_binding f _ _ j a Hreach Hj)
            as (a0 & Ha0 & (Hproj & Hact & Hgrp & _) & _).
          simpl in Ha0. apply lookup_In in Ha0.
          destruct (Hbind a0 Ha0) as (_ & _ & _ & _ & Hact0 & _).
          split; [simpl; congruence|].
          exists a0. simpl. repeat split; auto.
        + intros r a Hr Ha. rewrite Hblk in Hr. rewrite Hitems in Ha.
          now apply (Hfull r a).
      - intros todo fl recs s fl' recs' s' (Hreach & Hfl & Hinv0 & Hfull)
          (k & l1 & l2 & kids & removed & -> & Hcb & -> & _).
        assert (Hk : In k (invoked s))
          by (apply Hfl, in_or_app; right; now left).
        assert (Hreach1 : reaches f (initial_pool ws) s')
          by (eapply reaches_step; [exact Hreach | eapply step_settle; exact Hcb]).
        pose proof (then_callback_spec _ _ _ _ _ _ Hcb)
          as (blk1 & freed & _ & Hem1 & Hfree & Hlaunch).
        pose proof (free_actions_spec _ _ _ _ _ _ Hfree)
          as (_ & Hstrip & _ & _ & Hleft & Hfreed & _).
        apply launch_spec in Hlaunch. simpl in Hlaunch.
        destruct Hlaunch as (_ & _ & new & _ & Hinv & Hkids & Hnew & _).
        assert (Hold : forall k0, In k0 (invoked s) -> In k0 (invoked s'))
          by (intros k0 Hk0; rewrite Hinv; apply in_or_app; now left).
        split; [assumption|]. split; [|split].
        + intros k0 Hk0. apply in_app_or in Hk0. destruct Hk0 as [Hk0|Hk0].
          * apply Hold, Hfl, in_or_app. now left.
          * apply in_app_or in Hk0. destruct Hk0 as [Hk0|Hk0].
            -- rewrite Hinv, <- Hkids. apply in_or_app. now right.
            -- apply Hold, Hfl, in_or_app. right. now right.
        + intros k0 Hk0. rewrite Hinv in Hk0. apply in_app_or in Hk0.
          destruct Hk0 as [Hk0|Hk0]; [now apply Hinv0|].
          apply Hnew in Hk0. destruct Hk0 as [Hk0 _].
          apply in_map_iff in Hk0. destruct Hk0 as [a' [<- Ha']].
          apply Hfreed in Ha'. destruct Ha' as (r & Hw1 & Hlook & Hempty).
          destruct (strip_lookup _ _ _ _ Hlook) as [a1 [Ha1 ->]].
          assert (Hw : waiting (blocked s) r)
            by (eapply emptied_waiting; eassumption).
          destruct (Hfull r a1 Hw Ha1) as (ns & Hns & Hne).
          assert (Hneeded : needs_project a1 (project k) = true).
          { unfold strip in Hempty. simpl in Hempty. rewrite Hns in Hempty.
            simpl in Hempty. injection Hempty as Hempty.
            destruct ns as [|n0 ns']; [contradiction|].
            unfold needs_project. rewrite Hns.
            destruct (String.eqb_spec n0 (project k)) as [->|Hdiff].
            - unfold includes. simpl. now rewrite String.eqb_refl.
            - exfalso. simpl in Hempty.
              apply String.eqb_neq in Hdiff. rewrite Hdiff in Hempty.
              discriminate. }
          destruct (reaches_needs f _ _ r a1 Hreach Ha1)
            as (a0 & Ha0 & Hproj0 & Hsub).
          simpl in Ha0. apply lookup_In in Ha0.
          pose proof (Hsub _ Hneeded) as Hneeded0.
          apply needs_project_In in Hneeded0.
          destruct Hneeded0 as (ns0 & Hns0 & Hin0).
          pose proof (Hlacks a0 ns0 (project k) Ha0 Hns0 Hin0) as Hhas.
          destruct (Hinv0 k Hk) as (Hactk & wk & Hwk & Hpk & Hgk).
          destruct (Hbind wk Hwk) as (p & pa & Hp & Hpa & _ & _ & Hgroup & _).
          unfold lacks in Hhas. rewrite <- Hpk, Hp, Hpa in Hhas.
          apply negb_false_iff in Hhas. rewrite Hhas in Hgroup.
          assert (Hgrp : group k = grp)
            by (destruct Hgk as [Hgk|Hgk]; congruence).
          split; [exact Hactk|].
          exists a0. simpl. repeat split; auto.
      + intros r a' Hr Ha'. apply Hleft in Hr. destruct Hr as [Hw1 Hfull'].
        rewrite (Hstrip r Hw1) in Ha'.
        pose proof (Hfull' a' Ha') as Hne'.
        destruct (strip_lookup _ _ _ _ Ha') as [a1 [Ha1 ->]].
        assert (Hw : waiting (blocked s) r)
          by (eapply emptied_waiting; eassumption).
        destruct (Hfull r a1 Hw Ha1) as (ns & Hns & _).
        exists (without (project k) ns). unfold strip in *. simpl in *.
        rewrite Hns in *. simpl in *. split; [reflexivity|]. congruence.
      - split; [constructor|]. split; [intros ? []|]. split; [intros ? []|].
        intros r a Hr Ha. simpl in Hr, Ha.
        apply waiting_refs in Hr. apply blocked_refs_spec in Hr.
        destruct Hr as (_ & a0 & Ha0 & Hpos).
        rewrite Nat.sub_0_r in Ha0. rewrite Ha in Ha0. injection Ha0 as <-.
        unfold needs_length in Hpos. destruct (w_needs a) as [[|n ns]|];
          [simpl in Hpos; lia | | lia].
        exists (n :: ns). split; [reflexivity | discriminate]. }
    destruct H as (_ & _ & H & _). exact H. }
  destruct HJ as (Hact & w & Hw & Hp & Hg).
  destruct (Hbind w Hw) as (p & pa & Hpw & Hpa & _ & _ & Hgroup & Hcmd).
  split; [|split; [exact Hact|]].
  - apply (runAction_has_command getDir spawn config k p pa).
    + now rewrite <- Hp.
    + now rewrite Hact.
    + destruct Hg as [Hg|Hg]; [now rewrite Hg|].
      rewrite Hg, Hgroup. now destruct (has_group (Some pa) grp).
    + destruct Hg as [Hg|Hg]; [|left; now rewrite Hg].
      rewrite Hg. unfold has_group in Hgroup.
      destruct (get (groups pa) grp) as [c|]; [left; discriminate|].
      right. now rewrite <- Hgroup.
  - destruct Hg as [Hg|Hg]; [now left|].
    rewrite Hg, Hgroup. destruct (has_group (Some pa) grp); auto.
Qed.

Lemma every_call_has_a_command_witness :
  (exists out,
     runAction (fun cwd remote => cwd ++ "/" ++ remote)%string
       (fun _ _ => mkSpawned (Some "b") None (Some 0%Z) None)
       Chain.plain (mkKey "B" "build" "g") = inr out) /\
  "build" = "build" /\ ("g" = "g" \/ "g" = "*").
Proof.
  refine (every_call_has_a_command
            (fun cwd remote => cwd ++ "/" ++ remote)%string
            (fun _ _ => mkSpawned (Some "b") None (Some 0%Z) None)
            (fun _ _ => inr ["C"; "B"; "A"]) succeed 3 [1] Chain.plain
            "build" "g" ["A"] ["C"; "B"; "A"]
            [ mkItem "A" "build" "g" [("g", ["echo"; "a"])] None (Some ["C"]);
              mkItem "B" "build" "*" [("*", ["echo"; "b"])] None (Some ["C"]);
              mkItem "C" "build" "g" [("g", ["echo"; "c"])] None (Some []) ]
            (mkKey "B" "build" "g") eq_refl eq_refl _ eq_refl _ _ _ eq_refl _).
  - simpl. repeat constructor; simpl; intuition discriminate.
  - repeat constructor; simpl; intuition discriminate.
  - intros name p Hp Hact.
    unfold Chain.plain, Chain.config in Hp. cbn [projects get] in Hp.
    destruct (String.eqb_spec "A" name) as [<-|_]; [simpl; tauto|].
    destruct (String.eqb_spec "B" name) as [<-|_]; [simpl; tauto|].
    destruct (String.eqb_spec "C" name) as [<-|_]; [simpl; tauto|].
    discriminate.
  - intros name q [<-|[<-|[<-|[]]]] Hq; simpl in Hq.
    + destruct Hq.
    + destruct Hq as [<-|[]]. exists [], [], ["A"]. reflexivity.
    + destruct Hq as [<-|[]]. exists ["C"], [], []. reflexivity.
  - simpl. right. right. now left.
Defined.

(** ** Selection hands the run what the run needs *)

Lemma position_app (n : string) (l1 l2 : list string) :
  ~ In n l1 -> position n (l1 ++ l2) = length l1 + position n l2.
Proof.
  induction l1 as [|x l1 IH]; simpl; intros Hn; [reflexivity|].
  destruct (String.eqb_spec x n) as [->|_]; [exfalso; apply Hn; now left|].
  f_equal. apply IH. intros H. apply Hn. now right.
Qed.

Lemma precedes_position (x y : string) (l : list string) :
  List.NoDup l -> precedes x y l -> position x l < position y l.
Proof.
  intros Hnd (l1 & l2 & l3 & ->).
  assert (Hx : ~ In x l1).
  { apply List.NoDup_remove_2 in Hnd. intros H. apply Hnd.
    apply in_or_app. now left. }
  assert (Hy : ~ In y (l1 ++ x :: l2)).
  { change (l1 ++ x :: l2 ++ y :: l3) with (l1 ++ (x :: l2) ++ y :: l3) in Hnd.
    rewrite app_assoc in Hnd. apply List.NoDup_remove_2 in Hnd.
    intros H. apply Hnd. apply in_or_app. now left. }
  rewrite (position_app x l1) by assumption.
  change (l1 ++ x :: l2 ++ y :: l3) with (l1 ++ (x :: l2) ++ y :: l3).
  rewrite app_assoc, (position_app y (l1 ++ x :: l2)) by assumption.
  simpl. rewrite !String.eqb_refl, length_app. simpl. lia.
Qed.

Lemma resolve_closed (stack : nat) (config : Config) :
  forall a l,
    resolveProjectDependencies stack config a = inr l ->
    forall x ns n, In x l -> w_needs x = Some ns -> In n ns ->
      exists y, In y l /\ w_project y = n.
Proof.
  induction stack as [|stack IH]; intros a l H x ns n Hx Hns Hn; [discriminate|].
  apply resolve_unfold in H. destruct H as [stack' [Hs H]]. injection Hs as <-.
  destruct H as [[Hz ->]|[n0 [ns0 [Hns0 H]]]].
  - destruct Hx as [<-|[]]. unfold needs_length in Hz. rewrite Hns in Hz.
    destruct ns; [contradiction | discriminate].
  - apply fold_resolve_grows in H. destruct H as [_ [_ [Hfrom Hall]]].
    assert (Htl : forall z, In z (tl l) -> In z l)
      by (intros z Hz; destruct l; [contradiction | now right]).
    destruct (Hfrom x Hx) as [[]|[->|[m [p [r [Hm [Hp [Hr Hin]]]]]]]].
    + rewrite Hns in Hns0. injection Hns0 as ->.
      destruct (Hall n Hn) as [p [r [Hp [Hr Hincl]]]].
      destruct (resolve_head _ _ _ _ Hr) as [t Ht].
      exists (spread_needed a n (get (p_actions p) (w_action a))). split.
      * apply Htl, Hincl. rewrite Ht. now left.
      * destruct (get (p_actions p) (w_action a)); reflexivity.
    + destruct (IH _ _ Hr x ns n Hin Hns Hn) as [y [Hy Hpy]].
      destruct (Hall m Hm) as [p' [r' [Hp' [Hr' Hincl]]]].
      rewrite Hp in Hp'. injection Hp' as <-.
      rewrite Hr in Hr'. injection Hr' as <-.
      exists y. split; [apply Htl, Hincl, Hy | exact Hpy].
Qed.

Lemma closure_closed (stack : nat) (config : Config) (xs c : list WorkItem) :
  closure_of stack config xs = inr c ->
  forall x ns n, In x c -> w_needs x = Some ns -> In n ns ->
    exists y, In y c /\ w_project y = n.
Proof.
  intros Hc x ns n Hx Hns Hn. unfold closure_of in Hc.
  apply (closure_of_In _ _ _ _ _ Hc) in Hx.
  destruct Hx as [[]|[a [r [Ha [Hr Hx]]]]].
  destruct (resolve_closed _ _ _ _ Hr x ns n Hx Hns Hn) as [y [Hy Hpy]].
  exists y. split; [|exact Hpy].
  apply (closure_of_In _ _ _ _ _ Hc). right. eauto.
Qed.

Lemma closure_binds stack config act grp names c :
  List.NoDup (map fst (projects config)) ->
  closure_of stack config (direct_matches config act grp names) = inr c ->
  forall x, In x c ->
    exists p pa,
      get (projects config) (w_project x) = Some p /\
      get (p_actions p) act = Some pa /\
      w_groups x = groups pa /\ w_needs x = needs pa.
Proof.
  intros Hkeys Hc x Hx. unfold closure_of in Hc.
  apply (closure_of_In _ _ _ _ _ Hc) in Hx.
  destruct Hx as [[]|[a [r [Hdm [Hr Hx]]]]].
  destruct (direct_matches_inv _ _ _ _ _ Hdm)
    as [name [p0 [pa0 [Hin0 [_ [Hpa0 [_ Ha0]]]]]]].
  destruct (resolve_declared _ _ _ _ Hr x Hx)
    as [->|[p1 [pa1 [Hp1 [Hpa1 [Hg1 Hn1]]]]]].
  - subst a. simpl. apply (In_get _ _ _ Hkeys) in Hin0.
    exists p0, pa0. auto.
  - subst a. simpl in Hpa1. exists p1, pa1. auto.
Qed.

Lemma selection_parts topo stack config act grp names ws :
  getProjectsToRunActionIn topo stack config act grp names = inr ws ->
  exists c xs order,
    closure_of stack config (direct_matches config act grp names) = inr c /\
    rebound config grp act c = inr xs /\
    topo config act = inr order /\
    fold_left (fun carry name => try its := carry in rewire config act name its)
      (List.filter (lacks config act grp) (rev order))
      (inr (uniqBy_project [] xs)) = inr ws.
Proof.
  unfold getProjectsToRunActionIn, resolveDependenciesForActions. intros H.
  destruct (closure_of stack config (direct_matches config act grp names))
    as [e|c] eqn:Hc; simpl in H; [discriminate|].
  destruct (rebound config grp act c) as [e|xs] eqn:Hxs; simpl in H;
    [discriminate|].
  destruct (topo config act) as [e|order] eqn:Ho; simpl in H; [discriminate|].
  destruct (lacking_group config act grp (rev order)) as [e|noGroup] eqn:Hl;
    simpl in H; [discriminate|].
  apply lacking_group_filter in Hl. subst noGroup.
  exists c, xs, order. repeat split; auto.
Qed.

(** What the rewiring keeps: the [needs] of every item name projects
    of the closure that come earlier in the topological order. *)
Lemma rewire_keeps (config : Config) (act : string) (order : list string)
    (Q : string -> Prop) (m : string) (xs ys : list WorkItem) :
  (forall q, Q q -> In q order ->
     forall n, In n (declared_needs config act q) ->
       Q n /\ In n order /\ position n order < position q order) ->
  rewire config act m xs = inr ys ->
  (forall a ns n, In a xs -> w_needs a = Some ns -> In n ns ->
     Q n /\ In n order /\ position n order < position (w_project a) order) ->
  forall a ns n, In a ys -> w_needs a = Some ns -> In n ns ->
    Q n /\ In n order /\ position n order < position (w_project a) order.
Proof.
  intros Hdecl Hr Hinv a' ns' n Ha' Hns' Hn.
  unfold rewire in Hr.
  eapply mapM_Forall2 with
    (R := fun a a' =>
            a' = a \/
            exists ns, w_needs a = Some ns /\ In m ns /\
              a' = set_needs a
                     (Some (without m ns ++ declared_needs config act m)))
    in Hr.
  - destruct (Forall2_In_r _ _ _ Hr a' Ha') as [a [Ha [->|(ns & Hns & Hm & ->)]]].
    + eapply Hinv; eauto.
    + simpl in Hns'. injection Hns' as <-. simpl.
      apply in_app_or in Hn. destruct Hn as [Hn|Hn].
      * apply without_In in Hn. destruct Hn as [Hn _]. eapply Hinv; eauto.
      * destruct (Hinv a ns m Ha Hns Hm) as (HQm & Hom & Hpm).
        destruct (Hdecl m HQm Hom n Hn) as (HQn & Hon & Hpn).
        repeat split; auto. lia.
  - intros a b Hb. destruct (w_needs a) as [ns|] eqn:Hns; simpl in Hb;
      [|discriminate].
    destruct (includes ns m) eqn:Hinc; injection Hb as <-; [|now left].
    right. exists ns. split; [reflexivity|]. split; [|reflexivity].
    now apply includes_In.
Qed.

Lemma rewire_all_keeps (config : Config) (act : string) (order : list string)
    (Q : string -> Prop) (todo : list string) :
  (forall q, Q q -> In q order ->
     forall n, In n (declared_needs config act q) ->
       Q n /\ In n order /\ position n order < position q order) ->
  forall xs ys,
    fold_left (fun carry name => try its := carry in rewire config act name its)
      todo (inr xs) = inr ys ->
    (forall a ns n, In a xs -> w_needs a = Some ns -> In n ns ->
       Q n /\ In n order /\ position n order < position (w_project a) order) ->
    forall a ns n, In a ys -> w_needs a = Some ns -> In n ns ->
      Q n /\ In n order /\ position n order < position (w_project a) order.
Proof.
  intros Hdecl. induction todo as [|m todo IH]; simpl; intros xs ys H Hinv.
  - injection H as <-. exact Hinv.
  - destruct (rewire config act m xs) as [e|xs1] eqn:Hr.
    + rewrite fold_left_thrown in H by reflexivity. discriminate.
    + apply (IH _ _ H). eapply rewire_keeps; eauto.
Qed.

Lemma selection_is_closed topo stack config act grp names order ws :
  List.NoDup (map fst (projects config)) ->
  topo config act = inr order -> List.NoDup order ->
  (forall name p, get (projects config) name = Some p ->
     get (p_actions p) act <> None -> In name order) ->
  (forall name q, In name order -> In q (declared_needs config act name) ->
     precedes q name order) ->
  getProjectsToRunActionIn topo stack config act grp names = inr ws ->
  List.NoDup (map w_project ws) /\
  forall w ns n, In w ws -> w_needs w = Some ns -> In n ns ->
    In n (map w_project ws) /\
    position n order < position (w_project w) order.
Proof.
  intros Hkeys Ho Hnd Hcover Hprec Hsel.
  pose proof (selection_parts _ _ _ _ _ _ _ Hsel)
    as (c & xs & order' & Hc & Hxs & Ho' & Hfold).
  rewrite Ho in Ho'. injection Ho' as <-.
  pose proof (rewire_all_same_binding _ _ _ _ _ Hfold) as Hsame.
  split.
  { rewrite (Forall2_same_binding_projects _ _ Hsame).
    apply uniqBy_project_NoDup. }
  pose (Q := fun n : string => exists y, In y c /\ w_project y = n).
  assert (Hdecl : forall q, Q q -> In q order ->
            forall n, In n (declared_needs config act q) ->
              Q n /\ In n order /\ position n order < position q order).
  { intros q (y & Hy & <-) Hq n Hn.
    pose proof (Hprec _ _ Hq Hn) as Hpre.
    split; [|split; [eapply precedes_In; exact Hpre
                    | now apply precedes_position]].
    destruct (closure_binds _ _ _ _ _ _ Hkeys Hc y Hy)
      as (p & pa & Hp & Hpa & _ & Hneeds).
    unfold declared_needs in Hn. rewrite Hp, Hpa in Hn.
    destruct (needs pa) as [l|] eqn:Hl; [|destruct Hn].
    eapply closure_closed; eauto. }
  assert (Hinit : forall a ns n, In a (uniqBy_project [] xs) ->
            w_needs a = Some ns -> In n ns ->
            Q n /\ In n order /\
            position n order < position (w_project a) order).
  { intros a ns n Ha Hns Hn.
    apply uniqBy_project_fresh in Ha. destruct Ha as [Ha _].
    destruct (rebound_spec _ _ _ _ _ Hxs a Ha) as (x & p & Hx & _ & Hp & ->).
    simpl in Hns. simpl.
    destruct (closure_binds _ _ _ _ _ _ Hkeys Hc x Hx)
      as (p' & pa & Hp' & Hpa & _ & Hneeds).
    assert (Hord : In (w_project x) order)
      by (apply (Hcover _ p' Hp'); rewrite Hpa; discriminate).
    assert (Hd : In n (declared_needs config act (w_project x)))
      by (unfold declared_needs; rewrite Hp', Hpa, <- Hneeds, Hns; exact Hn).
    pose proof (Hprec _ _ Hord Hd) as Hpre.
    split; [eapply closure_closed; eauto|].
    split; [eapply precedes_In; exact Hpre | now apply precedes_position]. }
  intros w ns n Hw Hns Hn.
  destruct (rewire_all_keeps config act order Q _ Hdecl _ _ Hfold Hinit
              w ns n Hw Hns Hn) as ((y & Hy & Hpy) & Hon & Hpos).
  split; [|exact Hpos].
  assert (Hhas : lacks config act grp n = false)
    by (eapply (rewiring_is_complete topo stack config act grp names order ws);
        eauto).
  destruct (closure_binds _ _ _ _ _ _ Hkeys Hc y Hy)
    as (p & pa & Hp & Hpa & Hgroups & _).
  unfold lacks in Hhas. rewrite <- Hpy, Hp, Hpa in Hhas.
  apply negb_false_iff in Hhas.
  destruct (rebound_covers _ _ _ _ _ y Hxs Hy) as [z [Hz Hpz]].
  { rewrite Hgroups. unfold has_group in Hhas.
    destruct (get (groups pa) grp); [reflexivity | discriminate]. }
  destruct (uniqBy_project_covers xs [] z Hz) as [u [Hu Hpu]]; [intros []|].
  destruct (Forall2_In_l _ _ _ Hsame u Hu) as [w' [Hw' [Hpw' _]]].
  apply in_map_iff. exists w'. split; [congruence | exact Hw'].
Qed.

(** X24: selection hands the run work items it can finish.  When the
    topological order lists each project that declares the action
    once, after the projects it needs, the selected work items have
    distinct projects, and every project left in the [needs] of a
    selected work item is the project of a selected work item that
    comes earlier in the order; so, with an invoker that reports the
    project it ran, the run returns a record for every selected work
    item, whatever fails and in whatever order the child processes
    end. *)
Theorem selection_is_closed_under_needs
    topo (f : GroupKey -> ActionOutput) stack sched config act grp names
    order ws :
  List.NoDup (map fst (projects config)) ->
  topo config act = inr order -> List.NoDup order ->
  (forall name p, get (projects config) name = Some p ->
     get (p_actions p) act <> None -> In name order) ->
  (forall name q, In name order -> In q (declared_needs config act name) ->
     precedes q name order) ->
  getProjectsToRunActionIn topo stack config act grp names = inr ws ->
  List.NoDup (map w_project ws) /\
  (forall w ns n, In w ws -> w_needs w = Some ns -> In n ns ->
     In n (map w_project ws) /\
     position n order < position (w_project w) order) /\
  ((forall k, o_project (f k) = project k) ->
   forall w, In w ws ->
     exists rec, In rec (fst (run f sched ws)) /\ o_project rec = w_project w).
Proof.
  intros Hkeys Ho Hnd Hcover Hprec Hsel.
  destruct (selection_is_closed topo stack config act grp names order ws
              Hkeys Ho Hnd Hcover Hprec Hsel) as [Hunique Hclosed].
  split; [exact Hunique|]. split; [exact Hclosed|].
  intros Hfaithful w Hw.
  apply (run_accounts_for_every_item f ws (fun n => position n order)
           Hfaithful Hunique Hclosed sched w Hw).
Qed.

Lemma selection_is_closed_under_needs_witness :
  exists rec,
    In rec
       (fst (run (fail_in "C") [2]
               [ mkItem "A" "build" "g" [("g", ["echo"; "a"])] None (Some ["C"]);
                 mkItem "B" "build" "*" [("*", ["echo"; "b"])] None (Some ["C"]);
                 mkItem "C" "build" "g" [("g", ["echo"; "c"])] None (Some []) ])) /\
    o_project rec = "A".
Proof.
  refine (proj2 (proj2
            (selection_is_closed_under_needs
               (fun _ _ => inr ["C"; "B"; "A"]) (fail_in "C") 3 [2] Chain.plain
               "build" "g" ["A"] ["C"; "B"; "A"]
               [ mkItem "A" "build" "g" [("g", ["echo"; "a"])] None (Some ["C"]);
                 mkItem "B" "build" "*" [("*", ["echo"; "b"])] None (Some ["C"]);
                 mkItem "C" "build" "g" [("g", ["echo"; "c"])] None (Some []) ]
               _ eq_refl _ _ _ eq_refl))
            _
            (mkItem "A" "build" "g" [("g", ["echo"; "a"])] None (Some ["C"])) _).
  - simpl. repeat constructor; simpl; intuition discriminate.
  - repeat constructor; simpl; intuition discriminate.
  - intros name p Hp Hact.
    unfold Chain.plain, Chain.config in Hp. cbn [projects get] in Hp.
    destruct (String.eqb_spec "A" name) as [<-|_]; [simpl; tauto|].
    destruct (String.eqb_spec "B" name) as [<-|_]; [simpl; tauto|].
    destruct (String.eqb_spec "C" name) as [<-|_]; [simpl; tauto|].
    discriminate.
  - intros name q [<-|[<-|[<-|[]]]] Hq; simpl in Hq.
    + destruct Hq.
    + destruct Hq as [<-|[]]. exists [], [], ["A"]. reflexivity.
    + destruct Hq as [<-|[]]. exists ["C"], [], []. reflexivity.
  - intros k. reflexivity.
  - simpl. now left.
Defined.

(** ** Why an action is skipped *)

Lemma caused_mono its blk root recs recs' rec :
  incl recs recs' -> caused its blk root recs rec -> caused its blk root recs' rec.
Proof.
  intros Hincl (r & w & q & Hr & Hw & Hrec & Hq & Hby).
  exists r, w, q. repeat (split; [assumption|]).
  destruct Hby as [->|(r0 & w0 & q0 & H0 & H1 & H2 & H3)]; [now left|].
  right. exists r0, w0, q0. auto.
Qed.

Lemma cascade_caused (its : list WorkItem) (depth : nat) :
  forall failedProject blk recs blk',
    findActionsToSkipAfterFailure depth its failedProject blk = (recs, blk') ->
    Forall (caused its blk failedProject recs) recs.
Proof.
  induction depth as [|depth IH]; intros f blk recs blk' H.
  - injection H as <- <-. constructor.
  - rewrite findActionsToSkipAfterFailure_S in H.
    assert (Hgen : forall todo acc b,
      (forall ref, In ref todo -> waiting blk ref /\
         exists w, its !! ref = Some w /\ needs_project w f = true) ->
      emptied blk b -> Forall (caused its blk f acc) acc ->
      fold_left (skip_step depth its f) todo (acc, b) = (recs, blk') ->
      Forall (caused its blk f recs) recs).
    { induction todo as [|ref todo IHt]; simpl; intros acc b Htodo Hb Hacc Hf.
      - injection Hf as <- <-. exact Hacc.
      - destruct (Htodo ref (or_introl eq_refl)) as [Hwait [w [Hw Hn]]].
        rewrite Hw in Hf.
        destruct (findActionsToSkipAfterFailure depth its (w_project w)
                    (delete_ref ref b)) as [below b2] eqn:Hrec.
        pose proof (IH _ _ _ _ Hrec) as Hbelow.
        destruct (cascade_records _ _ _ _ _ _ Hrec) as [He _].
        assert (Hb1 : emptied blk (delete_ref ref b)).
        { eapply emptied_trans; [exact Hb | apply delete_ref_emptied]. }
        eapply IHt; [| | | exact Hf].
        + intros ref' Hin. apply Htodo. now right.
        + eapply emptied_trans; [exact Hb1 | exact He].
        + apply Forall_app. split; [|constructor].
          * eapply List.Forall_impl; [|exact Hacc]. intros rec.
            apply caused_mono. intros x Hx. apply in_or_app. now left.
          * exists ref, w, f. repeat split; auto.
          * eapply List.Forall_impl; [|exact Hbelow].
            intros rec (r & w1 & q & Hr & Hw1 & -> & Hq & Hby).
            exists r, w1, q.
            split; [eapply emptied_waiting; eassumption|].
            split; [assumption|]. split; [reflexivity|].
            split; [assumption|]. right.
            destruct Hby as [->|(r0 & w0 & q0 & H0 & H1 & H2 & H3)].
            -- exists ref, w, f. repeat split; auto.
               apply in_or_app. right. now left.
            -- exists r0, w0, q0.
               split; [eapply emptied_waiting; eassumption|].
               repeat split; auto.
               apply in_or_app. right. now right. }
    eapply Hgen; [| apply emptied_refl | constructor | exact H].
    intros ref Hin. now apply actions_needing_In.
Qed.

(** X25: nothing is skipped without a cause.  A record of a run is the
    record of a call that was made, the duplicate record of a key that
    was called, or the skip of a work item that names a project this
    item needs; and the project a skip names is the project of a call
    that did not succeed, or the project of a work item that has a skip
    record of the run too. *)
Theorem skips_have_a_cause (f : GroupKey -> ActionOutput) (sched : list nat)
    (its : list WorkItem) (rec : ActionOutput) :
  In rec (fst (run f sched its)) ->
  (exists k, In k (invoked (snd (run f sched its))) /\
             (rec = f k \/ rec = duplicate_record k)) \/
  (exists w q,
     In w its /\ rec = skipped_record w q /\ needs_project w q = true /\
     ((exists k, In k (invoked (snd (run f sched its))) /\
                 succeeded (f k) = false /\ q = o_project (f k)) \/
      (exists w0 q0, In w0 its /\
                     In (skipped_record w0 q0) (fst (run f sched its)) /\
                     q = w_project w0))).
Proof.
  revert rec.
  pose (C := fun (s : Pool) (recs : list ActionOutput) (rec : ActionOutput) =>
    (exists k, In k (invoked s) /\ (rec = f k \/ rec = duplicate_record k)) \/
    (exists w q,
       In w its /\ rec = skipped_record w q /\ needs_project w q = true /\
       ((exists k, In k (invoked s) /\ succeeded (f k) = false /\
                   q = o_project (f k)) \/
        (exists w0 q0, In w0 its /\ In (skipped_record w0 q0) recs /\
                       q = w_project w0)))).
  assert (Cmono : forall s s' recs recs' rec,
            (forall k, In k (invoked s) -> In k (invoked s')) ->
            incl recs recs' -> C s recs rec -> C s' recs' rec).
  { intros s s' recs recs' rec Hk Hr [(k & Hin & Hshape)|(w & q & Hw & Hrec & Hq & Hby)].
    - left. exists k. auto.
    - right. exists w, q. repeat (split; [assumption|]).
      destruct Hby as [(k & Hin & Hfail & Hqk)|(w0 & q0 & Hw0 & Hin0 & Hq0)].
      + left. exists k. auto.
      + right. exists w0, q0. auto. }
  pose (I := fun (_ : list Z) (fl : list GroupKey) (recs : list ActionOutput)
                 (s : Pool) =>
    reaches f (initial_pool its) s /\
    (forall k, In k fl -> In k (invoked s)) /\
    forall rec, In rec recs -> C s recs rec).
  assert (H : I [] [] (fst (run f sched its)) (snd (run f sched its))).
  { apply run_ind.
    - intros p todo recs s ps s1 (Hreach & _ & Hrecs) Hl.
      assert (Hreach1 : reaches f (initial_pool its) s1)
        by (eapply reaches_step; [exact Hreach | eapply tier_step; exact Hl]).
      pose proof (reaches_initial f its s1 Hreach1) as (_ & _ & Hbi & _).
      pose proof (launch_registers _ _ _ _ Hl) as Hreg.
      apply launch_spec in Hl.
      destruct Hl as (_ & _ & new & _ & Hinv & Hfl & _ & _ & Hout & _).
      split; [assumption|]. split.
      + intros k Hk. rewrite Hfl in Hk. rewrite Hinv. apply in_or_app. now right.
      + intros rec Hrec. apply in_app_or in Hrec. destruct Hrec as [Hrec|Hrec].
        * eapply Cmono; [| |apply Hrecs, Hrec].
          -- intros k Hk. rewrite Hinv. apply in_or_app. now left.
          -- intros x Hx. apply in_or_app. now left.
        * destruct (Hout rec Hrec) as (k & Hk & ->). left. exists k.
          split; [|now right]. rewrite <- Hbi. now apply Hreg.
    - intros todo fl recs s fl' recs' s' (Hreach & Hfl & Hrecs)
        (k & l1 & l2 & kids & removed & -> & Hcb & -> & Hperm).
      assert (Hreach' : reaches f (initial_pool its) s')
        by (eapply reaches_step; [exact Hreach | eapply step_settle, Hcb]).
      pose proof (reaches_initial f its s' Hreach') as (_ & _ & Hbi & _).
      pose proof (then_callback_effects _ _ _ _ _ _ Hcb)
        as (new & Hinv & _ & Hnew & _).
      pose proof (then_callback_freed _ _ _ _ _ _ Hcb)
        as (blk1 & freed & _ & _ & _ & _ & _ & _ & Hreg & _ & _ & _ & _
            & _ & _ & Hdups).
      pose proof (then_callback_spec _ _ _ _ _ _ Hcb)
        as (blk1' & freed' & Hcasc & _).
      assert (Hk : In k (invoked s))
        by (apply Hfl, in_or_app; right; now left).
      assert (Hmono : forall k0, In k0 (invoked s) -> In k0 (invoked s'))
        by (intros k0 Hk0; rewrite Hinv; apply in_or_app; now left).
      assert (Hall : forall x, In x (recs ++ f k :: outputs kids ++ removed) ->
                In x recs')
        by (intros x Hx; apply (Permutation_in _ (Permutation_sym Hperm) Hx)).
      split; [assumption|]. split.
      + intros k0 Hk0. apply in_app_or in Hk0. destruct Hk0 as [Hk0|Hk0].
        * apply Hmono, Hfl. apply in_or_app. now left.
        * apply in_app_or in Hk0. destruct Hk0 as [Hk0|Hk0].
          -- rewrite Hinv, <- Hnew. apply in_or_app. now right.
          -- apply Hmono, Hfl. apply in_or_app. right. now right.
      + intros rec Hrec. apply (Permutation_in _ Hperm) in Hrec.
        apply in_app_or in Hrec. destruct Hrec as [Hrec|[<-|Hrec]].
        * eapply Cmono; [exact Hmono | | apply Hrecs, Hrec].
          intros x Hx. apply Hall, in_or_app. now left.
        * left. exists k. split; [|now left]. now apply Hmono.
        * apply in_app_or in Hrec. destruct Hrec as [Hrec|Hrec].
          -- destruct (Hdups rec Hrec) as (k' & Hk' & ->). left. exists k'.
             split; [|now right]. rewrite <- Hbi. now apply Hreg.
          -- right. destruct (succeeded (f k)) eqn:Hok.
             { injection Hcasc as <- _. destruct Hrec. }
             apply cascade_caused in Hcasc.
             rewrite List.Forall_forall in Hcasc.
             destruct (Hcasc rec Hrec) as (r & w & q & _ & Hw & -> & Hq & Hby).
             destruct (reaches_same_binding f _ _ _ _ Hreach Hw)
               as (w0 & Hw0 & Hbind & Hsub).
             exists w0, q. split; [eapply lookup_In, Hw0|].
             split; [now apply skipped_record_same_binding|].
             split; [now apply Hsub|].
             destruct Hby as [->|(r1 & w1 & q1 & _ & Hw1 & Hin1 & ->)].
             ++ left. exists k. split; [now apply Hmono | auto].
             ++ right.
                destruct (reaches_same_binding f _ _ _ _ Hreach Hw1)
                  as (w2 & Hw2 & Hbind2 & _).
                exists w2, q1. split; [eapply lookup_In, Hw2|]. split.
                ** rewrite <- (skipped_record_same_binding _ _ q1 Hbind2).
                   apply Hall, in_or_app. right. right.
                   apply in_or_app. now right.
                ** destruct Hbind2 as [Hp _]. exact Hp.
    - split; [apply reaches_refl|]. split; intros x []. }
  destruct H as (_ & _ & H). exact H.
Qed.

Lemma skips_have_a_cause_witness :
  (exists k, In k (invoked (snd (run (fail_in "web") [] Hops.selected))) /\
     (skipped_record
        (mkItem "ui" "build" "*" [("*", ["echo"; "ui"])] None (Some ["api"])) "api"
      = fail_in "web" k \/
      skipped_record
        (mkItem "ui" "build" "*" [("*", ["echo"; "ui"])] None (Some ["api"])) "api"
      = duplicate_record k)) \/
  (exists w q,
     In w Hops.selected /\
     skipped_record
       (mkItem "ui" "build" "*" [("*", ["echo"; "ui"])] None (Some ["api"])) "api"
     = skipped_record w q /\ needs_project w q = true /\
     ((exists k, In k (invoked (snd (run (fail_in "web") [] Hops.selected))) /\
                 succeeded (fail_in "web" k) = false /\
                 q = o_project (fail_in "web" k)) \/
      (exists w0 q0, In w0 Hops.selected /\
                     In (skipped_record w0 q0)
                        (fst (run (fail_in "web") [] Hops.selected)) /\
                     q = w_project w0))).
Proof.
  apply (skips_have_a_cause (fail_in "web") [] Hops.selected).
  simpl. right. right. now left.
Defined.
